(** * ToolMaster.js 4.2.0

    A shallow embedding of the functions of [ToolMaster@4.2.0.js] and what
    holds of them.  The definitions come first, one module for each group
    of functions; the proofs follow in modules of the same names with
    [Spec] added.

    - [Retry]: [retry(fn, retries, delay)], an [async] function that calls
      itself; the operation [fn] is a stateful callable, the timer is a log
      of the delays handed to [setTimeout].
    - [Parallel]: [parallel(tasks, concurrency)], modelled on an explicit
      promise store and a FIFO microtask queue.
    - [Numbers]: [clamp], [hash], [timeDiff]; [Arrays]: [chunk],
      [shuffle]; [Strings]: [uuid], [randomString].
    - [Functions]: the closures of [throttle], [debounce] and [memoize].
    - [Events], [Plugins], [Extend]: the event bus, the plugin registry and
      [extend]; [Storage]: [setLocal] and [getLocal]; [Validation]:
      [isEmail]; [Dates]: [formatDate].

    - [Double]: the operations that round, for [shuffle], [randomString]
      and [timeDiff].

    [Math.random()] is a sequence of numbers, one for each call: doubles
    where the product is rounded ([shuffle], [randomString]), rationals in
    [uuid], where the product by 16 is exact.  The delay of [retry] is an
    integer or an infinity: doubling is exact until it overflows. *)

From Stdlib Require Import ZArith Lia QArith Qround Ascii DecimalString
  HexadecimalString.
From Equations Require Import Equations.
From stdpp Require Import base list sets strings gmap.

Local Open Scope Z_scope.

(** The way a promise settles: fulfilled with a value or rejected with an
    error.  An [await] on it returns the value or throws the error. *)
Inductive outcome (V E : Type) : Type :=
| Fulfilled (v : V)
| Rejected (e : E).
Arguments Fulfilled {V E} v.
Arguments Rejected {V E} e.


(** ** retry *)

Module Retry.

(** The numbers [delay] takes here: the integers and the two infinities.
    [Infinity true] is [Infinity], [Infinity false] is [-Infinity]. *)
Inductive number : Type :=
| Finite (n : Z)
| Infinity (positive : bool).

(** [delay * 2].  On an integer it is exact as long as the result is a
    double, that is below [2^1024] in absolute value: doubling changes the
    exponent only.  From [2^1024] on the result is an infinity, and the
    double of an infinity is that infinity. *)
Definition times2 (delay : number) : number :=
  match delay with
  | Finite n =>
      if decide (2 ^ 1024 <= 2 * n) then Infinity true
      else if decide (2 * n <= - 2 ^ 1024) then Infinity false
      else Finite (2 * n)
  | Infinity positive => Infinity positive
  end.



Section retry.
(** [V]: values the operation resolves with, [E]: errors it throws or
    rejects with, [St]: whatever the operation closes over.  One call of
    [fn()] followed by [await] is one application of [fn]. *)
Context {V E St : Type}.
Variable fn : St -> outcome V E * St.

(** What a caller can observe besides the result: the state of the
    operation, how often it was invoked, and the delays passed to
    [setTimeout], oldest first. *)
Record world : Type := World {
  op_state : St;
  calls : nat;
  waits : list number;
}.

Definition invoke (w : world) : outcome V E * world :=
  let '(o, s) := fn (op_state w) in
  (o, World s (S (calls w)) (waits w)).

Definition sleep (delay : number) (w : world) : world :=
  World (op_state w) (calls w) (waits w ++ [delay]).

(** [[
    async retry(fn, retries = 3, delay = 1000) {
      try {
        return await fn();
      } catch (error) {
        if (retries <= 0) throw error;
        await new Promise(res => setTimeout(res, delay));
        return this.retry(fn, retries - 1, delay * 2);
      }
    }
    ]]
    [retries] is a JavaScript number, here an integer, [delay] an
    integer or an infinity.  The recursion is on [retries], which the
    guard [retries <= 0] bounds. *)
Equations? retry (retries : Z) (delay : number) (w : world)
    : outcome V E * world
  by wf (Z.to_nat retries) lt :=
  retry retries delay w with invoke w := {
    | (Fulfilled v, w1) := (Fulfilled v, w1);
    | (Rejected error, w1) with Z_le_gt_dec retries 0 := {
        | left _ := (Rejected error, w1);
        | right _ := retry (retries - 1) (times2 delay) (sleep delay w1) } }.
Proof. lia. Qed.

(** The world before the first call. *)
Definition fresh (s : St) : world := World s 0 [].

(** The state of the operation after [j] invocations. *)
Fixpoint state_after (j : nat) (s : St) : St :=
  match j with
  | O => s
  | S j' => state_after j' (snd (fn s))
  end.

(** The outcome of invocation number [j] (from 0). *)
Definition attempt (j : nat) (s : St) : outcome V E :=
  fst (fn (state_after j s)).




(** [2^0 + 2^1 + ... + 2^(k-1)]. *)
Definition geometric (k : nat) : Z :=
  foldr Z.add 0 (map (fun j => 2 ^ Z.of_nat j) (seq 0 k)).


End retry.

(** Two operations to run [retry] on.  Both count their invocations in
    their state.  [flaky k] rejects with the number of the attempt on its
    first [k] invocations and resolves with 42 afterwards; [broken] always
    rejects with the number of the attempt. *)
Definition flaky (k : nat) (n : nat) : outcome Z nat * nat :=
  (if (n <? k)%nat then Rejected n else Fulfilled 42, S n).

Definition broken (n : nat) : outcome Z nat * nat := (Rejected n, S n).
End Retry.


(** ** parallel *)

Module Parallel.
Section parallel.
Context {V E : Type}.

(** What a task does when it is called: it returns a plain value or
    throws at once ([Sync]), or it returns a promise that settles later,
    at a time the task does not control ([Async]). *)
Inductive task : Type :=
| Sync (o : outcome V E)
| Async (o : outcome V E).

Definition task_outcome (t : task) : outcome V E :=
  match t with Sync o | Async o => o end.

(** The handlers the function attaches to [results[i]], in the order of
    the source: [promise.then(cleanup)], the [then] of a
    [Promise.race(executing)], the [then] of [Promise.all(results)]. *)
Inductive reaction : Type :=
| RCleanup
| RRace (r : nat)
| RAll.

Inductive promise_state : Type :=
| Pending (reactions : list reaction)
| Settled (o : outcome V E).

(** Microtasks.  Jobs that change nothing of the state below (the
    fulfilled branch of [.catch(cleanup)], the jobs that make one native
    promise adopt another) are left out; they only come later in the
    queue than the job that enqueues them.
    - [JInvoke i]: the reaction of [Promise.resolve().then(task)];
    - [JSettle i o]: [results[i]] adopts the promise task [i] returned;
    - [JReact i r o]: handler [r] of [results[i]], settled as [o];
    - [JCatch i]: [.catch(cleanup)], after [promise.then(cleanup)]
      passed a rejection on;
    - [JResume r o]: the rest of the function after
      [await Promise.race(executing)] number [r];
    - [JFinal o]: the promise of [parallel] adopts [Promise.all]. *)
Inductive job : Type :=
| JInvoke (i : nat)
| JSettle (i : nat) (o : outcome V E)
| JReact (i : nat) (r : reaction) (o : outcome V E)
| JCatch (i : nat)
| JResume (r : nat) (o : outcome V E)
| JFinal (o : outcome (list (option V)) E).

(** [Promise.all]: the array of values ([None] is a hole), the count of
    elements not yet fulfilled, whether its promise is settled. *)
Record all_state : Type := AllState {
  values : list (option V);
  remaining : nat;
  all_settled : bool;
}.

(** The heap of one call of [parallel], the microtask queue, and three
    probes: the tasks in flight ([active]), the calls made so far
    ([invoked]) and the high-water mark of tasks running at once
    ([hwm]). *)
Record state : Type := State {
  results : list promise_state;
  executing : list nat;
  races : list bool;
  all : option all_state;
  queue : list job;
  result : option (outcome (list (option V)) E);
  active : list nat;
  invoked : list nat;
  hwm : nat;
}.

Definition set_results (x : list promise_state) (st : state) : state :=
  State x (executing st) (races st) (all st) (queue st) (result st)
        (active st) (invoked st) (hwm st).
Definition set_executing (x : list nat) (st : state) : state :=
  State (results st) x (races st) (all st) (queue st) (result st)
        (active st) (invoked st) (hwm st).
Definition set_races (x : list bool) (st : state) : state :=
  State (results st) (executing st) x (all st) (queue st) (result st)
        (active st) (invoked st) (hwm st).
Definition set_all (x : option all_state) (st : state) : state :=
  State (results st) (executing st) (races st) x (queue st) (result st)
        (active st) (invoked st) (hwm st).
Definition set_queue (x : list job) (st : state) : state :=
  State (results st) (executing st) (races st) (all st) x (result st)
        (active st) (invoked st) (hwm st).
Definition set_result (x : option (outcome (list (option V)) E))
    (st : state) : state :=
  State (results st) (executing st) (races st) (all st) (queue st) x
        (active st) (invoked st) (hwm st).
Definition set_active (x : list nat) (st : state) : state :=
  State (results st) (executing st) (races st) (all st) (queue st)
        (result st) x (invoked st) (hwm st).

(** The probe at the entry of task [i]: one more call, and the tasks in
    flight plus this one are running. *)
Definition record_call (i : nat) (st : state) : state :=
  State (results st) (executing st) (races st) (all st) (queue st)
        (result st) (active st) (invoked st ++ [i])
        (Nat.max (hwm st) (S (length (active st)))).

Definition enqueue (js : list job) (st : state) : state :=
  set_queue (queue st ++ js) st.

(** [Set.prototype.delete]. *)
Definition remove (i : nat) (l : list nat) : list nat :=
  filter (fun j => j <> i) l.

(** [results[i].then(...)]: the handler waits while the promise is
    pending and is queued at once when it is settled. *)
Definition subscribe (i : nat) (r : reaction) (st : state) : state :=
  match results st !! i with
  | Some (Pending rs) =>
      set_results (<[i := Pending (rs ++ [r])]> (results st)) st
  | Some (Settled o) => enqueue [JReact i r o] st
  | None => st
  end.

(** [results[i]] settles: its handlers are queued in the order they were
    attached. *)
Definition settle (i : nat) (o : outcome V E) (st : state) : state :=
  match results st !! i with
  | Some (Pending rs) =>
      enqueue ((fun r => JReact i r o) <$> rs)
              (set_results (<[i := Settled o]> (results st)) st)
  | _ => st
  end.

(** [results[i].then(...)] for every [i] of a list, in order. *)
Definition subscribe_all (r : reaction) (l : list nat) (st : state) : state :=
  foldl (fun s i => subscribe i r s) st l.

(** [await Promise.race(executing)]: a new race promise, with a handler
    on every member of the set, in insertion order. *)
Definition race (st : state) : state :=
  let r := length (races st) in
  subscribe_all (RRace r) (executing st)
                (set_races (races st ++ [false]) st).

(** [return Promise.all(results)]: one handler per element; an empty
    array fulfils the promise at once. *)
Definition finish (st : state) : state :=
  let n := length (results st) in
  match n with
  | O => enqueue [JFinal (Fulfilled [])]
                 (set_all (Some (AllState [] 0 true)) st)
  | _ => subscribe_all RAll (seq 0 n)
           (set_all (Some (AllState (replicate n None) n false)) st)
  end.

(** The head of the loop body, for index [i = results.length]:
    [[
    const promise = Promise.resolve().then(task);
    results[i] = promise;
    const cleanup = () => executing.delete(promise);
    promise.then(cleanup).catch(cleanup);
    executing.add(promise);
    ]] *)
Definition spawn (st : state) : state :=
  let i := length (results st) in
  set_executing (executing st ++ [i])
    (enqueue [JInvoke i]
       (set_results (results st ++ [Pending [RCleanup]]) st)).

Variable tasks : list task.
Variable concurrency : Z.

(** [[
    for (const [i, task] of tasks.entries()) {
      const promise = Promise.resolve().then(task);
      results[i] = promise;
      const cleanup = () => executing.delete(promise);
      promise.then(cleanup).catch(cleanup);
      executing.add(promise);
      if (executing.size >= concurrency) {
        await Promise.race(executing);
      }
    }
    return Promise.all(results);
    ]]
    The function runs from the head of the loop, over the tasks that are
    left, up to the next [await] or to the [return]. *)
Fixpoint loop (rest : list task) (st : state) : state :=
  match rest with
  | [] => finish st
  | _ :: rest' =>
      let st1 := spawn st in
      if decide (concurrency <= Z.of_nat (length (executing st1)))
      then race st1
      else loop rest' st1
  end.

Definition resume (st : state) : state :=
  loop (drop (length (results st)) tasks) st.

(** The handlers of [Promise.all] on element [i]. *)
Definition all_react (i : nat) (o : outcome V E) (st : state) : state :=
  match all st with
  | None => st
  | Some a =>
      match o with
      | Fulfilled v =>
          let vs := <[i := Some v]> (values a) in
          let n := pred (remaining a) in
          if decide (n = 0%nat) then
            if all_settled a then set_all (Some (AllState vs n true)) st
            else enqueue [JFinal (Fulfilled vs)]
                         (set_all (Some (AllState vs n true)) st)
          else set_all (Some (AllState vs n (all_settled a))) st
      | Rejected e =>
          if all_settled a then st
          else enqueue [JFinal (Rejected e)]
                 (set_all (Some (AllState (values a) (remaining a) true)) st)
      end
  end.

Definition run_job (j : job) (st : state) : state :=
  match j with
  | JInvoke i =>
      match tasks !! i with
      | Some (Sync o) => settle i o (record_call i st)
      | Some (Async _) =>
          set_active (active st ++ [i]) (record_call i st)
      | None => st
      end
  | JSettle i o => settle i o st
  | JReact i RCleanup (Fulfilled _) =>
      set_executing (remove i (executing st)) st
  | JReact i RCleanup (Rejected _) => enqueue [JCatch i] st
  | JCatch i => set_executing (remove i (executing st)) st
  | JReact i (RRace r) o =>
      match races st !! r with
      | Some false =>
          enqueue [JResume r o] (set_races (<[r := true]> (races st)) st)
      | _ => st
      end
  | JReact i RAll o => all_react i o st
  | JResume r (Fulfilled _) => resume st
  | JResume r (Rejected e) => set_result (Some (Rejected e)) st
  | JFinal o => set_result (Some o) st
  end.

(** What can happen next: the event loop runs the microtask at the head
    of the queue ([Tick]), or the promise returned by a task in flight
    settles ([Complete i]).  [Complete] is possible at any time, so every
    interleaving of timers and I/O with the microtasks is covered. *)
Inductive event : Type :=
| Tick
| Complete (i : nat).

Definition step (ev : event) (st : state) : option state :=
  match ev with
  | Tick =>
      match queue st with
      | [] => None
      | j :: q => Some (run_job j (set_queue q st))
      end
  | Complete i =>
      if decide (i ∈ active st) then
        match tasks !! i with
        | Some (Async o) =>
            Some (enqueue [JSettle i o]
                    (set_active (remove i (active st)) st))
        | _ => None
        end
      else None
  end.

Fixpoint exec (evs : list event) (st : state) : option state :=
  match evs with
  | [] => Some st
  | ev :: evs' =>
      match step ev st with
      | Some st' => exec evs' st'
      | None => None
      end
  end.

(** The call [parallel(tasks, concurrency)] runs up to its first
    [await] or its [return] before it hands back its promise. *)
Definition empty : state := State [] [] [] None [] None [] [] 0.
Definition init : state := loop tasks empty.

Inductive reachable : state -> Prop :=
| reachable_init : reachable init
| reachable_step ev st st' :
    reachable st -> step ev st = Some st' -> reachable st'.

(** Nothing is left to happen: no microtask, no task in flight. *)
Definition quiescent (st : state) : Prop :=
  queue st = [] /\ active st = [].

(** Run microtasks until the queue is empty, at most [fuel] of them. *)
Fixpoint drain (fuel : nat) (st : state) : state :=
  match fuel with
  | O => st
  | S fuel' =>
      match step Tick st with
      | Some st' => drain fuel' st'
      | None => st
      end
  end.

End parallel.


(** *** Invariants of the run *)

Section invariants.
Context {V E : Type}.
Variable tasks : list (@task V E).
Variable concurrency : Z.
Implicit Types (st : @state V E) (q : list (@job V E)).
Local Open Scope nat_scope.

Definition pending st (i : nat) : Prop :=
  exists rs, results st !! i = Some (Pending rs).

(** The indices of the [JInvoke] jobs of a queue, in order. *)
Definition invokes q : list nat :=
  omap (fun j => match j with JInvoke i => Some i | _ => None end) q.

(** Where every promise of [results] is in its life, and what the jobs
    of the queue may assume. *)
Record wf st : Prop := {
  wf_length : length (results st) <= length tasks;
  wf_executing : NoDup (executing st);
  wf_executing_lt : forall i, i ∈ executing st -> i < length (results st);
  wf_active_nodup : NoDup (active st);
  wf_active : forall i, i ∈ active st ->
    pending st i /\ (JInvoke i ∉ queue st) /\
    (forall o, JSettle i o ∉ queue st) /\
    exists o, tasks !! i = Some (Async o);
  wf_invokes : NoDup (invokes (queue st));
  wf_invoke : forall i, JInvoke i ∈ queue st ->
    pending st i /\ forall o, JSettle i o ∉ queue st;
  wf_jsettle : forall i o, JSettle i o ∈ queue st ->
    i < length (results st) /\ tasks !! i = Some (Async o);
  wf_react : forall i r o, JReact i r o ∈ queue st ->
    results st !! i = Some (Settled o);
  wf_catch : forall i, JCatch i ∈ queue st ->
    exists e, results st !! i = Some (Settled (Rejected e));
  wf_pending : forall i rs, results st !! i = Some (Pending rs) ->
    i ∈ executing st /\ (exists rs', rs = RCleanup :: rs') /\
    (JInvoke i ∈ queue st \/ i ∈ active st \/
     exists o, JSettle i o ∈ queue st);
  wf_settled : forall i o, results st !! i = Some (Settled o) ->
    exists t, tasks !! i = Some t /\ task_outcome t = o;
  wf_invoked_nodup : NoDup (invoked st);
  wf_invoked : forall i, i ∈ invoked st ->
    i < length (results st) /\ JInvoke i ∉ queue st;
  wf_started : forall i, i < length (results st) ->
    JInvoke i ∈ queue st \/ i ∈ invoked st;
}.

(** Jobs that no other part of the state waits for. *)
Definition passive (j : @job V E) : Prop :=
  match j with JInvoke _ | JSettle _ _ => False | _ => True end.

(** Jobs that may join the queue of [st] as they are. *)
Definition admissible st (j : @job V E) : Prop :=
  match j with
  | JInvoke _ | JSettle _ _ => False
  | JReact i _ o => results st !! i = Some (Settled o)
  | JCatch i => exists e, results st !! i = Some (Settled (Rejected e))
  | JResume _ _ | JFinal _ => True
  end.

Definition no_open (rc : list bool) : Prop :=
  forall r, rc !! r <> Some false.

(** Jobs that neither wake the loop up nor resume it. *)
Definition plain (j : @job V E) : Prop :=
  match j with
  | JReact _ (RRace _) _ | JResume _ _ => False
  | _ => True
  end.

(** The jobs [subscribe_all r l] adds to the queue: one for each promise
    of [l] that is settled already. *)
Definition notified (r : reaction) (l : list nat) st : list (@job V E) :=
  omap (fun i => match results st !! i with
                 | Some (Settled o) => Some (JReact i r o)
                 | _ => None
                 end) l.

(** The index a job takes out of [executing] when it runs. *)
Definition cleans (j : @job V E) : option nat :=
  match j with
  | JReact i RCleanup (Fulfilled _) => Some i
  | JCatch i => Some i
  | _ => None
  end.

Definition cleanup_of (j : @job V E) (ex : list nat) : list nat :=
  match cleans j with Some i => remove i ex | None => ex end.

(** [executing] once the cleanups of the jobs of [q] have run. *)
Definition after q (ex : list nat) : list nat :=
  foldl (fun ex j => cleanup_of j ex) ex q.

(** A job that wakes the loop up: a fulfilled member of a race that is
    still open. *)
Definition wakes (rc : list bool) (j : @job V E) : Prop :=
  exists i r v, j = JReact i (RRace r) (Fulfilled v) /\ rc !! r = Some false.

(** Whenever a job of the queue wakes the loop up, the cleanups queued
    before it have made room in [executing]. *)
Fixpoint safe (rc : list bool) (ex : list nat) q : Prop :=
  match q with
  | [] => True
  | j :: q' =>
      (wakes rc j -> (Z.of_nat (length ex) < concurrency)%Z) /\
      safe rc (cleanup_of j ex) q'
  end.

(** The races whose continuation is in the queue. *)
Definition resumes q : list nat :=
  omap (fun j => match j with JResume r _ => Some r | _ => None end) q.

(** What bounds the set [executing]. *)
Record bounded st : Prop := {
  bd_executing : (Z.of_nat (length (executing st)) <= concurrency)%Z;
  bd_hwm : (Z.of_nat (hwm st) <= concurrency)%Z;
  bd_cleanup : forall i v,
    i ∈ executing st -> results st !! i = Some (Settled (Fulfilled v)) ->
    JReact i RCleanup (Fulfilled v) ∈ queue st;
  bd_safe : safe (races st) (executing st) (queue st);
  bd_open : forall r, races st !! r = Some false ->
    S r = length (races st) /\ resumes (queue st) = [];
  bd_resumes : length (resumes (queue st)) <= 1;
  bd_resume : forall r v, JResume r (Fulfilled v) ∈ queue st ->
    (Z.of_nat (length (executing st)) < concurrency)%Z;
  bd_race_pending : forall i rs r,
    results st !! i = Some (Pending rs) -> RRace r ∈ rs ->
    r < length (races st);
  bd_race_job : forall i r o,
    JReact i (RRace r) o ∈ queue st -> r < length (races st);
}.

(** A rejected outcome carries the error of a rejected promise of
    [results]. *)
Definition blame {A : Type} st (o : outcome A E) : Prop :=
  match o with
  | Fulfilled _ => True
  | Rejected e => exists i, results st !! i = Some (Settled (Rejected e))
  end.

(** While the function has neither returned nor thrown, it waits for a
    race that somebody will settle, or its continuation is queued. *)
Record awaiting st : Prop := {
  aw_await : all st = None -> result st = None ->
    (exists r, races st !! r = Some false) \/
    (exists r o, JResume r o ∈ queue st);
  aw_race : forall r, races st !! r = Some false ->
    exists i,
      (exists rs, results st !! i = Some (Pending rs) /\ RRace r ∈ rs) \/
      (exists o, JReact i (RRace r) o ∈ queue st);
  aw_open : forall r, races st !! r = Some false ->
    all st = None /\ result st = None;
  aw_resume : forall r o, JResume r o ∈ queue st ->
    all st = None /\ result st = None /\ blame st o;
  aw_final : forall o, JFinal o ∈ queue st -> all st <> None;
}.

(** A job that is neither the continuation of the function nor the
    handler of an open race. *)
Definition idle st (j : @job V E) : Prop :=
  match j with
  | JResume _ _ => False
  | JReact _ (RRace r) _ => races st !! r <> Some false
  | _ => True
  end.

(** The function is at the head of its loop. *)
Record paused st : Prop := {
  pa_all : all st = None;
  pa_result : result st = None;
  pa_races : no_open (races st);
  pa_resumes : resumes (queue st) = [];
  pa_final : forall o, JFinal o ∉ queue st;
}.

(** The elements whose [Promise.all] handler is in the queue. *)
Definition alls q : list nat :=
  omap (fun j => match j with JReact i RAll _ => Some i | _ => None end) q.

(** The number of holes of an array. *)
Fixpoint holes (vs : list (option V)) : nat :=
  match vs with
  | [] => 0
  | None :: vs' => S (holes vs')
  | Some _ :: vs' => holes vs'
  end.

(** The [Promise.all] handler of element [i] has not run yet. *)
Definition outstanding st (i : nat) : Prop :=
  (exists rs, results st !! i = Some (Pending rs) /\ RAll ∈ rs) \/
  (exists o, JReact i RAll o ∈ queue st).

(** What [Promise.all] may settle with: the values of all the promises of
    [results], in order, or the error of one of them. *)
Definition good st (o : outcome (list (option V)) E) : Prop :=
  match o with
  | Fulfilled vs =>
      length vs = length tasks /\
      forall i, i < length tasks ->
        exists v, vs !! i = Some (Some v) /\
                  results st !! i = Some (Settled (Fulfilled v))
  | Rejected e => exists i, results st !! i = Some (Settled (Rejected e))
  end.

(** The bookkeeping of [Promise.all(results)]. *)
Record gathering st (a : all_state) : Prop := {
  gg_results : length (results st) = length tasks;
  gg_values : length (values a) = length tasks;
  gg_remaining : remaining a = holes (values a);
  gg_positive : all_settled a = false -> 0 < remaining a;
  gg_hole : all_settled a = false ->
    forall i, values a !! i = Some None -> outstanding st i;
  gg_job : forall i o, JReact i RAll o ∈ queue st ->
    values a !! i = Some None;
  gg_pending : forall i rs, results st !! i = Some (Pending rs) ->
    values a !! i = Some None /\ RAll ∈ rs;
  gg_filled : forall i v, values a !! i = Some (Some v) ->
    results st !! i = Some (Settled (Fulfilled v));
  gg_settled : all_settled a = true -> result st = None ->
    exists o, JFinal o ∈ queue st;
}.

(** Jobs that [Promise.all] has nothing to do with. *)
Definition foreign (j : @job V E) : Prop :=
  match j with JReact _ RAll _ | JFinal _ => False | _ => True end.

Record gathered st : Prop := {
  ga_nodup : forall i rs, results st !! i = Some (Pending rs) -> NoDup rs;
  ga_alls : NoDup (alls (queue st));
  ga_none : all st = None ->
    (forall i rs, results st !! i = Some (Pending rs) -> RAll ∉ rs) /\
    alls (queue st) = [];
  ga_some : forall a, all st = Some a -> gathering st a;
  ga_final : forall o, JFinal o ∈ queue st -> good st o;
  ga_result : forall o, result st = Some o -> good st o;
}.

(** *** A measure of what is left to do *)

Definition reaction_weight (r : reaction) : nat :=
  match r with RCleanup => 2 | RRace _ => 1 | RAll => 2 end.

Definition promise_weight (p : @promise_state V E) : nat :=
  match p with
  | Pending rs => sum_list_with reaction_weight rs
  | Settled _ => 0
  end.

(** The continuation of the function weighs [l], what the rest of the
    loop can add to the state. *)
Definition job_weight (l : nat) (j : @job V E) : nat :=
  match j with
  | JInvoke _ => 3
  | JSettle _ _ => 1
  | JReact _ r _ => reaction_weight r
  | JCatch _ => 1
  | JResume _ _ => l
  | JFinal _ => 1
  end.

Definition race_weight (l : nat) (settled : bool) : nat :=
  if settled then 0 else S l.

Definition loop_weight (n : nat) : nat :=
  (length tasks - n) * (length tasks + 7) + 2 * length tasks + 2.

Definition weight (l : nat) st : nat :=
  sum_list_with (job_weight l) (queue st) + 2 * length (active st) +
  sum_list_with promise_weight (results st) +
  sum_list_with (race_weight l) (races st).

Definition measure st : nat :=
  weight (loop_weight (length (results st))) st.

(** The tasks that have been started or are about to be, oldest
    first. *)
Definition started st : list nat := invoked st ++ invokes (queue st).

(** What holds of every state of a run: the tasks were started in the
    order of the batch, none left out. *)
Definition in_order st : Prop :=
  started st = seq 0 (length (results st)).

(** One schedule among all: the microtasks first, as the event loop
    runs them, then the task that has been in flight longest. *)
Definition next_event st : option event :=
  match queue st, active st with
  | _ :: _, _ => Some Tick
  | [], i :: _ => Some (Complete i)
  | [], [] => None
  end.

Fixpoint run (fuel : nat) st : state :=
  match fuel with
  | O => st
  | S fuel' =>
      match next_event st ≫= (fun ev => step tasks concurrency ev st) with
      | Some st' => run fuel' st'
      | None => st
      end
  end.

(** The array [Promise.all] resolves with when every task succeeds. *)
Definition value_of (t : @task V E) : option V :=
  match task_outcome t with
  | Fulfilled v => Some v
  | Rejected _ => None
  end.

Definition expected : list (option V) := value_of <$> tasks.

Definition succeeds (t : @task V E) : Prop :=
  exists v, task_outcome t = Fulfilled v.

Definition fails (t : @task V E) : Prop :=
  exists e, task_outcome t = Rejected e.

End invariants.

(** Batches to run [parallel] on. *)
Definition one_ok : list (@task nat nat) := [Sync (Fulfilled 11%nat)].

Definition fail_then_ok : list (@task nat nat) :=
  [Sync (Rejected 7%nat); Sync (Fulfilled 11%nat)].

Definition slow_ok_fast_fail : list (@task nat nat) :=
  [Async (Fulfilled 10%nat); Async (Rejected 7%nat)].

(** The scenario of the specification: three operations that take 200,
    50 and 100 ms. *)
Definition three_timers : list (@task nat nat) :=
  [Async (Fulfilled 200%nat); Async (Fulfilled 50%nat);
   Async (Fulfilled 100%nat)].

End Parallel.



(** * Numbers that round

    Where a function of the library multiplies or divides numbers that
    are not integers, or subtracts integers of 53 bits, JavaScript rounds
    the result to a double; these are the operations, on integers
    alone. *)
Module Double.

(** A finite number that is not negative: [mantissa * 2 ^ exponent]. *)
Record double : Type := Make { mantissa : Z; exponent : Z }.

(** The numbers [Math.random()] may return, from 0 to 1, 1 left out: a
    mantissa of 53 bits at most, an exponent from -1074 on and below zero
    (zero has any of them), and a value below 1. *)
Definition unit_interval (x : double) : Prop :=
  0 <= mantissa x < 2 ^ 53 /\
  -1074 <= exponent x < 0 /\
  mantissa x < 2 ^ (- exponent x).

(** The integer nearest to [n / d], the even one of two that are as
    near. *)
Definition nearest_even (n d : Z) : Z :=
  let q := n / d in
  let r := n mod d in
  if decide (2 * r < d) then q
  else if decide (d < 2 * r) then q + 1
  else if Z.even q then q else q + 1.

(** [x * n] for [x] below 1 and an integer [n] from 0 to [2^53 - 1]: the
    product as it is when its mantissa has 53 bits at most, and rounded
    to its 53 leading bits otherwise.  The exponent does not go down, and
    the product is below [n]: no underflow, no overflow. *)
Definition times (x : double) (n : Z) : double :=
  let product := mantissa x * n in
  if decide (product < 2 ^ 53) then Make product (exponent x)
  else
    let shift := Z.log2 product - 52 in
    Make (nearest_even product (2 ^ shift)) (exponent x + shift).

(** [a / b] for integers [0 <= a] and [0 < b]: with [2^e <= a / b <
    2^(e+1)], the quotient in units of [2^(e-52)], rounded to the nearest
    of them.  The quotients met here are far from the range where a double
    has fewer than 53 bits, and from the largest double. *)
Definition divide (a b : Z) : double :=
  if decide (a = 0) then Make 0 0
  else
    let e0 := Z.log2 a - Z.log2 b in
    let e :=
      if decide (b * 2 ^ Z.max e0 0 <= a * 2 ^ Z.max (- e0) 0) then e0
      else e0 - 1 in
    let shift := 52 - e in
    Make (nearest_even (a * 2 ^ Z.max shift 0) (b * 2 ^ Z.max (- shift) 0))
         (- shift).

(** The number an integer becomes as the result of an operation: itself
    up to 53 bits, the nearest number of 53 bits beyond. *)
Definition round (z : Z) : Z :=
  let a := Z.abs z in
  if decide (a < 2 ^ 53) then z
  else
    let shift := Z.log2 a - 52 in
    Z.sgn z * (nearest_even a (2 ^ shift) * 2 ^ shift).

(** [Math.floor(x)]. *)
Definition floor (x : double) : Z := Z.shiftl (mantissa x) (exponent x).

(** A sequence for [Math.random]: 0, 5/16, 10/16, 15/16, 4/16, ... *)
Definition sixteenths (k : nat) : double :=
  Make (Z.of_nat k * 5 mod 16) (-4).

End Double.


(** * Numbers and dates: [clamp], [hash], [timeDiff]

  The numbers of [clamp] and [hash] are taken at the integers, where the
  arithmetic of these functions is exact; [timeDiff] rounds as JavaScript
  does.  A string is the list of its UTF-16 code units, as [charCodeAt]
  returns them. *)
Module Numbers.

(** [clamp(value, min, max)]. *)
Definition clamp (value min max : Z) : Z :=
  Z.min (Z.max value min) max.

(** [x | 0]: what is left of an integer in 32 bits, two's complement. *)
Definition to_int32 (x : Z) : Z := (x + 2 ^ 31) mod 2 ^ 32 - 2 ^ 31.

(** [x << n] on 32 bits. *)
Definition shl32 (x n : Z) : Z := to_int32 (Z.shiftl (to_int32 x) n).

(** [n.toString(16)] *)
Definition to_hex (n : Z) : string :=
  HexadecimalString.NilZero.string_of_int (Z.to_hex_int n).

(** The loop of [hash], from position [i] on; [str] is what is left of
    the string there. *)
Fixpoint hash_loop (str : list Z) (hash : Z) : Z :=
  match str with
  | [] => hash
  | c :: str' => hash_loop str' (to_int32 (shl32 hash 5 - hash + c))
  end.

(** The number [hash] holds after the loop. *)
Definition hash_code (str : list Z) : Z := hash_loop str 0.

Definition hash (str : list Z) : string := to_hex (Z.abs (hash_code str)).

(** The strings of JavaScript. *)
Definition code_units (str : list Z) : Prop :=
  Forall (fun c => 0 <= c < 65536) str.

(** The polynomial in 31 a string stands for, on top of [acc]. *)
Definition poly31 (str : list Z) (acc : Z) : Z :=
  foldl (fun h c => 31 * h + c) acc str.

(** The object [timeDiff] returns. *)
Record time_units : Type := TimeUnits {
  milliseconds : Z;
  seconds : Z;
  minutes : Z;
  hours : Z;
  days : Z;
}.

(** [timeDiff(start, end)]; a date is its time value, an integer number
    of milliseconds.  The difference is a double, and so is each quotient
    before [Math.floor]. *)
Definition timeDiff (start end_ : Z) : time_units :=
  let diff := Z.abs (Double.round (end_ - start)) in
  {| milliseconds := diff;
     seconds := Double.floor (Double.divide diff 1000);
     minutes := Double.floor (Double.divide diff (1000 * 60));
     hours := Double.floor (Double.divide diff (1000 * 60 * 60));
     days := Double.floor (Double.divide diff (1000 * 60 * 60 * 24)) |}.

End Numbers.

(** * Arrays: [chunk], [shuffle] *)
Module Arrays.
Section arrays.
Context {A : Type}.

(** [array.slice(start, end)]: a negative index counts from the end, and
    both are brought back into the array. *)
Definition slice (array : list A) (start end_ : Z) : list A :=
  let len := Z.of_nat (length array) in
  let relative (k : Z) :=
    if decide (k < 0) then Z.max (len + k) 0 else Z.min k len in
  let first := relative start in
  let final := relative end_ in
  take (Z.to_nat (final - first)) (drop (Z.to_nat first) array).

(** The loop of [chunk].  With a [size] of zero or less the index never
    passes the end of a non-empty array, so the loop has a bound on its
    number of turns, [fuel], and gives [None] when it reaches it. *)
Fixpoint chunk_loop (fuel : nat) (array : list A) (size i : Z)
    (chunks : list (list A)) : option (list (list A)) :=
  match fuel with
  | O => None
  | S fuel' =>
      if decide (i < Z.of_nat (length array)) then
        chunk_loop fuel' array size (i + size)
          (chunks ++ [slice array i (i + size)])
      else Some chunks
  end.

Definition chunk (fuel : nat) (array : list A) (size : Z)
    : option (list (list A)) :=
  chunk_loop fuel array size 0 [].

(** [Math.random()], call after call. *)
Variable random : nat -> Double.double.

(** [Math.floor(Math.random() * n)] at call [k]: the floor of the
    rounded product. *)
Definition random_index (k : nat) (n : nat) : nat :=
  Z.to_nat (Double.floor (Double.times (random k) (Z.of_nat n))).

(** [[result[i], result[j]] = [result[j], result[i]]].  [None] stands for
    an index outside of the array, where the assignment would make the
    array grow: [Math.random] never leads there. *)
Definition swap (result : list A) (i j : nat) : option (list A) :=
  match result !! i, result !! j with
  | Some x, Some y => Some (<[j := x]> (<[i := y]> result))
  | _, _ => None
  end.

(** The loop of [shuffle]: [i] goes down to 1, [k] counts the calls of
    [Math.random]. *)
Fixpoint shuffle_loop (i k : nat) (result : list A) : option (list A) :=
  match i with
  | O => Some result
  | S i' =>
      match swap result i (random_index k (i + 1)) with
      | Some result' => shuffle_loop i' (S k) result'
      | None => None
      end
  end.

Definition shuffle (array : list A) : option (list A) :=
  shuffle_loop (length array - 1) 0 array.

End arrays.
End Arrays.


(** * Function wrappers: [throttle], [debounce], [memoize]

    Each wrapper is a closure over a variable or two; the closure is a
    record, a call of the wrapped function a transition on it.  What the
    wrapped [fn] was called with is kept in a log, with the time of the
    call where the wrapper reads the clock or sets a timer. *)
Module Functions.

Section throttle.
Context {A R E : Type}.
(** [fn(...args)] returns or throws. *)
Variable fn : A -> outcome R E.
Variable limit : Z.

Record throttled : Type := Throttled {
  lastCall : Z;
  executed : list (Z * A);
}.

(** [throttle(fn, limit)] *)
Definition throttle : throttled := Throttled 0 [].

(** A call of the function [throttle] returned, with [Date.now()] at
    [now]: [Some e] when [fn] throws [e], which leaves [lastCall] as it
    was. *)
Definition throttled_call (now : Z) (args : A) (st : throttled)
    : option E * throttled :=
  if decide (limit <= now - lastCall st) then
    match fn args with
    | Fulfilled _ =>
        (None, Throttled now (executed st ++ [(now, args)]))
    | Rejected e =>
        (Some e, Throttled (lastCall st) (executed st ++ [(now, args)]))
    end
  else (None, st).

Definition throttled_calls (calls : list (Z * A)) (st : throttled)
    : throttled :=
  foldl (fun st call => (throttled_call call.1 call.2 st).2) st calls.

(** The time of the last execution of a log that returned, 0 if none
    did. *)
Definition last_return (log : list (Z * A)) : Z :=
  foldl (fun t call =>
           match fn call.2 with Fulfilled _ => call.1 | Rejected _ => t end)
        0 log.

(** What holds of the closure after any calls: [lastCall] is the time of
    the last execution that returned, and every execution came [limit]
    after the one before it that returned. *)
Definition spaced (st : throttled) : Prop :=
  lastCall st = last_return (executed st) /\
  forall log t a log', executed st = log ++ (t, a) :: log' ->
    limit <= t - last_return log.

End throttle.

Section debounce.
Context {A R E : Type}.
Variable fn : A -> outcome R E.
Variable delay : Z.
Variable immediate : bool.

(** [timer] is set when the variable holds the identifier of a timer;
    [pending] is the callback that [setTimeout] has scheduled and
    [clearTimeout] has not cancelled: when it is due and the arguments it
    has captured. *)
Record debounced : Type := Debounced {
  timer : bool;
  pending : option (Z * A);
  ran : list (Z * A);
}.

(** [debounce(fn, delay, immediate)] *)
Definition debounce : debounced := Debounced false None [].

Inductive event : Type :=
| Call (now : Z) (args : A)
| Timeout (now : Z).

(** A timer with a negative delay is due at once. *)
Definition due (now : Z) : Z := now + Z.max delay 0.

(** A call of the debounced function, or the callback of the timer.
    [None]: no callback is scheduled, or it is not due yet.  When [fn]
    throws, the rest of the function it was called from is skipped. *)
Definition step (ev : event) (st : debounced) : option debounced :=
  match ev with
  | Call now args =>
      if immediate && negb (timer st) then
        match fn args with
        | Fulfilled _ =>
            Some (Debounced true (Some (due now, args))
                    (ran st ++ [(now, args)]))
        | Rejected _ =>
            Some (Debounced (timer st) (pending st)
                    (ran st ++ [(now, args)]))
        end
      else Some (Debounced true (Some (due now, args)) (ran st))
  | Timeout now =>
      match pending st with
      | Some (at_, args) =>
          if decide (at_ <= now) then
            if immediate then Some (Debounced false None (ran st))
            else
              match fn args with
              | Fulfilled _ =>
                  Some (Debounced false None (ran st ++ [(now, args)]))
              | Rejected _ =>
                  Some (Debounced (timer st) None
                          (ran st ++ [(now, args)]))
              end
          else None
      | None => None
      end
  end.

Fixpoint exec (evs : list event) (st : debounced) : option debounced :=
  match evs with
  | [] => Some st
  | ev :: evs' =>
      match step ev st with
      | Some st' => exec evs' st'
      | None => None
      end
  end.

Definition calls (cs : list (Z * A)) : list event :=
  (fun c => Call c.1 c.2) <$> cs.

End debounce.

Section memoize.
Context {A R E W : Type}.
(** [JSON.stringify(args)]: the key, or the error it throws. *)
Variable stringify : A -> outcome string E.
(** [fn(...args)] in a world it may read and change. *)
Variable fn : A -> W -> outcome R E * W.

Record memoized : Type := Memoized {
  cache : gmap string R;
  world : W;
  executions : list (string * A);
}.

(** [memoize(fn)] *)
Definition memoize (w : W) : memoized := Memoized ∅ w [].

(** A call of the memoized function. *)
Definition memoized_call (args : A) (st : memoized)
    : outcome R E * memoized :=
  match stringify args with
  | Rejected e => (Rejected e, st)
  | Fulfilled key =>
      match cache st !! key with
      | Some result => (Fulfilled result, st)
      | None =>
          let log := executions st ++ [(key, args)] in
          match fn args (world st) with
          | (Fulfilled result, w) =>
              (Fulfilled result,
               Memoized (<[key := result]> (cache st)) w log)
          | (Rejected e, w) => (Rejected e, Memoized (cache st) w log)
          end
      end
  end.

Definition memoized_calls (calls : list A) (st : memoized) : memoized :=
  foldl (fun st args => (memoized_call args st).2) st calls.

End memoize.

End Functions.


(** * Strings: [uuid], [randomString] *)
Module Strings.
Section strings.
(** [Math.random()], call after call.  The product by 16 of [uuid] is
    exact, and the number is taken as a rational. *)
Variable random : nat -> Q.

(** A number without its fraction, as the operators on bits take it. *)
Definition truncate (q : Q) : Z :=
  if Qlt_le_dec q 0 then Qceiling q else Qfloor q.

(** [(Math.random() * 16) | 0] at call [k]. *)
Definition random_nibble (k : nat) : Z :=
  Numbers.to_int32 (truncate (random k * 16)).

(** The callback of [replace] in [uuid], on the match [c]. *)
Definition uuid_digit (c : ascii) (k : nat) : string :=
  let r := random_nibble k in
  let v := if Ascii.eqb c "x"%char then r else Z.lor (Z.land r 3) 8 in
  Numbers.to_hex v.

(** [template.replace(/[xy]/g, c => ...)]: the matches from left to
    right, one call of [Math.random] for each. *)
Fixpoint replace_xy (template : string) (k : nat) : string :=
  match template with
  | EmptyString => EmptyString
  | String c rest =>
      if Ascii.eqb c "x"%char || Ascii.eqb c "y"%char then
        String.append (uuid_digit c k) (replace_xy rest (S k))
      else String c (replace_xy rest k)
  end.

Definition uuid : string :=
  replace_xy "xxxxxxxx-xxxx-4xxx-yxxx-xxxxxxxxxxxx" 0.

End strings.

Section random_string.
(** [Math.random()], call after call. *)
Variable random : nat -> Double.double.




End random_string.

(** What a character of the template of [uuid] may become. *)
Definition uuid_shape (c d : ascii) : Prop :=
  if Ascii.eqb c "x"%char then d ∈ String.list_ascii_of_string "0123456789abcdef"
  else if Ascii.eqb c "y"%char then d ∈ String.list_ascii_of_string "89ab"
  else d = c.

End Strings.


(** * The values of JavaScript, as far as a test [if (x)] or [x || y]
  tells them apart *)
Module JS.

Inductive value : Type :=
| Undefined
| Null
| Bool (b : bool)
| Number (n : Z)
| NaN
| Str (s : string)
| Object (ref : nat)
| Function (ref : nat).

#[global] Instance value_eq_dec : EqDecision value.
Proof. solve_decision. Defined.

Definition truthy (v : value) : bool :=
  match v with
  | Undefined | Null | NaN => false
  | Bool b => b
  | Number n => negb (n =? 0)
  | Str s => negb (String.eqb s EmptyString)
  | Object _ | Function _ => true
  end.

(** [a || b] *)
Definition or (a b : value) : value := if truthy a then a else b.

End JS.

(** * The event bus [events] and the plugin registry [plugins]

  A listener is a function, known by what it is, not by what it does:
  [Fn f] is a function of the caller, [Wrapper w f] the closure the
  [w]-th call of [once] made around [f].  The functions of the caller
  return or throw and leave the bus alone. *)
Module Events.

Inductive listener : Type :=
| Fn (f : nat)
| Wrapper (w f : nat).

#[global] Instance listener_eq_dec : EqDecision listener.
Proof. solve_decision. Defined.

(** The function of the caller a listener calls. *)
Definition target (l : listener) : nat :=
  match l with Fn f | Wrapper _ f => f end.

(** [set.add(l)] and [set.delete(l)] on a [Set], which keeps the order
    of insertion. *)
Definition set_add (l : listener) (s : list listener) : list listener :=
  if decide (l ∈ s) then s else s ++ [l].

Definition set_delete (l : listener) (s : list listener) : list listener :=
  filter (fun l' => l' <> l) s.

Section events.
Context {A : Type}.
(** Whether [f(...args)] returns; it throws otherwise. *)
Variable returns : nat -> A -> bool.

(** [called] is the log of the calls of the caller's functions,
    [errors] that of [console.error], [wrappers] the number of closures
    [once] has made. *)
Record bus : Type := Bus {
  _listeners : gmap string (list listener);
  wrappers : nat;
  called : list (nat * A);
  errors : list string;
}.

Definition empty : bus := Bus ∅ 0 [] [].

Definition listeners (event : string) (b : bus) : list listener :=
  default [] (_listeners b !! event).

Definition subscribe (event : string) (l : listener) (b : bus) : bus :=
  Bus (<[event := set_add l (listeners event b)]> (_listeners b))
      (wrappers b) (called b) (errors b).

Definition unsubscribe (event : string) (l : listener) (b : bus) : bus :=
  match _listeners b !! event with
  | Some s =>
      Bus (<[event := set_delete l s]> (_listeners b))
          (wrappers b) (called b) (errors b)
  | None => b
  end.

(** [on(event, listener)] and [off(event, listener)] *)
Definition on (event : string) (f : nat) (b : bus) : bus :=
  subscribe event (Fn f) b.

Definition off (event : string) (f : nat) (b : bus) : bus :=
  unsubscribe event (Fn f) b.

Definition log_call (f : nat) (args : A) (b : bus) : bus :=
  Bus (_listeners b) (wrappers b) (called b ++ [(f, args)]) (errors b).

Definition log_error (event : string) (b : bus) : bus :=
  Bus (_listeners b) (wrappers b) (called b) (errors b ++ [event]).

(** One turn of the [forEach] of [emit]: the listener in its [try]. *)
Definition notify (event : string) (args : A) (b : bus) (l : listener)
    : bus :=
  match l with
  | Fn f =>
      if returns f args then log_call f args b
      else log_error event (log_call f args b)
  | Wrapper w f =>
      if returns f args then
        unsubscribe event (Wrapper w f) (log_call f args b)
      else log_error event (log_call f args b)
  end.

(** The listeners [emit] leaves in the set: all but the wrappers of
    [once] whose function has returned. *)
Definition stays (args : A) (l : listener) : bool :=
  match l with
  | Fn _ => true
  | Wrapper _ f => negb (returns f args)
  end.

(** [emit(event, ...args)].  A listener takes no other listener out of
    the set, so the [forEach] visits the listeners that are there when it
    starts. *)
Definition emit (event : string) (args : A) (b : bus) : bus :=
  match _listeners b !! event with
  | Some s => foldl (notify event args) b s
  | None => b
  end.

(** [once(event, listener)] *)
Definition once (event : string) (f : nat) (b : bus) : bus :=
  subscribe event (Wrapper (wrappers b) f)
    (Bus (_listeners b) (S (wrappers b)) (called b) (errors b)).

End events.
End Events.

(** The registry of plugins.  The [init] of a plugin returns or throws,
    and leaves the registry and the bus alone, as the listeners do. *)
Module Plugins.
Import JS Events.

(** [map.set(key, v)] and [map.get(key)] on a [Map], which keeps the keys
    in the order they were first set in. *)
Fixpoint map_set (key : string) (v : value) (m : list (string * value))
    : list (string * value) :=
  match m with
  | [] => [(key, v)]
  | (k, v') :: m' =>
      if decide (k = key) then (key, v) :: m' else (k, v') :: map_set key v m'
  end.

Fixpoint map_get (key : string) (m : list (string * value)) : option value :=
  match m with
  | [] => None
  | (k, v) :: m' => if decide (k = key) then Some v else map_get key m'
  end.

(** The values a property cannot be read from: [plugin.init] throws. *)
Definition nullish (v : value) : bool :=
  match v with Undefined | Null => true | _ => false end.

Section plugins.
Variable returns : nat -> list value -> bool.
(** [typeof plugin.init === 'function'], and whether [plugin.init()]
    returns; it throws otherwise. *)
Variable has_init : value -> bool.
Variable init_returns : value -> bool.

(** [inits] is the log of the plugins whose [init] was called,
    [init_errors] that of [console.error]. *)
Record system : Type := System {
  events : @bus (list value);
  _registry : list (string * value);
  inits : list string;
  init_errors : list string;
}.

(** [plugins.register(name, plugin)] *)
Definition register (name : string) (plugin : value) (st : system)
    : system :=
  System (emit returns "plugin:registered" [Str name; plugin] (events st))
         (map_set name plugin (_registry st)) (inits st) (init_errors st).

(** [plugins.get(name)] *)
Definition get (name : string) (st : system) : value :=
  or (default Undefined (map_get name (_registry st))) Null.

(** One turn of the [forEach] of [initAll]. *)
Definition init1 (name : string) (plugin : value) (st : system) : system :=
  if has_init plugin then
    if init_returns plugin then
      System (emit returns "plugin:initialized" [Str name] (events st))
             (_registry st) (inits st ++ [name]) (init_errors st)
    else
      System (events st) (_registry st) (inits st ++ [name])
             (init_errors st ++ [name])
  else st.

(** The [forEach] of [initAll] over the entries that are left; [true]
    when reading [plugin.init] throws, which ends the loop. *)
Fixpoint init_each (entries : list (string * value)) (st : system)
    : bool * system :=
  match entries with
  | [] => (false, st)
  | (name, plugin) :: entries' =>
      if nullish plugin then (true, st)
      else init_each entries' (init1 name plugin st)
  end.

(** [plugins.initAll()] *)
Definition initAll (st : system) : bool * system :=
  init_each (_registry st) st.

(** The plugins [initAll] comes to: those before the first one that is
    [null] or [undefined]. *)
Fixpoint reached (entries : list (string * value))
    : list (string * value) :=
  match entries with
  | [] => []
  | (name, plugin) :: entries' =>
      if nullish plugin then [] else (name, plugin) :: reached entries'
  end.

End plugins.
End Plugins.

(** * [extend] *)
Module Extend.
Import JS.

(** The library object: its own members and those it inherits from
    [Object.prototype]; [warnings] is the log of [console.warn]. *)
Record library : Type := Library {
  own : gmap string value;
  inherited : gmap string value;
  warnings : list string;
}.

(** [this[key]] *)
Definition member (key : string) (this : library) : value :=
  match own this !! key with
  | Some v => v
  | None => default Undefined (inherited this !! key)
  end.

(** One turn of the loop of [extend]. *)
Definition extend1 (this : library) (entry : string * value) : library :=
  if truthy (member entry.1 this) then
    Library (own this) (inherited this) (warnings this ++ [entry.1])
  else
    Library (<[entry.1 := entry.2]> (own this)) (inherited this)
            (warnings this).

(** [extend(extension)], on [Object.entries(extension)]. *)
Definition extend (extension : list (string * value)) (this : library)
    : library :=
  foldl extend1 this extension.

End Extend.


(** * [setLocal] and [getLocal]

  [localStorage] is a map from keys to texts.  What [JSON.stringify] writes and
  [JSON.parse] reads is left open: the functions below take them as they
  come, with the texts they work on. *)
Module Storage.

(** What [JSON.parse] returns. *)
Inductive json : Type :=
| JNull
| JBool (b : bool)
| JNum (n : Z)
| JStr (s : string)
| JArr (items : list json)
| JObj (fields : list (string * json)).

(** [parsed.key]: [None] when reading the property throws, as it does
    on [null]; [Some None] when there is no such property and the result
    is [undefined]. *)
Definition field (key : string) (parsed : json) : option (option json) :=
  match parsed with
  | JNull => None
  | JObj fields =>
      Some (snd <$> find (fun kv => String.eqb kv.1 key) fields)
  | _ => Some None
  end.

Definition json_truthy (v : json) : bool :=
  match v with
  | JNull => false
  | JBool b => b
  | JNum n => negb (n =? 0)
  | JStr s => negb (String.eqb s EmptyString)
  | JArr _ | JObj _ => true
  end.

Section storage.
Context {T : Type}.
Variable stringify : json -> T.
(** [None]: the text is no JSON and [JSON.parse] throws. *)
Variable parse : T -> option json.
(** The empty text, the one that counts as false. *)
Variable blank : T -> bool.
(** The number a value that is not a number is compared as, [None] for
    [NaN]. *)
Variable to_number : json -> option Z.

(** [Date.now() > expires] *)
Definition later (now : Z) (expires : json) : bool :=
  match expires with
  | JNum n => n <? now
  | _ =>
      match to_number expires with
      | Some n => n <? now
      | None => false
      end
  end.

(** [setLocal(key, value, ttl)] with [Date.now()] at [now]. *)
Definition setLocal (key : string) (value : json) (ttl now : Z)
    (st : gmap string T) : gmap string T :=
  let data :=
    JObj [("value"%string, value);
          ("expires"%string,
           JNum (if decide (ttl = 0) then 0 else now + ttl * 1000))] in
  <[key := stringify data]> st.

(** [getLocal(key)] with [Date.now()] at [now]: what it returns, [None]
    for [undefined], and the storage it leaves. *)
Definition getLocal (key : string) (now : Z) (st : gmap string T)
    : option json * gmap string T :=
  match st !! key with
  | None => (Some JNull, st)
  | Some data =>
      if blank data then (Some JNull, st)
      else
        match parse data with
        | None => (Some JNull, st)
        | Some parsed =>
            match field "expires" parsed, field "value" parsed with
            | Some expires, Some value =>
                if match expires with
                   | Some e => json_truthy e && later now e
                   | None => false
                   end
                then (Some JNull, delete key st)
                else (value, st)
            | _, _ => (Some JNull, st)
            end
        end
  end.

End storage.
End Storage.


(** * Validation: [isEmail]

  The regular expression of [isEmail] has classes of characters,
  sequences and [+] only, and is anchored at both ends: [test] tells
  whether the whole string is in its language.  It is run here on the
  code units of the string by derivatives. *)
Module Validation.

Inductive regex : Type :=
| Empty
| Eps
| Class (p : Z -> bool)
| Cat (r1 r2 : regex)
| Alt (r1 r2 : regex)
| Star (r : regex).

(** [r+] *)
Definition Plus (r : regex) : regex := Cat r (Star r).

(** One character. *)
Definition Char (c : Z) : regex := Class (Z.eqb c).

(** The strings of a regular expression. *)
Inductive matches : regex -> list Z -> Prop :=
| matches_eps : matches Eps []
| matches_class p c : p c = true -> matches (Class p) [c]
| matches_cat r1 r2 s1 s2 :
    matches r1 s1 -> matches r2 s2 -> matches (Cat r1 r2) (s1 ++ s2)
| matches_alt_l r1 r2 s : matches r1 s -> matches (Alt r1 r2) s
| matches_alt_r r1 r2 s : matches r2 s -> matches (Alt r1 r2) s
| matches_star_nil r : matches (Star r) []
| matches_star_cons r s1 s2 :
    matches r s1 -> matches (Star r) s2 -> matches (Star r) (s1 ++ s2).

Fixpoint nullable (r : regex) : bool :=
  match r with
  | Empty => false
  | Eps => true
  | Class _ => false
  | Cat r1 r2 => nullable r1 && nullable r2
  | Alt r1 r2 => nullable r1 || nullable r2
  | Star _ => true
  end.

(** What is left of [r] after the character [c]. *)
Fixpoint derive (c : Z) (r : regex) : regex :=
  match r with
  | Empty | Eps => Empty
  | Class p => if p c then Eps else Empty
  | Cat r1 r2 =>
      if nullable r1 then Alt (Cat (derive c r1) r2) (derive c r2)
      else Cat (derive c r1) r2
  | Alt r1 r2 => Alt (derive c r1) (derive c r2)
  | Star r1 => Cat (derive c r1) (Star r1)
  end.

(** [/^r$/.test(str)] *)
Fixpoint test (r : regex) (str : list Z) : bool :=
  match str with
  | [] => nullable r
  | c :: str' => test (derive c r) str'
  end.

(** The class [\s]: the white space and the line ends of Unicode. *)
Definition is_space (c : Z) : bool :=
  ((9 <=? c) && (c <=? 13)) || (c =? 32) || (c =? 160) || (c =? 5760) ||
  ((8192 <=? c) && (c <=? 8202)) || (c =? 8232) || (c =? 8233) ||
  (c =? 8239) || (c =? 8287) || (c =? 12288) || (c =? 65279).

(** The class [[^\s@]] *)
Definition plain (c : Z) : bool := negb (is_space c || (c =? 64)).

(** [/^[^\s@]+@[^\s@]+\.[^\s@]+$/] *)
Definition email_regex : regex :=
  Cat (Plus (Class plain))
    (Cat (Char 64)
       (Cat (Plus (Class plain))
          (Cat (Char 46) (Plus (Class plain))))).

Definition isEmail (email : list Z) : bool := test email_regex email.

End Validation.


(** * Dates: [formatDate]

    A date is what its methods return, in local time. *)
Module Dates.

Record date : Type := Date {
  getFullYear : Z;
  getMonth : Z;
  getDate : Z;
  getHours : Z;
  getMinutes : Z;
  getSeconds : Z;
}.

(** [String(n)] *)
Definition to_string (n : Z) : string :=
  DecimalString.NilZero.string_of_int (Z.to_int n).

(** [s.padStart(2, '0')] *)
Definition padStart2 (s : string) : string :=
  match String.length s with
  | 0%nat => String "0" (String "0" EmptyString)
  | 1%nat => String "0" s
  | _ => s
  end.

(** The object [map], as the alternatives of the regular expression come:
    [YYYY|MM|DD|HH|mm|ss]. *)
Definition tokens (d : date) : list (string * string) :=
  [("YYYY"%string, to_string (getFullYear d));
   ("MM"%string, padStart2 (to_string (getMonth d + 1)));
   ("DD"%string, padStart2 (to_string (getDate d)));
   ("HH"%string, padStart2 (to_string (getHours d)));
   ("mm"%string, padStart2 (to_string (getMinutes d)));
   ("ss"%string, padStart2 (to_string (getSeconds d)))].

(** The first alternative that matches at the head of [s]. *)
Definition match_token (toks : list (string * string)) (s : string)
    : option (string * string) :=
  find (fun t => String.prefix t.1 s) toks.

(** [s.replace(/.../g, match => map[match])]: from left to right, a match
    is replaced and the search goes on behind it; [skip] counts the
    characters of the match that are still to pass. *)
Fixpoint replace_all (toks : list (string * string)) (skip : nat)
    (s : string) : string :=
  match s with
  | EmptyString => EmptyString
  | String c rest =>
      match skip with
      | S k => replace_all toks k rest
      | O =>
          match match_token toks s with
          | Some (tok, text) =>
              String.append text
                (replace_all toks (String.length tok - 1) rest)
          | None => String c (replace_all toks 0 rest)
          end
      end
  end.

Definition formatDate (d : date) (format : string) : string :=
  replace_all (tokens d) 0 format.

(** The two decimal digits of a number below 100. *)
Definition digit (n : Z) : ascii := ascii_of_nat (48 + Z.to_nat n).

Definition two_digits (n : Z) : string :=
  String (digit (n / 10)) (String (digit (n mod 10)) EmptyString).

(** The letters a token starts with. *)
Definition token_letter (c : ascii) : bool :=
  existsb (Ascii.eqb c) ["Y"; "M"; "D"; "H"; "m"; "s"]%char.

End Dates.

(** * Properties of retry *)

Module RetrySpec.
Import Retry.
Section retry_spec.
Context {V E St : Type}.
Variable fn : St -> outcome V E * St.

(** One unfolding of the body of [retry]. *)
Lemma retry_unfold retries delay (w : world) :
  retry fn retries delay w =
  match invoke fn w with
  | (Fulfilled v, w1) => (Fulfilled v, w1)
  | (Rejected error, w1) =>
      if decide (retries <= 0) then (Rejected error, w1)
      else retry fn (retries - 1) (times2 delay) (sleep delay w1)
  end.
Proof.
  simp retry. destruct (invoke fn w) as [[v|e] w1]; simpl; [done|].
  destruct (Z_le_gt_dec retries 0); simpl; case_decide; done || lia.
Qed.

Lemma invoke_eq (w : world) :
  invoke fn w =
  (attempt fn 0 (op_state w),
   World (snd (fn (op_state w))) (S (calls w)) (waits w)).
Proof.
  unfold invoke, attempt. simpl. by destruct (fn (op_state w)).
Qed.





Lemma geometric_S k : geometric (S k) = geometric k + 2 ^ Z.of_nat k.
Proof.
  unfold geometric. rewrite seq_S, map_app. simpl.
  generalize (map (fun j => 2 ^ Z.of_nat j) (seq 0 k)) as l.
  induction l as [|x l IH]; simpl; lia.
Qed.



Lemma geometric_closed k : geometric k = 2 ^ Z.of_nat k - 1.
Proof.
  induction k as [|k IH]; [done|].
  rewrite geometric_S, IH, Nat2Z.inj_succ, Z.pow_succ_r by lia. lia.
Qed.









(** C7: when the operation succeeds on its first invocation, [retry]
    resolves with that value after exactly one invocation, and
    [setTimeout] is never called. *)
Theorem retry_first_attempt (retries : Z) (d : number) (s : St) (v : V) :
  attempt fn 0 s = Fulfilled v ->
  retry fn retries d (fresh s) = (Fulfilled v, World (snd (fn s)) 1 []).
Proof.
  intros Hok. rewrite retry_unfold, invoke_eq.
  cbn [fresh op_state calls waits]. by rewrite Hok.
Qed.

(** Without a budget the first attempt is the last. *)
Lemma retry_exhausted (retries : Z) (d : number) (s : St) :
  retries <= 0 ->
  retry fn retries d (fresh s) = (fst (fn s), World (snd (fn s)) 1 []).
Proof.
  intros Hle. rewrite retry_unfold, invoke_eq.
  cbn [fresh op_state calls waits].
  unfold attempt. simpl. destruct (fn s) as [[v|e] s']; [done|].
  simpl. case_decide; [done|lia].
Qed.

(** C8: with [retries = 0] there is exactly one attempt and no wait: the
    result of [retry] is the outcome of that attempt, value or error. *)
Theorem retry_zero_budget (d : number) (s : St) :
  retry fn 0 d (fresh s) = (fst (fn s), World (snd (fn s)) 1 []).
Proof.
  rewrite retry_unfold, invoke_eq. cbn [fresh op_state calls waits].
  unfold attempt. simpl. by destruct (fn s) as [[v|e] s'].
Qed.

(** C10: a negative [retries] behaves as [retries = 0]: one invocation,
    and a failure is thrown at once, with no wait and no second
    attempt. *)
Theorem retry_negative_budget (retries : Z) (d : number) (s : St) :
  retries < 0 ->
  retry fn retries d (fresh s) = retry fn 0 d (fresh s) /\
  retry fn retries d (fresh s) = (fst (fn s), World (snd (fn s)) 1 []).
Proof.
  intros Hneg.
  rewrite (retry_exhausted retries) by lia.
  by rewrite (retry_exhausted 0) by lia.
Qed.

End retry_spec.






Lemma retry_first_attempt_witness :
  retry (flaky 0) 3 (Finite 1000) (fresh 0%nat)
    = (Fulfilled 42, World 1%nat 1 []).
Proof.
  apply (retry_first_attempt (flaky 0) 3 (Finite 1000) 0%nat 42). reflexivity.
Defined.

Lemma retry_negative_budget_witness :
  retry broken (-2) (Finite 1000) (fresh 0%nat)
    = retry broken 0 (Finite 1000) (fresh 0%nat) /\
  retry broken (-2) (Finite 1000) (fresh 0%nat)
    = (Rejected 0%nat, World 1%nat 1 []).
Proof.
  apply (retry_negative_budget broken (-2) (Finite 1000) 0%nat). lia.
Defined.

End RetrySpec.


(** * Properties of parallel *)

Module ParallelSpec.
Import Parallel.

#[local] Arguments notified {V E} r l st : simpl never.

Section basics.
Context {V E : Type}.
Implicit Types (st : @state V E) (tasks rest : list (@task V E)).
Implicit Types (concurrency : Z) (ev : event) (evs : list event).

Lemma exec_app tasks concurrency evs1 evs2 st :
  exec tasks concurrency (evs1 ++ evs2) st =
  exec tasks concurrency evs1 st ≫= exec tasks concurrency evs2.
Proof.
  revert st. induction evs1 as [|ev evs1 IH]; intros st; simpl; [done|].
  destruct (step tasks concurrency ev st); simpl; [apply IH|done].
Qed.

Lemma reachable_exec tasks concurrency evs st st' :
  reachable tasks concurrency st ->
  exec tasks concurrency evs st = Some st' ->
  reachable tasks concurrency st'.
Proof.
  revert st. induction evs as [|ev evs IH]; intros st Hst Hexec; simpl in *.
  - by injection Hexec as <-.
  - destruct (step tasks concurrency ev st) as [st1|] eqn:Hstep; [|done].
    eapply IH; [|done]. by eapply reachable_step.
Qed.

Lemma reachable_inv_exec tasks concurrency st :
  reachable tasks concurrency st ->
  exists evs, exec tasks concurrency evs (init tasks concurrency) = Some st.
Proof.
  induction 1 as [|ev st st' _ [evs IH] Hstep].
  - by exists [].
  - exists (evs ++ [ev]). rewrite exec_app, IH. simpl. by rewrite Hstep.
Qed.

(** A quiescent state is final. *)
Lemma quiescent_final tasks concurrency st ev :
  quiescent st -> step tasks concurrency ev st = None.
Proof.
  intros [Hq Ha]. destruct ev as [|i]; simpl.
  - by rewrite Hq.
  - rewrite Ha. case_decide as Hin; [|done]. by apply elem_of_nil in Hin.
Qed.

Lemma length_executing_spawn st :
  length (executing (spawn st)) = S (length (executing st)).
Proof. unfold spawn. simpl. rewrite length_app. simpl. lia. Qed.

(** Below 1 the limit makes no difference: the test
    [executing.size >= concurrency] comes after [executing.add]. *)
Lemma loop_nonpositive concurrency rest st :
  concurrency <= 0 -> loop concurrency rest st = loop 1 rest st.
Proof.
  intros Hc. revert st. induction rest as [|t rest IH]; intros st; [done|].
  cbn [loop]. rewrite length_executing_spawn.
  case_decide; [|lia]. case_decide; [done|lia].
Qed.

Lemma step_nonpositive tasks concurrency ev st :
  concurrency <= 0 -> step tasks concurrency ev st = step tasks 1 ev st.
Proof.
  intros Hc. destruct ev as [|i]; simpl; [|done].
  destruct (queue st) as [|j q]; [done|]. f_equal.
  destruct j as [| | | |r [v|e]|]; simpl; try done.
  unfold resume. by apply loop_nonpositive.
Qed.

End basics.


(** ** The life of the promises: [wf] is an invariant *)

Section wf.
Context {V E : Type}.
Variable tasks : list (@task V E).
Variable concurrency : Z.
Implicit Types (st : @state V E) (q : list (@job V E)) (j : @job V E).
Local Open Scope nat_scope.

Lemma elem_of_invokes q i : i ∈ invokes q <-> JInvoke i ∈ q.
Proof.
  unfold invokes. rewrite list_elem_of_omap. split.
  - intros (j & Hj & Heq). destruct j; try done. by injection Heq as <-.
  - intros Hj. by exists (JInvoke i).
Qed.

Lemma invokes_app q1 q2 : invokes (q1 ++ q2) = invokes q1 ++ invokes q2.
Proof. apply omap_app. Qed.

Lemma invokes_passive j : passive j -> invokes [j] = [].
Proof. by destruct j. Qed.

Lemma wf_dequeue st j q :
  wf tasks st -> queue st = j :: q -> passive j -> wf tasks (set_queue q st).
Proof.
  intros [] Hq Hj. rewrite Hq in *. constructor; simpl; try done.
  - intros i Hi. destruct (wf_active0 i Hi) as (? & ? & ? & ?).
    set_solver.
  - change (j :: q) with ([j] ++ q) in wf_invokes0.
    by rewrite invokes_app, invokes_passive in wf_invokes0.
  - set_solver.
  - set_solver.
  - set_solver.
  - set_solver.
  - intros i rs Hi. destruct (wf_pending0 i rs Hi) as (? & ? & Hw).
    split; [done|split; [done|]].
    destruct Hw as [Hw|[Hw|[o Hw]]].
    + left. apply elem_of_cons in Hw as [<-|Hw]; [by destruct Hj|done].
    + by right; left.
    + right; right. exists o.
      apply elem_of_cons in Hw as [<-|Hw]; [by destruct Hj|done].
  - set_solver.
  - intros i Hi. destruct (wf_started0 i Hi) as [Hw|Hw]; [|by right].
    left. apply elem_of_cons in Hw as [<-|Hw]; [by destruct Hj|done].
Qed.


(** [wf] reads five fields only. *)
Lemma wf_ext st st' :
  results st' = results st -> executing st' = executing st ->
  active st' = active st -> queue st' = queue st ->
  invoked st' = invoked st ->
  wf tasks st -> wf tasks st'.
Proof.
  intros Hr He Ha Hq Hi []. constructor; unfold pending in *.
  all: rewrite ?Hr, ?He, ?Ha, ?Hq, ?Hi; done.
Qed.

Lemma wf_enqueue st j :
  admissible st j -> wf tasks st -> wf tasks (enqueue [j] st).
Proof.
  intros Hj []. constructor; unfold pending in *; simpl; try done.
  - intros i Hi. destruct (wf_active0 i Hi) as (? & ? & ? & ?).
    set_unfold. destruct j; naive_solver.
  - rewrite invokes_app. destruct j; try done; simpl; by rewrite app_nil_r.
  - intros i Hi. set_unfold. destruct j; naive_solver.
  - intros i o Hi. set_unfold. destruct j; naive_solver.
  - intros i r o Hi. set_unfold. destruct j; naive_solver.
  - intros i Hi. set_unfold. destruct j; naive_solver.
  - intros i rs Hi. destruct (wf_pending0 i rs Hi) as (? & ? & Hw).
    set_unfold. naive_solver.
  - intros i Hi. set_unfold. destruct j; naive_solver.
  - intros i Hi. set_unfold. naive_solver.
Qed.

Lemma wf_subscribe st i r : wf tasks st -> wf tasks (subscribe i r st).
Proof.
  intros Hwf. unfold subscribe.
  destruct (results st !! i) as [[rs|o]|] eqn:Hi; [|by apply wf_enqueue|done].
  destruct Hwf. constructor; unfold pending in *; simpl; try done.
  all: rewrite ?length_insert; try done.
  - intros i' Hi'. destruct (wf_active0 i' Hi') as ([rs' ?] & ? & ? & ?).
    split; [|done]. destruct (decide (i = i')) as [->|].
    + eexists. apply list_lookup_insert_eq. by eapply lookup_lt_Some.
    + exists rs'. by rewrite list_lookup_insert_ne.
  - intros i' Hi'. destruct (wf_invoke0 i' Hi') as ([rs' ?] & ?).
    split; [|done]. destruct (decide (i = i')) as [->|].
    + eexists. apply list_lookup_insert_eq. by eapply lookup_lt_Some.
    + exists rs'. by rewrite list_lookup_insert_ne.
  - intros i' r' o' Hi'. rewrite list_lookup_insert_ne; [by eapply wf_react0|].
    intros ->. apply wf_react0 in Hi'. congruence.
  - intros i' Hi'. destruct (wf_catch0 i' Hi') as [e He]. exists e.
    rewrite list_lookup_insert_ne; [done|]. intros ->. congruence.
  - intros i' rs' [(<- & Heq & _)|[? Hi']]%list_lookup_insert_Some;
      [|by apply wf_pending0].
    injection Heq as <-.
    destruct (wf_pending0 i rs Hi) as (? & [rs0 ->] & ?).
    split; [done|]. split; [by exists (rs0 ++ [r])|done].
  - intros i' o [(<- & ? & _)|[? Hi']]%list_lookup_insert_Some; [done|].
    by apply wf_settled0.
Qed.

Lemma wf_subscribe_all r l st :
  wf tasks st -> wf tasks (subscribe_all r l st).
Proof.
  unfold subscribe_all. revert st.
  induction l as [|i l IH]; intros st Hwf; simpl; [done|].
  by apply IH, wf_subscribe.
Qed.

Lemma wf_race st : wf tasks st -> wf tasks (race st).
Proof.
  intros Hwf. unfold race. apply wf_subscribe_all.
  revert Hwf. by apply wf_ext.
Qed.

Lemma wf_finish st : wf tasks st -> wf tasks (finish st).
Proof.
  intros Hwf. unfold finish. destruct (length (results st)).
  - apply wf_enqueue; [done|]. revert Hwf. by apply wf_ext.
  - apply wf_subscribe_all. revert Hwf. by apply wf_ext.
Qed.

Lemma wf_spawn st :
  length (results st) < length tasks -> wf tasks st -> wf tasks (spawn st).
Proof.
  intros Hlt []. constructor; unfold pending in *; simpl.
  all: rewrite ?length_app; simpl.
  - lia.
  - apply NoDup_app. split; [done|]. split; [|apply NoDup_singleton].
    intros i Hi ->%list_elem_of_singleton. apply wf_executing_lt0 in Hi. lia.
  - intros i [Hi| ->%list_elem_of_singleton]%elem_of_app; [|lia].
    apply wf_executing_lt0 in Hi. lia.
  - done.
  - intros i Hi. destruct (wf_active0 i Hi) as ([rs Hrs] & ? & ? & ?).
    pose proof (lookup_lt_Some _ _ _ Hrs).
    split; [exists rs; by apply lookup_app_l_Some|].
    set_unfold. naive_solver lia.
  - rewrite invokes_app. simpl. apply NoDup_app.
    split; [done|]. split; [|apply NoDup_singleton].
    intros i Hi ->%list_elem_of_singleton.
    apply elem_of_invokes, wf_invoke0 in Hi as [[rs Hrs] _].
    apply lookup_lt_Some in Hrs. lia.
  - intros i [Hi| Hi%list_elem_of_singleton]%elem_of_app.
    + destruct (wf_invoke0 i Hi) as ([rs Hrs] & ?).
      split; [exists rs; by apply lookup_app_l_Some|].
      set_unfold. naive_solver.
    + injection Hi as ->. split.
      * exists [RCleanup]. by rewrite lookup_app_r, Nat.sub_diag.
      * intros o [Ho| ?%list_elem_of_singleton]%elem_of_app; [|done].
        apply wf_jsettle0 in Ho. lia.
  - intros i o [Hi| ?%list_elem_of_singleton]%elem_of_app; [|done].
    apply wf_jsettle0 in Hi as [? ?]. split; [lia|done].
  - intros i r o [Hi| ?%list_elem_of_singleton]%elem_of_app; [|done].
    apply lookup_app_l_Some. by eapply wf_react0.
  - intros i [Hi| ?%list_elem_of_singleton]%elem_of_app; [|done].
    destruct (wf_catch0 i Hi) as [e He]. exists e. by apply lookup_app_l_Some.
  - intros i rs [[_ Hi]|[-> Heq]]%lookup_snoc_Some.
    + destruct (wf_pending0 i rs Hi) as (? & ? & ?).
      set_unfold. naive_solver.
    + injection Heq as <-. set_unfold. naive_solver.
  - intros i o [[_ Hi]|[-> Heq]]%lookup_snoc_Some; [|done].
    by apply wf_settled0.
  - done.
  - intros i Hi. apply wf_invoked0 in Hi. set_unfold. naive_solver lia.
  - intros i Hi. destruct (decide (i = length (results st))) as [->|].
    + left. set_solver.
    + destruct (wf_started0 i) as [?|?]; [lia|left; set_solver|by right].
Qed.

Lemma length_results_spawn st :
  length (results (spawn st)) = S (length (results st)).
Proof. unfold spawn. simpl. rewrite length_app. simpl. lia. Qed.

Lemma wf_loop rest st :
  length (results st) + length rest <= length tasks ->
  wf tasks st -> wf tasks (loop concurrency rest st).
Proof.
  revert st. induction rest as [|t rest IH]; intros st Hlen Hwf.
  - by apply wf_finish.
  - cbn [loop]. simpl in Hlen.
    assert (wf tasks (spawn st)) as Hwf1 by (apply wf_spawn; [lia|done]).
    case_decide; [by apply wf_race|].
    apply IH; [|done]. rewrite length_results_spawn. lia.
Qed.


Lemma invokes_reacts i o (rs : list reaction) :
  invokes ((fun r => @JReact V E i r o) <$> rs) = [].
Proof. by induction rs. Qed.

(** [cleanup]: the promise leaves the set once it is settled. *)
Lemma wf_cleanup st i :
  ~ pending st i -> wf tasks st ->
  wf tasks (set_executing (remove i (executing st)) st).
Proof.
  intros Hi []. constructor; unfold pending, remove in *; simpl; try done.
  - by apply NoDup_filter.
  - intros i' [_ ?]%list_elem_of_filter. by apply wf_executing_lt0.
  - intros i' rs Hi'. destruct (wf_pending0 i' rs Hi') as (? & ? & ?).
    split; [|done]. apply list_elem_of_filter. split; [|done].
    intros ->. apply Hi. by exists rs.
Qed.

(** [results[i]] settles with the outcome of task [i], when the job at
    the head of the queue says so. *)
Lemma wf_settle st j q i o rs (inv' : list nat) :
  wf tasks st -> queue st = j :: q ->
  results st !! i = Some (Pending rs) ->
  (j = JInvoke i /\ tasks !! i = Some (Sync o) /\ inv' = invoked st ++ [i]) \/
  (j = JSettle i o /\ inv' = invoked st) ->
  wf tasks (State (<[i := Settled o]> (results st)) (executing st) (races st)
              (all st) (q ++ ((fun r => JReact i r o) <$> rs)) (result st)
              (active st) inv' (hwm st)).
Proof.
  intros [] Hq Hi Hj. rewrite Hq in *.
  pose proof (lookup_lt_Some _ _ _ Hi) as Hlt.
  assert (JInvoke i ∉ q) as Hninv.
  { destruct Hj as [(-> & _)|(-> & _)].
    - simpl in wf_invokes0. apply NoDup_cons in wf_invokes0 as [Hn _].
      by rewrite elem_of_invokes in Hn.
    - intros Hin. destruct (wf_invoke0 i) as [_ Hn]; [set_solver|].
      apply (Hn o). set_solver. }
  assert (i ∉ active st) as Hnact.
  { intros Hin. destruct (wf_active0 i Hin) as (_ & Hn1 & Hn2 & _).
    destruct Hj as [(-> & _)|(-> & _)]; [apply Hn1|apply (Hn2 o)]; set_solver. }
  assert (forall i', i' ∈ invoked st -> JInvoke i' ∉ q) as Hinvq.
  { intros i' [_ Hn]%wf_invoked0. set_solver. }
  constructor; unfold pending in *; simpl; rewrite ?length_insert; try done.
  - intros i' Hi'. destruct (wf_active0 i' Hi') as ([rs' ?] & ? & ? & ?).
    assert (i <> i') by (by intros ->).
    split; [exists rs'; by rewrite list_lookup_insert_ne|].
    set_unfold. naive_solver.
  - rewrite invokes_app, invokes_reacts, app_nil_r.
    destruct Hj as [(-> & _)|(-> & _)]; simpl in wf_invokes0; [|done].
    by apply NoDup_cons in wf_invokes0 as [_ ?].
  - intros i' [Hi'|Hi']%elem_of_app; [|set_solver].
    destruct (wf_invoke0 i') as ([rs' ?] & Hn); [set_solver|].
    assert (i <> i') by (by intros ->).
    split; [exists rs'; by rewrite list_lookup_insert_ne|].
    set_unfold. naive_solver.
  - intros i' o' [Hi'|Hi']%elem_of_app; [|set_solver].
    apply wf_jsettle0. set_solver.
  - intros i' r' o' [Hi'|Hi']%elem_of_app.
    + assert (results st !! i' = Some (Settled o')) as Hs
        by (eapply wf_react0; by right).
      rewrite list_lookup_insert_ne; [done|]. intros ->. congruence.
    + apply list_elem_of_fmap in Hi' as (r0 & Heq & _).
      injection Heq as -> -> ->. by apply list_lookup_insert_eq.
  - intros i' [Hi'|Hi']%elem_of_app; [|set_solver].
    destruct (wf_catch0 i') as [e He]; [set_solver|]. exists e.
    rewrite list_lookup_insert_ne; [done|]. intros ->. congruence.
  - intros i' rs' [(<- & ? & _)|[Hne Hi']]%list_lookup_insert_Some; [done|].
    destruct (wf_pending0 i' rs' Hi') as (? & ? & Hw).
    split; [done|]. split; [done|].
    destruct Hw as [Hw|[Hw|[o' Hw]]].
    + left. destruct Hj as [(-> & _)|(-> & _)]; set_unfold; naive_solver.
    + by right; left.
    + right; right. exists o'.
      destruct Hj as [(-> & _)|(-> & _)]; set_unfold; naive_solver.
  - intros i' o' [(<- & Heq & _)|[Hne Hi']]%list_lookup_insert_Some;
      [|by apply wf_settled0].
    injection Heq as <-.
    destruct Hj as [(-> & Ht & _)|(-> & _)].
    + by exists (Sync o).
    + destruct (wf_jsettle0 i o) as [_ Ht]; [set_solver|]. by exists (Async o).
  - destruct Hj as [(-> & _ & ->)|(-> & ->)]; [|done].
    apply NoDup_app. split; [done|]. split; [|apply NoDup_singleton].
    intros i' Hi' ->%list_elem_of_singleton.
    apply wf_invoked0 in Hi' as [_ Hn]. set_solver.
  - intros i' Hi'. rewrite elem_of_app, list_elem_of_fmap.
    destruct Hj as [(-> & _ & ->)|(-> & ->)].
    + apply elem_of_app in Hi' as [Hi'|Hi'%list_elem_of_singleton].
      * apply wf_invoked0 in Hi'. set_unfold. naive_solver.
      * subst i'. naive_solver.
    + apply wf_invoked0 in Hi'. set_unfold. naive_solver.
  - intros i' Hi'. destruct (wf_started0 i' Hi') as [Hw|Hw].
    + destruct Hj as [(-> & _ & ->)|(-> & ->)]; set_unfold; naive_solver.
    + right. destruct Hj as [(-> & _ & ->)|(-> & ->)]; set_solver.
Qed.


Lemma wf_drop_jsettle st i o q :
  wf tasks st -> queue st = JSettle i o :: q -> ~ pending st i ->
  wf tasks (set_queue q st).
Proof.
  intros [] Hq Hi. rewrite Hq in *.
  constructor; unfold pending in *; simpl; try done.
  - intros i' Hi'. destruct (wf_active0 i' Hi') as (? & ? & ? & ?).
    set_unfold. naive_solver.
  - intros i' Hi'. destruct (wf_invoke0 i') as [? ?]; [by right|].
    set_unfold. naive_solver.
  - intros i' o' Hi'. apply wf_jsettle0. by right.
  - intros i' r' o' Hi'. eapply wf_react0. by right.
  - intros i' Hi'. apply wf_catch0. by right.
  - intros i' rs Hi'. destruct (wf_pending0 i' rs Hi') as (? & ? & Hw).
    split; [done|]. split; [done|]. set_unfold. naive_solver.
  - intros i' Hi'. apply wf_invoked0 in Hi'. set_unfold. naive_solver.
  - intros i' Hi'. destruct (wf_started0 i' Hi'); set_unfold; naive_solver.
Qed.

Lemma wf_invoke_async st i q o :
  wf tasks st -> queue st = JInvoke i :: q ->
  tasks !! i = Some (Async o) ->
  wf tasks (set_active (active st ++ [i]) (record_call i (set_queue q st))).
Proof.
  intros [] Hq Ht. rewrite Hq in *. simpl in wf_invokes0.
  apply NoDup_cons in wf_invokes0 as [Hn ?]. rewrite elem_of_invokes in Hn.
  destruct (wf_invoke0 i) as [Hp Hns]; [by left|].
  assert (i ∉ active st) as Hnact.
  { intros Hin. destruct (wf_active0 i Hin) as (_ & Hn1 & _). apply Hn1. by left. }
  constructor; unfold pending in *; simpl; try done.
  - apply NoDup_app. split; [done|]. split; [|apply NoDup_singleton].
    by intros i' Hi' ->%list_elem_of_singleton.
  - intros i' [Hi'| ->%list_elem_of_singleton]%elem_of_app.
    + destruct (wf_active0 i' Hi') as (? & ? & ? & ?). set_unfold. naive_solver.
    + set_unfold. naive_solver.
  - intros i' Hi'. destruct (wf_invoke0 i') as [? ?]; [by right|].
    set_unfold. naive_solver.
  - intros i' o' Hi'. apply wf_jsettle0. by right.
  - intros i' r' o' Hi'. eapply wf_react0. by right.
  - intros i' Hi'. apply wf_catch0. by right.
  - intros i' rs Hi'. destruct (wf_pending0 i' rs Hi') as (? & ? & Hw).
    split; [done|]. split; [done|]. set_unfold. naive_solver.
  - apply NoDup_app. split; [done|]. split; [|apply NoDup_singleton].
    intros i' Hi' ->%list_elem_of_singleton.
    apply wf_invoked0 in Hi' as [_ Hn']. apply Hn'. by left.
  - intros i' [Hi'| ->%list_elem_of_singleton]%elem_of_app.
    + apply wf_invoked0 in Hi'. set_unfold. naive_solver.
    + destruct Hp as [rs Hrs]. apply lookup_lt_Some in Hrs. done.
  - intros i' Hi'. destruct (wf_started0 i' Hi'); set_unfold; naive_solver.
Qed.

Lemma wf_complete st i o :
  wf tasks st -> i ∈ active st -> tasks !! i = Some (Async o) ->
  wf tasks (enqueue [JSettle i o] (set_active (remove i (active st)) st)).
Proof.
  intros [] Hi Ht. destruct (wf_active0 i Hi) as ([rs Hrs] & Hn1 & Hn2 & _).
  constructor; unfold pending, remove in *; simpl; try done.
  - by apply NoDup_filter.
  - intros i' [? Hi']%list_elem_of_filter.
    destruct (wf_active0 i' Hi') as (? & ? & ? & ?). set_unfold. naive_solver.
  - rewrite invokes_app. simpl. by rewrite app_nil_r.
  - intros i' [Hi'|Hi']%elem_of_app; [|set_solver].
    destruct (wf_invoke0 i' Hi') as [? ?]. set_unfold. naive_solver.
  - intros i' o' [Hi'|Hi']%elem_of_app; [by apply wf_jsettle0|].
    apply list_elem_of_singleton in Hi'. injection Hi' as -> ->.
    apply lookup_lt_Some in Hrs. done.
  - intros i' r' o' [Hi'|Hi']%elem_of_app; [by eapply wf_react0|set_solver].
  - intros i' [Hi'|Hi']%elem_of_app; [by eapply wf_catch0|set_solver].
  - intros i' rs' Hi'. destruct (wf_pending0 i' rs' Hi') as (? & ? & Hw).
    split; [done|]. split; [done|].
    destruct (decide (i' = i)) as [->|Hne].
    + right; right. exists o. apply elem_of_app. right. by left.
    + destruct Hw as [Hw|[Hw|[o' Hw]]].
      * left. apply elem_of_app. by left.
      * right; left. by apply list_elem_of_filter.
      * right; right. exists o'. apply elem_of_app. by left.
  - intros i' Hi'. apply wf_invoked0 in Hi'. set_unfold. naive_solver.
  - intros i' Hi'. destruct (wf_started0 i' Hi'); set_unfold; naive_solver.
Qed.

Lemma wf_all_react st i o : wf tasks st -> wf tasks (all_react i o st).
Proof.
  intros Hwf. unfold all_react. destruct (all st) as [a|]; [|done].
  destruct o as [v|e].
  - case_decide; [destruct (all_settled a)|].
    + revert Hwf. by apply wf_ext.
    + apply wf_enqueue; [done|]. revert Hwf. by apply wf_ext.
    + revert Hwf. by apply wf_ext.
  - destruct (all_settled a); [done|].
    apply wf_enqueue; [done|]. revert Hwf. by apply wf_ext.
Qed.

Lemma wf_resume st :
  wf tasks st -> wf tasks (resume tasks concurrency st).
Proof.
  intros Hwf. unfold resume. apply wf_loop; [|done].
  rewrite length_drop. destruct Hwf. lia.
Qed.

Lemma not_pending_settled st i o :
  results st !! i = Some (Settled o) -> ~ pending st i.
Proof. intros Hi [rs Hrs]. congruence. Qed.

Lemma wf_run_job st j q :
  wf tasks st -> queue st = j :: q ->
  wf tasks (run_job tasks concurrency j (set_queue q st)).
Proof.
  intros Hwf Hq. destruct j as [i|i o|i r o|i|r o|o]; simpl.
  - destruct (wf_invoke _ _ Hwf i) as [[rs Hrs] _]; [rewrite Hq; by left|].
    pose proof (lookup_lt_Some _ _ _ Hrs) as Hlt.
    destruct (tasks !! i) as [[o|o]|] eqn:Ht.
    + unfold settle. simpl. rewrite Hrs.
      eapply wf_ext; cycle 5.
      * eapply (wf_settle st _ q i o rs); [done..|]. by left.
      * done.
      * done.
      * done.
      * done.
      * done.
    + by eapply wf_invoke_async.
    + apply lookup_ge_None in Ht. destruct Hwf. lia.
  - unfold settle. simpl.
    destruct (results st !! i) as [[rs|o']|] eqn:Hi.
    + eapply wf_ext; cycle 5.
      * eapply (wf_settle st _ q i o rs); [done..|]. by right.
      * done.
      * done.
      * done.
      * done.
      * done.
    + eapply wf_drop_jsettle; [done..|]. intros [rs Hrs]. congruence.
    + eapply wf_drop_jsettle; [done..|]. intros [rs Hrs]. congruence.
  - assert (results st !! i = Some (Settled o)) as Hi.
    { eapply (wf_react _ _ Hwf). rewrite Hq. by left. }
    assert (wf tasks (set_queue q st)) as Hwf' by (by eapply wf_dequeue).
    destruct r as [|r|].
    + destruct o as [v|e].
      * apply (wf_cleanup (set_queue q st)); [|done].
        by eapply not_pending_settled.
      * apply wf_enqueue; [by exists e|done].
    + simpl. destruct (races st !! r) as [[|]|]; try done.
      apply wf_enqueue; [done|]. revert Hwf'. by apply wf_ext.
    + by apply wf_all_react.
  - destruct (wf_catch _ _ Hwf i) as [e He]; [rewrite Hq; by left|].
    assert (wf tasks (set_queue q st)) as Hwf' by (by eapply wf_dequeue).
    apply (wf_cleanup (set_queue q st)); [|done].
    by eapply not_pending_settled.
  - assert (wf tasks (set_queue q st)) as Hwf' by (by eapply wf_dequeue).
    destruct o as [v|e].
    + by apply wf_resume.
    + revert Hwf'. by apply wf_ext.
  - assert (wf tasks (set_queue q st)) as Hwf' by (by eapply wf_dequeue).
    revert Hwf'. by apply wf_ext.
Qed.

Lemma wf_step st ev st' :
  wf tasks st -> step tasks concurrency ev st = Some st' -> wf tasks st'.
Proof.
  intros Hwf Hstep. destruct ev as [|i]; simpl in Hstep.
  - destruct (queue st) as [|j q] eqn:Hq; [done|].
    injection Hstep as <-. by apply wf_run_job.
  - case_decide as Hi; [|done].
    destruct (tasks !! i) as [[o|o]|] eqn:Ht; try done.
    injection Hstep as <-. by apply wf_complete.
Qed.

Lemma wf_empty : wf tasks empty.
Proof.
  constructor; unfold pending; simpl; try apply NoDup_nil_2; try lia.
  all: intros; exfalso; try lia; set_solver.
Qed.

Lemma wf_reachable st : reachable tasks concurrency st -> wf tasks st.
Proof.
  induction 1 as [|ev st st' _ IH Hstep].
  - unfold init. apply wf_loop; [simpl; lia|apply wf_empty].
  - by eapply wf_step.
Qed.

End wf.


(** ** The size of [executing]: [bounded] is an invariant *)

Section bounded.
Context {V E : Type}.
Variable tasks : list (@task V E).
Variable concurrency : Z.
Hypothesis concurrency_pos : (1 <= concurrency)%Z.
Implicit Types (st : @state V E) (q : list (@job V E)) (j : @job V E).
Implicit Types (ex : list nat) (rc : list bool).
Local Open Scope nat_scope.

Lemma length_remove i ex : length (remove i ex) <= length ex.
Proof. apply length_filter. Qed.

Lemma length_remove_lt i ex : i ∈ ex -> length (remove i ex) < length ex.
Proof. intros Hi. eapply length_filter_lt; [done|]. by intros []. Qed.

Lemma length_cleanup_of j ex : length (cleanup_of j ex) <= length ex.
Proof. unfold cleanup_of. destruct (cleans j); [apply length_remove|done]. Qed.

Lemma after_app q1 q2 ex : after (q1 ++ q2) ex = after q2 (after q1 ex).
Proof. apply foldl_app. Qed.

Lemma length_after q ex : length (after q ex) <= length ex.
Proof.
  revert ex. induction q as [|j q IH]; intros ex; simpl; [done|].
  etrans; [apply IH|apply length_cleanup_of].
Qed.

Lemma elem_of_cleanup_of j ex i :
  i ∈ cleanup_of j ex <-> i ∈ ex /\ cleans j <> Some i.
Proof.
  unfold cleanup_of, remove. destruct (cleans j) as [i'|].
  - rewrite list_elem_of_filter. naive_solver.
  - naive_solver.
Qed.

(** A cleanup queued for a member of the set makes the set smaller. *)
Lemma length_after_lt q ex i j :
  i ∈ ex -> j ∈ q -> cleans j = Some i -> length (after q ex) < length ex.
Proof.
  revert ex. induction q as [|j' q IH]; intros ex Hi Hj Hc; [set_solver|].
  simpl. apply elem_of_cons in Hj as [<-|Hj].
  - eapply Nat.le_lt_trans; [apply length_after|].
    unfold cleanup_of. rewrite Hc. by apply length_remove_lt.
  - destruct (decide (cleans j' = Some i)) as [Hc'|Hc'].
    + eapply Nat.le_lt_trans; [apply length_after|].
      unfold cleanup_of. rewrite Hc'. by apply length_remove_lt.
    + eapply Nat.lt_le_trans; [|apply (length_cleanup_of j')].
      apply IH; [|done..]. by apply elem_of_cleanup_of.
Qed.

Lemma safe_app rc ex q1 q2 :
  safe concurrency rc ex (q1 ++ q2) <->
  safe concurrency rc ex q1 /\ safe concurrency rc (after q1 ex) q2.
Proof.
  revert ex. induction q1 as [|j q1 IH]; intros ex; simpl; [naive_solver|].
  rewrite IH. naive_solver.
Qed.

(** With room in the set, any queue is safe. *)
Lemma safe_room rc ex q :
  (Z.of_nat (length ex) < concurrency)%Z -> safe concurrency rc ex q.
Proof.
  revert ex. induction q as [|j q IH]; intros ex Hlt; simpl; [done|].
  split; [done|]. apply IH. pose proof (length_cleanup_of j ex). lia.
Qed.

Lemma safe_quiet rc ex q :
  (forall j, j ∈ q -> ~ wakes rc j) -> safe concurrency rc ex q.
Proof.
  revert ex. induction q as [|j q IH]; intros ex Hq; simpl; [done|].
  split; [intros Hw; by destruct (Hq j); [left|]|].
  apply IH. intros j' Hj'. apply Hq. by right.
Qed.

Lemma safe_mono rc rc' ex q :
  (forall j, j ∈ q -> wakes rc' j -> wakes rc j) ->
  safe concurrency rc ex q -> safe concurrency rc' ex q.
Proof.
  revert ex. induction q as [|j q IH]; intros ex Hq; simpl; [done|].
  intros [Hj Hs]. split; [intros Hw; apply Hj, Hq; [by left|done]|].
  apply IH; [|done]. intros j' Hj'. apply Hq. by right.
Qed.

Lemma elem_of_resumes q r : r ∈ resumes q <-> exists o, JResume r o ∈ q.
Proof.
  unfold resumes. rewrite list_elem_of_omap. split.
  - intros (j & Hj & Heq). destruct j; try done.
    injection Heq as <-. by eexists.
  - intros [o Hj]. by exists (JResume r o).
Qed.

Lemma resumes_app q1 q2 : resumes (q1 ++ q2) = resumes q1 ++ resumes q2.
Proof. apply omap_app. Qed.

Lemma resumes_nil q r o : resumes q = [] -> JResume r o ∉ q.
Proof.
  intros Hq Hin. assert (r ∈ resumes q) as Hr by (apply elem_of_resumes; eauto).
  rewrite Hq in Hr. by apply elem_of_nil in Hr.
Qed.


Lemma resumes_reacts i o (rs : list reaction) :
  resumes ((fun r => @JReact V E i r o) <$> rs) = [].
Proof. by induction rs. Qed.

Lemma elem_of_after q ex i :
  i ∈ after q ex <-> i ∈ ex /\ forall j, j ∈ q -> cleans j <> Some i.
Proof.
  revert ex. induction q as [|j q IH]; intros ex; simpl; [set_solver|].
  rewrite IH, elem_of_cleanup_of. set_unfold. naive_solver.
Qed.

Lemma plain_not_wakes rc j : plain j -> ~ wakes rc j.
Proof. intros Hj (i & r & v & -> & _). done. Qed.

Lemma resumes_plain j : plain j -> resumes [j] = [].
Proof. by destruct j. Qed.

(** [bounded] reads five fields only. *)
Lemma bounded_ext st st' :
  results st' = results st -> executing st' = executing st ->
  races st' = races st -> queue st' = queue st -> hwm st' = hwm st ->
  bounded concurrency st -> bounded concurrency st'.
Proof.
  intros Hr He Hc Hq Hh []. constructor.
  all: rewrite ?Hr, ?He, ?Hc, ?Hq, ?Hh; done.
Qed.

(** The job at the head of the queue has run its cleanup, if any. *)
Lemma bounded_dequeue st j q :
  bounded concurrency st -> queue st = j :: q ->
  bounded concurrency
    (set_executing (cleanup_of j (executing st)) (set_queue q st)).
Proof.
  intros [] Hq. rewrite Hq in *. simpl in bd_safe0.
  constructor; simpl; try done.
  - pose proof (length_cleanup_of j (executing st)). lia.
  - intros i v [Hi Hc]%elem_of_cleanup_of Hs.
    specialize (bd_cleanup0 i v Hi Hs).
    apply elem_of_cons in bd_cleanup0 as [<-|?]; [|done].
    by destruct Hc.
  - by destruct bd_safe0.
  - intros r Hr. destruct (bd_open0 r Hr) as [? Hres]. split; [done|].
    change (j :: q) with ([j] ++ q) in Hres. rewrite resumes_app in Hres.
    by apply app_eq_nil in Hres as [_ ?].
  - change (j :: q) with ([j] ++ q) in bd_resumes0.
    rewrite resumes_app, length_app in bd_resumes0. lia.
  - intros r v Hr. pose proof (length_cleanup_of j (executing st)).
    assert (Z.of_nat (length (executing st)) < concurrency)%Z; [|lia].
    eapply bd_resume0. by right.
  - intros i r o Hi. eapply bd_race_job0. by right.
Qed.

Lemma bounded_enqueue st j :
  plain j -> bounded concurrency st -> bounded concurrency (enqueue [j] st).
Proof.
  intros Hj []. constructor; simpl; try done.
  - intros i v Hi Hs. apply elem_of_app. left. by apply bd_cleanup0.
  - apply safe_app. split; [done|].
    apply safe_quiet. intros j' ->%list_elem_of_singleton.
    by apply plain_not_wakes.
  - intros r Hr. destruct (bd_open0 r Hr) as [? Hres]. split; [done|].
    by rewrite resumes_app, Hres, resumes_plain.
  - by rewrite resumes_app, length_app, resumes_plain, Nat.add_0_r.
  - intros r v [?|Heq%list_elem_of_singleton]%elem_of_app;
      [by eapply bd_resume0|by subst j].
  - intros i r o [?|Heq%list_elem_of_singleton]%elem_of_app;
      [by eapply bd_race_job0|by subst j].
Qed.

Lemma bounded_record_call st i :
  (Z.of_nat (S (length (active st))) <= concurrency)%Z ->
  bounded concurrency st -> bounded concurrency (record_call i st).
Proof. intros Hle []. constructor; simpl; try done. lia. Qed.

Lemma bounded_settle st i o rs :
  bounded concurrency st ->
  results st !! i = Some (Pending rs) ->
  i ∈ executing st ->
  (exists rs', rs = RCleanup :: rs') ->
  (forall j, j ∈ queue st -> cleans j <> Some i) ->
  bounded concurrency (settle i o st).
Proof.
  intros [] Hi Hex [rs' ->] Hq. unfold settle. rewrite Hi.
  pose proof (lookup_lt_Some _ _ _ Hi) as Hlt.
  constructor; simpl; try done.
  - intros i' v Hi' [(<- & Heq & _)|[Hne Hs]]%list_lookup_insert_Some.
    + injection Heq as ->. apply elem_of_app. right. by left.
    + apply elem_of_app. left. by apply bd_cleanup0.
  - apply safe_app. split; [done|]. destruct o as [v|e].
    + simpl. split; [by intros (? & ? & ? & ? & _)|].
      apply safe_room. unfold cleanup_of. simpl.
      assert (i ∈ after (queue st) (executing st)) as Hin
        by (by apply elem_of_after).
      apply length_remove_lt in Hin.
      pose proof (length_after (queue st) (executing st)). lia.
    + apply safe_quiet. intros j Hj (i' & r & v & -> & _).
      apply elem_of_cons in Hj as [?|Hj]; [done|].
      apply list_elem_of_fmap in Hj as (r' & ? & _). done.
  - intros r Hr. destruct (bd_open0 r Hr) as [? Hres]. split; [done|].
    rewrite resumes_app, Hres. simpl. apply resumes_reacts.
  - rewrite resumes_app, length_app. simpl. rewrite resumes_reacts.
    simpl. lia.
  - intros r v [?|Hj]%elem_of_app; [by eapply bd_resume0|].
    apply elem_of_cons in Hj as [?|Hj]; [done|].
    apply list_elem_of_fmap in Hj as (r' & ? & _). done.
  - intros i' rs0 r [(<- & ? & _)|[Hne Hs]]%list_lookup_insert_Some; [done|].
    by eapply bd_race_pending0.
  - intros i' r o' [?|Hj]%elem_of_app; [by eapply bd_race_job0|].
    apply elem_of_cons in Hj as [?|Hj]; [done|].
    apply list_elem_of_fmap in Hj as (r' & Heq & Hr').
    simplify_eq. eapply bd_race_pending0; [done|]. by right.
Qed.


(** A member of a race settles it, if it is the first. *)
Lemma bounded_race_react st i r o q :
  bounded concurrency st -> queue st = JReact i (RRace r) o :: q ->
  bounded concurrency
    (run_job tasks concurrency (JReact i (RRace r) o) (set_queue q st)).
Proof.
  intros Hbd Hq. pose proof (bounded_dequeue _ _ _ Hbd Hq) as Hbd1.
  simpl. destruct (races st !! r) as [[|]|] eqn:Hr; try done.
  destruct Hbd as [_ _ _ Hsafe Hopen _ _ _ _].
  rewrite Hq in Hsafe, Hopen. simpl in Hsafe. destruct Hsafe as [Hwake _].
  destruct (Hopen r Hr) as [Hlast Hres]. simpl in Hres.
  assert (no_open (<[r := true]> (races st))) as Hclosed.
  { intros r' [(<- & ? & _)|[Hne Hr']]%list_lookup_insert_Some; [done|].
    apply Hopen in Hr' as [? _]. lia. }
  destruct Hbd1. simpl in *.
  constructor; simpl; try done.
  - intros i' v Hi' Hs. apply elem_of_app. left. by apply bd_cleanup0.
  - apply safe_app. split; [|by split; [intros (? & ? & ? & ? & _)|]].
    eapply safe_mono; [|done]. intros j _ (i' & r' & v & _ & Hr').
    by destruct (Hclosed r').
  - intros r' Hr'. by destruct (Hclosed r').
  - by rewrite resumes_app, Hres.
  - intros r' v [Hin|Heq%list_elem_of_singleton]%elem_of_app.
    + by apply resumes_nil in Hin.
    + simplify_eq. apply Hwake. by eexists _, _, _.
  - intros i' rs r' Hi' Hr'. rewrite length_insert. by eapply bd_race_pending0.
  - intros i' r' o' [?|?%list_elem_of_singleton]%elem_of_app; [|done].
    rewrite length_insert. by eapply bd_race_job0.
Qed.

Lemma bounded_spawn st :
  wf tasks st -> bounded concurrency st ->
  no_open (races st) -> resumes (queue st) = [] ->
  (Z.of_nat (length (executing st)) < concurrency)%Z ->
  bounded concurrency (spawn st).
Proof.
  intros Hwf [] Hclosed Hres Hlt. constructor; simpl; try done.
  - rewrite length_app. simpl. lia.
  - intros i v [Hi|Hi%list_elem_of_singleton]%elem_of_app
      [[_ Hs]|[-> ?]]%lookup_snoc_Some; try done.
    + apply elem_of_app. left. by apply bd_cleanup0.
    + subst i. apply lookup_lt_Some in Hs. lia.
  - apply safe_quiet. intros j _ (i & r & v & _ & Hr). by destruct (Hclosed r).
  - intros r Hr. by destruct (Hclosed r).
  - rewrite resumes_app, Hres. simpl. lia.
  - intros r v [Hin|?%list_elem_of_singleton]%elem_of_app; [|done].
    by apply resumes_nil in Hin.
  - intros i rs r [[_ Hs]|[-> Heq]]%lookup_snoc_Some Hr.
    + by eapply bd_race_pending0.
    + injection Heq as <-. set_solver.
  - intros i r o [?|?%list_elem_of_singleton]%elem_of_app; [|done].
    by eapply bd_race_job0.
Qed.

(** [Promise.race] makes its promise. *)
Lemma bounded_open_race st :
  bounded concurrency st ->
  no_open (races st) -> resumes (queue st) = [] ->
  bounded concurrency (set_races (races st ++ [false]) st).
Proof.
  intros [] Hclosed Hres. constructor; simpl; try done.
  - apply safe_quiet. intros j Hj (i & r & v & -> & Hr).
    apply bd_race_job0 in Hj. rewrite lookup_app_l in Hr by done.
    by destruct (Hclosed r).
  - intros r [[_ Hr]|[-> _]]%lookup_snoc_Some; [by destruct (Hclosed r)|].
    split; [|done]. rewrite length_app. simpl. lia.
  - intros i rs r Hi Hr. rewrite length_app. simpl.
    specialize (bd_race_pending0 i rs r Hi Hr). lia.
  - intros i r o Hi. rewrite length_app. simpl.
    specialize (bd_race_job0 i r o Hi). lia.
Qed.

Lemma subscribe_fields i (r : reaction) st :
  executing (subscribe i r st) = executing st /\
  races (subscribe i r st) = races st /\
  all (subscribe i r st) = all st /\
  result (subscribe i r st) = result st /\
  active (subscribe i r st) = active st /\
  invoked (subscribe i r st) = invoked st /\
  hwm (subscribe i r st) = hwm st /\
  length (results (subscribe i r st)) = length (results st).
Proof.
  unfold subscribe. destruct (results st !! i) as [[rs|o]|]; simpl;
    rewrite ?length_insert; done.
Qed.

Lemma bounded_subscribe_race st i r :
  bounded concurrency st -> i ∈ executing st -> r < length (races st) ->
  bounded concurrency (subscribe i (RRace r) st).
Proof.
  intros [] Hi Hr. unfold subscribe.
  destruct (results st !! i) as [[rs|o]|] eqn:Hs; [| |done].
  - constructor; simpl; try done.
    + intros i' v Hi' [(<- & ? & _)|[Hne Hs']]%list_lookup_insert_Some; [done|].
      by apply bd_cleanup0.
    + intros i' rs' r' [(<- & Heq & _)|[Hne Hs']]%list_lookup_insert_Some Hr'.
      * injection Heq as <-.
        apply elem_of_app in Hr' as [?|Heq%list_elem_of_singleton].
        -- by eapply bd_race_pending0.
        -- by simplify_eq.
      * by eapply bd_race_pending0.
  - constructor; simpl; try done.
    + intros i' v Hi' Hs'. apply elem_of_app. left. by apply bd_cleanup0.
    + apply safe_app. split; [done|]. simpl. split; [|done].
      intros (i' & r' & v & Heq & _).
      assert (o = Fulfilled v) as -> by congruence.
      pose proof (bd_cleanup0 i v Hi Hs) as Hc.
      pose proof (length_after_lt _ _ _ _ Hi Hc eq_refl). lia.
    + intros r' Hr'. destruct (bd_open0 r' Hr') as [? Hres]. split; [done|].
      by rewrite resumes_app, Hres.
    + by rewrite resumes_app, length_app, Nat.add_0_r.
    + intros r' v [?|?%list_elem_of_singleton]%elem_of_app; [|done].
      by eapply bd_resume0.
    + intros i' r' o' [?|Heq%list_elem_of_singleton]%elem_of_app.
      * by eapply bd_race_job0.
      * by simplify_eq.
Qed.

Lemma bounded_subscribe_all_race st r l :
  bounded concurrency st -> (forall i, i ∈ l -> i ∈ executing st) ->
  r < length (races st) ->
  bounded concurrency (subscribe_all (RRace r) l st).
Proof.
  unfold subscribe_all. revert st.
  induction l as [|i l IH]; intros st Hbd Hl Hr; simpl; [done|].
  destruct (subscribe_fields i (RRace r) st) as (He & Hc & _).
  apply IH.
  - apply bounded_subscribe_race; [done| |done]. apply Hl. by left.
  - intros i' Hi'. rewrite He. apply Hl. by right.
  - by rewrite Hc.
Qed.

Lemma bounded_race st :
  bounded concurrency st ->
  no_open (races st) -> resumes (queue st) = [] ->
  bounded concurrency (race st).
Proof.
  intros Hbd Hclosed Hres. unfold race. apply bounded_subscribe_all_race.
  - by apply bounded_open_race.
  - done.
  - simpl. rewrite length_app. simpl. lia.
Qed.

Lemma bounded_subscribe_all st i :
  bounded concurrency st -> bounded concurrency (subscribe i RAll st).
Proof.
  intros Hbd. unfold subscribe.
  destruct (results st !! i) as [[rs|o]|] eqn:Hs; [| |done].
  - destruct Hbd. constructor; simpl; try done.
    + intros i' v Hi' [(<- & ? & _)|[Hne Hs']]%list_lookup_insert_Some; [done|].
      by apply bd_cleanup0.
    + intros i' rs' r' [(<- & Heq & _)|[Hne Hs']]%list_lookup_insert_Some Hr'.
      * injection Heq as <-.
        apply elem_of_app in Hr' as [?|Heq%list_elem_of_singleton]; [|done].
        by eapply bd_race_pending0.
      * by eapply bd_race_pending0.
  - by apply bounded_enqueue.
Qed.

Lemma bounded_finish st :
  bounded concurrency st -> bounded concurrency (finish st).
Proof.
  intros Hbd. unfold finish. destruct (length (results st)) as [|n].
  - apply bounded_enqueue; [done|]. revert Hbd. by apply bounded_ext.
  - unfold subscribe_all.
    assert (bounded concurrency
      (set_all (Some (AllState (replicate (S n) None) (S n) false)) st)) as Hbd'
      by (revert Hbd; by apply bounded_ext).
    revert Hbd'. generalize (seq 0 (S n)).
    generalize (set_all (Some (AllState (replicate (S n) None) (S n) false)) st).
    intros st' l. revert st'.
    induction l as [|i l IH]; intros st' Hbd'; simpl; [done|].
    by apply IH, bounded_subscribe_all.
Qed.

Lemma bounded_loop rest st :
  length (results st) + length rest <= length tasks ->
  wf tasks st -> bounded concurrency st ->
  no_open (races st) -> resumes (queue st) = [] ->
  (Z.of_nat (length (executing st)) < concurrency)%Z ->
  bounded concurrency (loop concurrency rest st).
Proof.
  revert st. induction rest as [|t rest IH];
    intros st Hlen Hwf Hbd Hclosed Hres Hlt.
  - by apply bounded_finish.
  - cbn [loop]. simpl in Hlen.
    assert (bounded concurrency (spawn st)) as Hbd1 by (by apply bounded_spawn).
    assert (resumes (queue (spawn st)) = []) as Hres1.
    { unfold spawn. simpl. by rewrite resumes_app, Hres. }
    case_decide as Hc; [by apply bounded_race|].
    apply IH; try done.
    + rewrite length_results_spawn. lia.
    + apply wf_spawn; [lia|done].
    + lia.
Qed.


(** The tasks in flight are members of [executing]. *)
Lemma active_executing st i :
  wf tasks st -> i ∈ active st -> i ∈ executing st.
Proof.
  intros Hwf Hi. destruct (wf_active _ _ Hwf i Hi) as ([rs Hrs] & _).
  by destruct (wf_pending _ _ Hwf i rs Hrs).
Qed.

Lemma length_active st :
  wf tasks st -> length (active st) <= length (executing st).
Proof.
  intros Hwf. apply submseteq_length, NoDup_submseteq.
  - by destruct Hwf.
  - intros i. by apply active_executing.
Qed.

(** The task about to be called is a member of [executing] that is not
    yet in flight. *)
Lemma active_room st i :
  wf tasks st -> JInvoke i ∈ queue st ->
  S (length (active st)) <= length (executing st).
Proof.
  intros Hwf Hi. change (length (i :: active st) <= length (executing st)).
  apply submseteq_length, NoDup_submseteq.
  - apply NoDup_cons. split; [|by destruct Hwf].
    intros Hin. by destruct (wf_active _ _ Hwf i Hin) as (_ & ? & _).
  - intros i' [->|Hi']%elem_of_cons; [|by apply active_executing].
    destruct (wf_invoke _ _ Hwf i Hi) as ([rs Hrs] & _).
    by destruct (wf_pending _ _ Hwf i rs Hrs).
Qed.

(** No cleanup is queued for a promise that is still pending. *)
Lemma pending_not_cleaned st i rs j :
  wf tasks st -> results st !! i = Some (Pending rs) ->
  j ∈ queue st -> cleans j <> Some i.
Proof.
  intros Hwf Hi Hj Hc.
  destruct j as [| |i' [] [v|e]|i'| |]; simpl in Hc; try done.
  - injection Hc as ->. apply (wf_react _ _ Hwf) in Hj. congruence.
  - injection Hc as ->. apply (wf_catch _ _ Hwf) in Hj as [e He]. congruence.
Qed.

Lemma bounded_all_react st i o :
  bounded concurrency st -> bounded concurrency (all_react i o st).
Proof.
  intros Hbd. unfold all_react. destruct (all st) as [a|]; [|done].
  destruct o as [v|e].
  - case_decide; [destruct (all_settled a)|].
    + revert Hbd. by apply bounded_ext.
    + apply bounded_enqueue; [done|]. revert Hbd. by apply bounded_ext.
    + revert Hbd. by apply bounded_ext.
  - destruct (all_settled a); [done|].
    apply bounded_enqueue; [done|]. revert Hbd. by apply bounded_ext.
Qed.

Lemma bounded_run_job st j q :
  wf tasks st -> bounded concurrency st -> queue st = j :: q ->
  bounded concurrency (run_job tasks concurrency j (set_queue q st)).
Proof.
  intros Hwf Hbd Hq.
  pose proof (bounded_dequeue _ _ _ Hbd Hq) as Hbd1.
  destruct j as [i|i o|i r o|i|r o|o].
  - assert (JInvoke i ∈ queue st) as Hin by (rewrite Hq; by left).
    destruct (wf_invoke _ _ Hwf i Hin) as ([rs Hrs] & _).
    destruct (wf_pending _ _ Hwf i rs Hrs) as (Hex & Hhd & _).
    pose proof (active_room _ _ Hwf Hin) as Hroom.
    assert (bounded concurrency (record_call i (set_queue q st))) as Hbd2.
    { apply bounded_record_call; [|done]. simpl. destruct Hbd. lia. }
    simpl. destruct (tasks !! i) as [[o|o]|]; [| |done].
    + eapply bounded_settle; [done..|].
      simpl. intros j Hj. eapply pending_not_cleaned; [done..|].
      rewrite Hq. by right.
    + revert Hbd2. by apply bounded_ext.
  - simpl. unfold settle. simpl.
    destruct (results st !! i) as [[rs|o']|] eqn:Hrs; [|done..].
    destruct (wf_pending _ _ Hwf i rs Hrs) as (Hex & Hhd & _).
    assert (bounded concurrency (settle i o (set_queue q st))) as Hbd2.
    { eapply bounded_settle; [done..|].
      simpl. intros j Hj. eapply pending_not_cleaned; [done..|].
      rewrite Hq. by right. }
    unfold settle in Hbd2. simpl in Hbd2. by rewrite Hrs in Hbd2.
  - destruct r as [|r|].
    + destruct o as [v|e]; [done|]. by apply bounded_enqueue.
    + by apply bounded_race_react.
    + by apply bounded_all_react.
  - done.
  - destruct o as [v|e]; [|revert Hbd1; by apply bounded_ext].
    simpl. unfold resume. destruct Hbd.
    rewrite Hq in bd_open0, bd_resumes0, bd_resume0. simpl in *.
    apply bounded_loop; simpl; try done.
    + rewrite length_drop. destruct Hwf. lia.
    + by eapply wf_dequeue.
    + intros r' Hr'. by destruct (bd_open0 r' Hr').
    + destruct (resumes q); [done|simpl in *; lia].
    + eapply bd_resume0. by left.
  - revert Hbd1. by apply bounded_ext.
Qed.

Lemma bounded_step st ev st' :
  wf tasks st -> bounded concurrency st ->
  step tasks concurrency ev st = Some st' -> bounded concurrency st'.
Proof.
  intros Hwf Hbd Hstep. destruct ev as [|i]; simpl in Hstep.
  - destruct (queue st) as [|j q] eqn:Hq; [done|].
    injection Hstep as <-. by apply bounded_run_job.
  - case_decide as Hi; [|done].
    destruct (tasks !! i) as [[o|o]|] eqn:Ht; try done.
    injection Hstep as <-. apply bounded_enqueue; [done|].
    revert Hbd. by apply bounded_ext.
Qed.

Lemma bounded_empty : bounded concurrency (@empty V E).
Proof.
  constructor; simpl; try done; try lia.
  all: intros; exfalso; set_solver.
Qed.

Lemma bounded_reachable st :
  reachable tasks concurrency st -> bounded concurrency st.
Proof.
  induction 1 as [|ev st st' Hst IH Hstep].
  - unfold init. apply bounded_loop; simpl; try done.
    + apply wf_empty.
    + apply bounded_empty.
    + lia.
  - eapply bounded_step; [|done..]. by eapply wf_reachable.
Qed.

End bounded.

Section concurrency_limit.
Context {V E : Type}.
Implicit Types (st : @state V E) (tasks : list (@task V E)).

(** C1: with a concurrency of at least 1 (in particular between 1 and
    the size of the batch), no more than [concurrency] tasks are ever
    running at once: the tasks in flight never outnumber it, and neither
    does the high-water mark taken at the entry of every task. *)
Theorem parallel_respects_concurrency tasks (concurrency : Z) st :
  (1 <= concurrency)%Z ->
  reachable tasks concurrency st ->
  (Z.of_nat (hwm st) <= concurrency)%Z /\
  (Z.of_nat (length (active st)) <= concurrency)%Z /\
  (Z.of_nat (length (executing st)) <= concurrency)%Z.
Proof.
  intros Hc Hst.
  pose proof (wf_reachable _ _ _ Hst) as Hwf.
  pose proof (bounded_reachable _ _ Hc _ Hst) as Hbd.
  pose proof (length_active _ _ Hwf). destruct Hbd.
  repeat split; [done| |done]. lia.
Qed.

End concurrency_limit.


(** ** What [subscribe_all] does *)

Section subscribe_all.
Context {V E : Type}.
Implicit Types (st : @state V E) (r : reaction) (l : list nat).
Local Open Scope nat_scope.

Lemma subscribe_settled i r st k o :
  results (subscribe i r st) !! k = Some (Settled o) <->
  results st !! k = Some (Settled o).
Proof.
  unfold subscribe. destruct (results st !! i) as [[rs|o']|] eqn:Hi; simpl;
    [|done..].
  rewrite list_lookup_insert_Some. split.
  - intros [(_ & ? & _)|[_ ?]]; done.
  - intros Hk. right. split; [|done]. intros ->. congruence.
Qed.

Lemma subscribe_pending i r st k rs :
  results st !! k = Some (Pending rs) ->
  results (subscribe i r st) !! k =
    Some (Pending (if decide (k = i) then rs ++ [r] else rs)).
Proof.
  intros Hk. unfold subscribe. case_decide as Heq.
  - subst k. rewrite Hk. simpl. apply list_lookup_insert_eq.
    by eapply lookup_lt_Some.
  - destruct (results st !! i) as [[rs'|o']|] eqn:Hi; simpl; [|done..].
    by rewrite list_lookup_insert_ne.
Qed.

Lemma subscribe_queue i r st :
  queue (subscribe i r st) = queue st ++ notified r [i] st.
Proof.
  unfold subscribe, notified. simpl.
  destruct (results st !! i) as [[rs|o]|]; simpl; by rewrite ?app_nil_r.
Qed.

Lemma notified_subscribe i r r' l st :
  notified r l (subscribe i r' st) = notified r l st.
Proof.
  unfold notified. apply list_omap_ext, Forall2_same_length_lookup.
  split; [done|]. intros k x y Hx Hy. simplify_eq.
  destruct (results st !! x) as [[rs|o]|] eqn:Hk.
  - by erewrite subscribe_pending.
  - apply (subscribe_settled i r') in Hk. by rewrite Hk.
  - destruct (results (subscribe i r' st) !! x) as [[rs|o]|] eqn:Hk'; try done.
    apply subscribe_settled in Hk'. congruence.
Qed.

Lemma notified_cons r i l st :
  notified r (i :: l) st = notified r [i] st ++ notified r l st.
Proof. unfold notified. simpl. by destruct (results st !! i) as [[]|]. Qed.

Lemma subscribe_all_queue r l st :
  queue (subscribe_all r l st) = queue st ++ notified r l st.
Proof.
  unfold subscribe_all. revert st.
  induction l as [|i l IH]; intros st; cbn [foldl].
  - unfold notified. simpl. by rewrite app_nil_r.
  - rewrite IH, subscribe_queue, notified_subscribe, (notified_cons r i l).
    by rewrite app_assoc.
Qed.

Lemma subscribe_all_fields r l st :
  executing (subscribe_all r l st) = executing st /\
  races (subscribe_all r l st) = races st /\
  all (subscribe_all r l st) = all st /\
  result (subscribe_all r l st) = result st /\
  active (subscribe_all r l st) = active st /\
  invoked (subscribe_all r l st) = invoked st /\
  hwm (subscribe_all r l st) = hwm st /\
  length (results (subscribe_all r l st)) = length (results st).
Proof.
  unfold subscribe_all. revert st.
  induction l as [|i l IH]; intros st; simpl; [done|].
  destruct (IH (subscribe i r st)) as (-> & -> & -> & -> & -> & -> & -> & ->).
  apply subscribe_fields.
Qed.

Lemma subscribe_all_settled r l st k o :
  results (subscribe_all r l st) !! k = Some (Settled o) <->
  results st !! k = Some (Settled o).
Proof.
  unfold subscribe_all. revert st.
  induction l as [|i l IH]; intros st; simpl; [done|].
  by rewrite IH, subscribe_settled.
Qed.

Lemma subscribe_all_pending r l st k rs :
  NoDup l ->
  results st !! k = Some (Pending rs) ->
  results (subscribe_all r l st) !! k =
    Some (Pending (if decide (k ∈ l) then rs ++ [r] else rs)).
Proof.
  unfold subscribe_all. revert st rs.
  induction l as [|i l IH]; intros st rs Hl Hk; cbn [foldl].
  - case_decide as Hin; [by apply elem_of_nil in Hin|done].
  - apply NoDup_cons in Hl as [Hi Hl].
    rewrite (IH _ _ Hl (subscribe_pending i r st k rs Hk)).
    do 2 f_equal. destruct (decide (k = i)) as [->|Hne].
    + rewrite (decide_False (P := i ∈ l)) by done.
      by rewrite (decide_True (P := i ∈ i :: l)) by (by left).
    + destruct (decide (k ∈ l)) as [Hin|Hin].
      * by rewrite (decide_True (P := k ∈ i :: l)) by (by right).
      * rewrite (decide_False (P := k ∈ i :: l)); [done|].
        by intros [?|?]%elem_of_cons.
Qed.

(** A pending promise after [subscribe_all] was pending before. *)
Lemma subscribe_all_pending_inv r l st k rs' :
  NoDup l ->
  results (subscribe_all r l st) !! k = Some (Pending rs') ->
  exists rs, results st !! k = Some (Pending rs) /\
             rs' = if decide (k ∈ l) then rs ++ [r] else rs.
Proof.
  intros Hl Hk. destruct (results st !! k) as [[rs|o]|] eqn:Hk0.
  - exists rs. split; [done|].
    rewrite (subscribe_all_pending r l st k rs Hl Hk0) in Hk. congruence.
  - apply (subscribe_all_settled r l) in Hk0. congruence.
  - apply lookup_lt_Some in Hk. apply lookup_ge_None in Hk0.
    destruct (subscribe_all_fields r l st) as (_ & _ & _ & _ & _ & _ & _ & Hlen).
    lia.
Qed.

Lemma elem_of_notified r l st j :
  j ∈ notified r l st <->
  exists i o, j = JReact i r o /\ i ∈ l /\
              results st !! i = Some (Settled o).
Proof.
  unfold notified. rewrite list_elem_of_omap. split.
  - intros (i & Hi & Hj). destruct (results st !! i) as [[rs|o]|] eqn:Hr;
      simplify_eq. by exists i, o.
  - intros (i & o & -> & Hi & Hr). exists i. by rewrite Hr.
Qed.

End subscribe_all.

(** ** The function never waits in vain: [awaiting] is an invariant *)

Section awaiting.
Context {V E : Type}.
Variable tasks : list (@task V E).
Variable concurrency : Z.
Implicit Types (st : @state V E) (q : list (@job V E)) (j : @job V E).
Local Open Scope nat_scope.

(** [awaiting] reads five fields only. *)
Lemma awaiting_ext st st' :
  results st' = results st -> queue st' = queue st ->
  races st' = races st -> all st' = all st -> result st' = result st ->
  awaiting st -> awaiting st'.
Proof.
  intros Hr Hq Hc Ha Hx []. constructor; unfold blame in *.
  all: rewrite ?Hr, ?Hq, ?Hc, ?Ha, ?Hx; done.
Qed.

Lemma blame_stable {A} st st' (o : outcome A E) :
  (forall i o', results st !! i = Some (Settled o') ->
                results st' !! i = Some (Settled o')) ->
  blame st o -> blame st' o.
Proof.
  intros Hs. destruct o as [v|e]; [done|]. intros [i Hi].
  exists i. by apply Hs.
Qed.

Lemma awaiting_enqueue st j :
  match j with JResume _ _ | JFinal _ => False | _ => True end ->
  awaiting st -> awaiting (enqueue [j] st).
Proof.
  intros Hj []. constructor; simpl; try done.
  - intros Ha Hx. destruct (aw_await0 Ha Hx) as [?|(r & o & ?)]; [by left|].
    right. exists r, o. apply elem_of_app. by left.
  - intros r Hr. destruct (aw_race0 r Hr) as [i [?|[o ?]]]; exists i; [by left|].
    right. exists o. apply elem_of_app. by left.
  - intros r o [?|Heq%list_elem_of_singleton]%elem_of_app;
      [by apply (aw_resume0 r)|by subst j].
  - intros o [?|Heq%list_elem_of_singleton]%elem_of_app;
      [by eapply aw_final0|by subst j].
Qed.

Lemma awaiting_dequeue st j q :
  awaiting st -> queue st = j :: q -> idle st j ->
  awaiting (set_queue q st).
Proof.
  intros [] Hq Hj. rewrite Hq in *. constructor; simpl; try done.
  - intros Ha Hx. destruct (aw_await0 Ha Hx) as [?|(r & o & Hin)]; [by left|].
    right. exists r, o. by apply elem_of_cons in Hin as [<-|?].
  - intros r Hr. destruct (aw_race0 r Hr) as [i [?|[o Hin]]]; exists i; [by left|].
    right. exists o. by apply elem_of_cons in Hin as [<-|?].
  - intros r o Hin. apply (aw_resume0 r). by right.
  - intros o Hin. eapply aw_final0. by right.
Qed.

Lemma awaiting_settle st i o rs :
  awaiting st -> results st !! i = Some (Pending rs) ->
  awaiting (settle i o st).
Proof.
  intros [] Hi. unfold settle. rewrite Hi.
  pose proof (lookup_lt_Some _ _ _ Hi) as Hlt.
  constructor; simpl; try done.
  - intros Ha Hx. destruct (aw_await0 Ha Hx) as [?|(r & o' & ?)]; [by left|].
    right. exists r, o'. apply elem_of_app. by left.
  - intros r Hr. destruct (aw_race0 r Hr) as [i' [(rs' & Hi' & Hin)|[o' ?]]].
    + destruct (decide (i' = i)) as [->|Hne].
      * exists i. right. exists o. apply elem_of_app. right.
        apply list_elem_of_fmap. exists (RRace r). split; [done|]. congruence.
      * exists i'. left. exists rs'. by rewrite list_lookup_insert_ne.
    + exists i'. right. exists o'. apply elem_of_app. by left.
  - intros r o' [Hin|Hin]%elem_of_app.
    + destruct (aw_resume0 r o' Hin) as (? & ? & Hb). split; [done|].
      split; [done|]. revert Hb. apply blame_stable. simpl.
      intros i' o'' Hs. rewrite list_lookup_insert_ne; [done|].
      intros ->. congruence.
    + by apply list_elem_of_fmap in Hin as (? & ? & _).
  - intros o' [Hin|Hin]%elem_of_app; [by eapply aw_final0|].
    by apply list_elem_of_fmap in Hin as (? & ? & _).
Qed.

Lemma awaiting_all_react st i o :
  awaiting st -> awaiting (all_react i o st).
Proof.
  intros Haw. unfold all_react. destruct (all st) as [a|] eqn:Ha; [|done].
  assert (forall x, awaiting (set_all (Some x) st)) as Hset.
  { intros x. destruct Haw. constructor; simpl; try done.
    - intros r Hr. destruct (aw_open0 r Hr). congruence.
    - intros r o' Hin. destruct (aw_resume0 r o' Hin). congruence. }
  assert (forall x y, awaiting (enqueue [JFinal y] (set_all (Some x) st)))
    as Hfin.
  { intros x y. destruct (Hset x). constructor; simpl; try done.
    - intros r Hr. destruct (aw_race0 r Hr) as [i' [?|[o' ?]]];
        exists i'; [by left|].
      right. exists o'. apply elem_of_app. by left.
    - intros r o' [?|?%list_elem_of_singleton]%elem_of_app; [|done].
      by apply (aw_resume0 r). }
  destruct o as [v|e].
  - case_decide; [destruct (all_settled a)|]; done.
  - destruct (all_settled a); [done|]. apply Hfin.
Qed.

(** The first member of an open race to react settles it. *)
Lemma awaiting_race_react st i r o q :
  wf tasks st -> bounded concurrency st -> awaiting st ->
  queue st = JReact i (RRace r) o :: q ->
  awaiting (run_job tasks concurrency (JReact i (RRace r) o) (set_queue q st)).
Proof.
  intros Hwf Hbd Haw Hq. simpl.
  destruct (races st !! r) as [[|]|] eqn:Hr.
  - eapply awaiting_dequeue; [done..|]. simpl. congruence.
  - destruct (bd_open _ _ Hbd r Hr) as [Hlast _].
    assert (results st !! i = Some (Settled o)) as Hi.
    { eapply (wf_react _ _ Hwf). rewrite Hq. by left. }
    assert (no_open (<[r := true]> (races st))) as Hclosed.
    { intros r' [(<- & ? & _)|[Hne Hr']]%list_lookup_insert_Some; [done|].
      apply (bd_open _ _ Hbd) in Hr' as [? _]. lia. }
    destruct Haw. rewrite Hq in *. constructor; simpl.
    + intros _ _. right. exists r, o. apply elem_of_app. right. by left.
    + intros r' Hr'. by destruct (Hclosed r').
    + intros r' Hr'. by destruct (Hclosed r').
    + intros r' o' [Hin|Heq%list_elem_of_singleton]%elem_of_app.
      * apply (aw_resume0 r'). by right.
      * injection Heq as -> ->. destruct (aw_open0 r Hr). split; [done|].
        split; [done|]. destruct o as [v|e]; [done|].
        by exists i.
    + intros o' [Hin|?%list_elem_of_singleton]%elem_of_app; [|done].
      eapply aw_final0. by right.
  - eapply awaiting_dequeue; [done..|]. simpl. congruence.
Qed.

(** [await] throws: the function is over. *)
Lemma awaiting_throw st r e q :
  bounded concurrency st -> awaiting st ->
  queue st = JResume r (Rejected e) :: q ->
  awaiting (set_result (Some (Rejected e)) (set_queue q st)).
Proof.
  intros Hbd [] Hq.
  assert (no_open (races st)) as Hclosed.
  { intros r' Hr'. destruct (bd_open _ _ Hbd r' Hr') as [_ Hres].
    by rewrite Hq in Hres. }
  assert (resumes q = []) as Hres.
  { pose proof (bd_resumes _ _ Hbd) as Hle. rewrite Hq in Hle. simpl in Hle.
    destruct (resumes q); [done|simpl in Hle; lia]. }
  rewrite Hq in *. constructor; simpl; try done.
  - intros r' Hr'. by destruct (Hclosed r').
  - intros r' Hr'. by destruct (Hclosed r').
  - intros r' o Hin. by apply resumes_nil in Hin.
  - intros o Hin. eapply aw_final0. by right.
Qed.

(** The promise of [parallel] adopts the outcome of [Promise.all]. *)
Lemma awaiting_final st o q :
  awaiting st -> queue st = JFinal o :: q ->
  awaiting (set_result (Some o) (set_queue q st)).
Proof.
  intros [] Hq. rewrite Hq in *.
  assert (all st <> None) as Ha by (eapply aw_final0; by left).
  constructor; simpl; try done.
  - intros r Hr. by destruct (aw_open0 r Hr).
  - intros r Hr. by destruct (aw_open0 r Hr).
  - intros r o' Hin. destruct (aw_resume0 r o'); [by right|done].
Qed.

End awaiting.


Section awaiting_steps.
Context {V E : Type}.
Variable tasks : list (@task V E).
Variable concurrency : Z.
Hypothesis concurrency_pos : (1 <= concurrency)%Z.
Implicit Types (st : @state V E) (q : list (@job V E)) (j : @job V E).
Local Open Scope nat_scope.

Lemma paused_spawn st : paused st -> paused (spawn st).
Proof.
  intros []. constructor; simpl; try done.
  - by rewrite resumes_app, pa_resumes0.
  - intros o [?|?%list_elem_of_singleton]%elem_of_app; [|done].
    by eapply pa_final0.
Qed.

Lemma resumes_notified r l st : resumes (notified r l st) = [].
Proof.
  unfold notified. induction l as [|i l IH]; [done|]. simpl.
  by destruct (results st !! i) as [[]|].
Qed.

Lemma awaiting_race st :
  wf tasks st -> paused st -> executing st <> [] -> awaiting (race st).
Proof.
  intros Hwf [] Hex. unfold race.
  set (st0 := set_races (races st ++ [false]) st).
  destruct (subscribe_all_fields (RRace (length (races st))) (executing st) st0)
    as (_ & Hrc & Hall & Hres & _).
  pose proof (subscribe_all_queue (RRace (length (races st))) (executing st) st0)
    as Hq.
  constructor; rewrite ?Hrc, ?Hall, ?Hres, ?Hq; simpl.
  - intros _ _. left. exists (length (races st)).
    by rewrite lookup_app_r, Nat.sub_diag.
  - intros r [[_ Hr]|[-> _]]%lookup_snoc_Some; [by destruct (pa_races0 r)|].
    destruct (executing st) as [|i ex] eqn:Hexec; [done|]. exists i.
    assert (i ∈ executing st) as Hi by (rewrite Hexec; by left).
    pose proof (wf_executing_lt _ _ Hwf i Hi) as Hlt.
    destruct (lookup_lt_is_Some_2 _ _ Hlt) as [[rs|o] Hp].
    + left. exists (rs ++ [RRace (length (races st))]). split; [|set_solver].
      rewrite <- Hexec. erewrite subscribe_all_pending; [|by destruct Hwf|done].
      by rewrite decide_True.
    + right. exists o. apply elem_of_app. right. apply elem_of_notified.
      exists i, o. split; [done|]. split; [by left|done].
  - intros r [[_ Hr]|[-> _]]%lookup_snoc_Some; [by destruct (pa_races0 r)|done].
  - intros r o [Hin|Hin]%elem_of_app.
    + by apply resumes_nil in Hin.
    + apply elem_of_notified in Hin as (? & ? & ? & _). done.
  - intros o [Hin|Hin]%elem_of_app.
    + by apply pa_final0 in Hin.
    + apply elem_of_notified in Hin as (? & ? & ? & _). done.
Qed.

Lemma awaiting_finish st : paused st -> awaiting (finish st).
Proof.
  intros []. unfold finish. destruct (length (results st)) as [|n].
  - constructor; simpl.
    + done.
    + intros r Hr. by destruct (pa_races0 r).
    + intros r Hr. by destruct (pa_races0 r).
    + intros r o [Hin|?%list_elem_of_singleton]%elem_of_app; [|done].
      by apply resumes_nil in Hin.
    + done.
  - set (st0 := set_all _ st).
    destruct (subscribe_all_fields RAll (seq 0 (S n)) st0)
      as (_ & Hrc & Hall & Hres & _).
    pose proof (subscribe_all_queue RAll (seq 0 (S n)) st0) as Hq.
    constructor; rewrite ?Hrc, ?Hall, ?Hres, ?Hq; simpl.
    + done.
    + intros r Hr. by destruct (pa_races0 r).
    + intros r Hr. by destruct (pa_races0 r).
    + intros r o [Hin|Hin]%elem_of_app.
      * by apply resumes_nil in Hin.
      * apply elem_of_notified in Hin as (? & ? & ? & _). done.
    + done.
Qed.

Lemma awaiting_loop rest st :
  length (results st) + length rest <= length tasks ->
  wf tasks st -> paused st -> awaiting (loop concurrency rest st).
Proof.
  revert st. induction rest as [|t rest IH]; intros st Hlen Hwf Hpa.
  - by apply awaiting_finish.
  - cbn [loop]. simpl in Hlen.
    assert (wf tasks (spawn st)) as Hwf1 by (apply wf_spawn; [lia|done]).
    pose proof (paused_spawn _ Hpa) as Hpa1.
    case_decide.
    + apply awaiting_race; [done..|]. unfold spawn. simpl.
      by destruct (executing st).
    + apply IH; [|done..]. rewrite length_results_spawn. lia.
Qed.

Lemma awaiting_run_job st j q :
  wf tasks st -> bounded concurrency st -> awaiting st ->
  queue st = j :: q ->
  awaiting (run_job tasks concurrency j (set_queue q st)).
Proof.
  intros Hwf Hbd Haw Hq.
  destruct j as [i|i o|i r o|i|r o|o].
  - assert (awaiting (set_queue q st)) as Haw1 by (by eapply awaiting_dequeue).
    destruct (wf_invoke _ _ Hwf i) as ([rs Hrs] & _); [rewrite Hq; by left|].
    simpl. destruct (tasks !! i) as [[o|o]|]; [| |done].
    + eapply awaiting_settle; [|done]. revert Haw1. by apply awaiting_ext.
    + revert Haw1. by apply awaiting_ext.
  - assert (awaiting (set_queue q st)) as Haw1 by (by eapply awaiting_dequeue).
    simpl. destruct (results st !! i) as [[rs|o']|] eqn:Hrs.
    + by eapply awaiting_settle.
    + unfold settle. simpl. by rewrite Hrs.
    + unfold settle. simpl. by rewrite Hrs.
  - destruct r as [|r|].
    + assert (awaiting (set_queue q st)) as Haw1 by (by eapply awaiting_dequeue).
      destruct o as [v|e]; simpl.
      * revert Haw1. by apply awaiting_ext.
      * by apply awaiting_enqueue.
    + by apply awaiting_race_react.
    + assert (awaiting (set_queue q st)) as Haw1 by (by eapply awaiting_dequeue).
      by apply awaiting_all_react.
  - assert (awaiting (set_queue q st)) as Haw1 by (by eapply awaiting_dequeue).
    revert Haw1. by apply awaiting_ext.
  - destruct o as [v|e]; [|by eapply awaiting_throw].
    simpl. unfold resume. apply awaiting_loop.
    + simpl. rewrite length_drop. destruct Hwf. lia.
    + by eapply wf_dequeue.
    + destruct (aw_resume _ Haw r (Fulfilled v)) as (Ha & Hx & _);
        [rewrite Hq; by left|].
      constructor; simpl; try done.
      * intros r' Hr'. destruct (bd_open _ _ Hbd r' Hr') as [_ Hres].
        by rewrite Hq in Hres.
      * pose proof (bd_resumes _ _ Hbd) as Hle. rewrite Hq in Hle.
        simpl in Hle. destruct (resumes q); [done|simpl in Hle; lia].
      * intros o Hin. apply (aw_final _ Haw o); [|done]. rewrite Hq. by right.
  - by apply awaiting_final.
Qed.

Lemma awaiting_step st ev st' :
  wf tasks st -> bounded concurrency st -> awaiting st ->
  step tasks concurrency ev st = Some st' -> awaiting st'.
Proof.
  intros Hwf Hbd Haw Hstep. destruct ev as [|i]; simpl in Hstep.
  - destruct (queue st) as [|j q] eqn:Hq; [done|].
    injection Hstep as <-. by apply awaiting_run_job.
  - case_decide as Hi; [|done].
    destruct (tasks !! i) as [[o|o]|] eqn:Ht; try done.
    injection Hstep as <-. apply awaiting_enqueue; [done|].
    revert Haw. by apply awaiting_ext.
Qed.

Lemma paused_empty : paused (@empty V E).
Proof. constructor; simpl; try done. intros o. apply not_elem_of_nil. Qed.

Lemma awaiting_reachable st :
  reachable tasks concurrency st -> awaiting st.
Proof.
  induction 1 as [|ev st st' Hst IH Hstep].
  - unfold init. apply awaiting_loop; [simpl; lia|apply wf_empty|].
    apply paused_empty.
  - eapply awaiting_step; [| |done..].
    + by eapply wf_reachable.
    + by eapply bounded_reachable.
Qed.

End awaiting_steps.


(** ** The bookkeeping of [Promise.all]: [gathered] is an invariant *)

Section gathered.
Context {V E : Type}.
Variable tasks : list (@task V E).
Variable concurrency : Z.
Hypothesis concurrency_pos : (1 <= concurrency)%Z.
Implicit Types (st : @state V E) (q : list (@job V E)) (j : @job V E).
Implicit Types (vs : list (option V)).
Local Open Scope nat_scope.

Lemma holes_replicate n : holes (replicate n (@None V)) = n.
Proof. induction n as [|n IH]; simpl; [done|]. by rewrite IH. Qed.

Lemma holes_fill vs i v :
  vs !! i = Some None ->
  0 < holes vs /\ holes (<[i := Some v]> vs) = pred (holes vs).
Proof.
  revert i. induction vs as [|x vs IH]; intros i Hi; [done|].
  destruct i as [|i]; simpl in *.
  - injection Hi as ->. split; [lia|done].
  - destruct (IH i Hi) as [Hpos Heq]. destruct x; simpl; [done|].
    split; [lia|]. rewrite Heq. lia.
Qed.

Lemma holes_none vs i x :
  holes vs = 0 -> vs !! i = Some x -> exists v, x = Some v.
Proof.
  revert i. induction vs as [|y vs IH]; intros i Hz Hi; [done|].
  destruct y as [v|]; [|done]. destruct i as [|i]; simpl in *.
  - injection Hi as <-. by exists v.
  - by eapply IH.
Qed.

Lemma elem_of_alls q i : i ∈ alls q <-> exists o, JReact i RAll o ∈ q.
Proof.
  unfold alls. rewrite list_elem_of_omap. split.
  - intros (j & Hj & Heq). destruct j as [| |i' [] o| | |]; try done.
    injection Heq as <-. by exists o.
  - intros [o Hj]. by exists (JReact i RAll o).
Qed.

Lemma alls_app q1 q2 : alls (q1 ++ q2) = alls q1 ++ alls q2.
Proof. apply omap_app. Qed.

Lemma alls_nil q i o : alls q = [] -> JReact i RAll o ∉ q.
Proof.
  intros Hq Hin. assert (i ∈ alls q) as Hi by (apply elem_of_alls; eauto).
  rewrite Hq in Hi. by apply elem_of_nil in Hi.
Qed.

Lemma alls_foreign j : foreign j -> alls [j] = [].
Proof. by destruct j as [| |i [] o| | |]. Qed.

Lemma good_stable st st' o :
  (forall i o', results st !! i = Some (Settled o') ->
                results st' !! i = Some (Settled o')) ->
  good tasks st o -> good tasks st' o.
Proof.
  intros Hs. destruct o as [vs|e]; simpl.
  - intros [Hlen Hvs]. split; [done|]. intros i Hi.
    destruct (Hvs i Hi) as (v & ? & ?). exists v. split; [done|]. by apply Hs.
  - intros [i Hi]. exists i. by apply Hs.
Qed.

(** [gathered] reads four fields only. *)
Lemma gathered_ext st st' :
  results st' = results st -> queue st' = queue st ->
  all st' = all st -> result st' = result st ->
  gathered tasks st -> gathered tasks st'.
Proof.
  intros Hr Hq Ha Hx [].
  constructor; unfold good, outstanding in *; rewrite ?Hr, ?Hq, ?Ha, ?Hx;
    try done.
  intros a Ha'. destruct (ga_some0 a Ha').
  constructor; unfold outstanding in *; rewrite ?Hr, ?Hq, ?Ha, ?Hx; done.
Qed.

Lemma outstanding_enqueue st js i :
  outstanding st i -> outstanding (enqueue js st) i.
Proof.
  intros [?|[o ?]]; [by left|]. right. exists o. apply elem_of_app. by left.
Qed.

Lemma gathered_enqueue st j :
  foreign j -> gathered tasks st -> gathered tasks (enqueue [j] st).
Proof.
  intros Hj []. constructor; simpl.
  - done.
  - by rewrite alls_app, alls_foreign, app_nil_r.
  - intros Ha. destruct (ga_none0 Ha) as [? Hq]. split; [done|].
    by rewrite alls_app, Hq, alls_foreign.
  - intros a Ha. destruct (ga_some0 a Ha). constructor; simpl; try done.
    + intros Hs i Hi. by apply outstanding_enqueue, gg_hole0.
    + intros i o [?|Heq%list_elem_of_singleton]%elem_of_app;
        [by eapply gg_job0|by subst j].
    + intros Hs Hx. destruct (gg_settled0 Hs Hx) as [o ?].
      exists o. apply elem_of_app. by left.
  - intros o [?|Heq%list_elem_of_singleton]%elem_of_app;
      [by apply ga_final0|by subst j].
  - done.
Qed.

Lemma gathered_dequeue st j q :
  gathered tasks st -> queue st = j :: q -> foreign j ->
  gathered tasks (set_queue q st).
Proof.
  intros [] Hq Hj. rewrite Hq in *.
  change (j :: q) with ([j] ++ q) in ga_alls0, ga_none0.
  rewrite alls_app, alls_foreign in ga_alls0, ga_none0 by done.
  constructor; simpl; try done.
  - intros a Ha. destruct (ga_some0 a Ha). unfold outstanding in *.
    rewrite Hq in *. constructor; simpl; try done.
    + intros Hs i Hi. destruct (gg_hole0 Hs i Hi) as [?|[o Hin]]; [by left|].
      right. exists o. by apply elem_of_cons in Hin as [<-|?].
    + intros i o Hin. eapply gg_job0. by right.
    + intros Hs Hx. destruct (gg_settled0 Hs Hx) as [o Hin].
      exists o. by apply elem_of_cons in Hin as [<-|?].
  - intros o Hin. apply ga_final0. by right.
Qed.


Lemma elem_of_alls_reacts i o (rs : list reaction) k :
  k ∈ alls ((fun r => @JReact V E i r o) <$> rs) -> k = i /\ RAll ∈ rs.
Proof.
  intros [o' Hk]%elem_of_alls.
  apply list_elem_of_fmap in Hk as (r & Heq & Hr). by simplify_eq.
Qed.

Lemma NoDup_alls_reacts i o (rs : list reaction) :
  NoDup rs -> NoDup (alls ((fun r => @JReact V E i r o) <$> rs)).
Proof.
  induction rs as [|r rs IH]; intros Hrs; [apply NoDup_nil_2|].
  apply NoDup_cons in Hrs as [Hr Hrs].
  destruct r; simpl; try by apply IH.
  apply NoDup_cons. split; [|by apply IH].
  by intros [_ ?]%elem_of_alls_reacts.
Qed.

Lemma gathered_settle st i o rs :
  gathered tasks st -> results st !! i = Some (Pending rs) ->
  (forall r o', JReact i r o' ∉ queue st) ->
  gathered tasks (settle i o st).
Proof.
  intros [] Hi Hq. unfold settle. rewrite Hi.
  pose proof (lookup_lt_Some _ _ _ Hi) as Hlt.
  assert (forall k o', results st !! k = Some (Settled o') ->
            <[i := Settled o]> (results st) !! k = Some (Settled o')) as Hst.
  { intros k o' Hk. rewrite list_lookup_insert_ne; [done|]. intros ->. congruence. }
  constructor; simpl.
  - intros k rs' [(<- & ? & _)|[_ Hk]]%list_lookup_insert_Some; [done|].
    by eapply ga_nodup0.
  - rewrite alls_app. apply NoDup_app. split; [done|].
    split; [|by eapply NoDup_alls_reacts, ga_nodup0].
    intros k [o' Hk]%elem_of_alls [-> _]%elem_of_alls_reacts.
    by apply (Hq RAll o').
  - intros Ha. destruct (ga_none0 Ha) as [Hrs Hal]. split.
    + intros k rs' [(<- & ? & _)|[_ Hk]]%list_lookup_insert_Some; [done|].
      by eapply Hrs.
    + rewrite alls_app, Hal. simpl.
      destruct (alls ((fun r => JReact i r o) <$> rs)) as [|k l] eqn:Hl; [done|].
      destruct (elem_of_alls_reacts i o rs k) as [_ Hin];
        [rewrite Hl; by left|].
      by destruct (Hrs i rs Hi).
  - intros a Ha. destruct (ga_some0 a Ha).
    destruct (gg_pending0 i rs Hi) as [Hhole Hall].
    constructor; unfold outstanding in *; simpl.
    + by rewrite length_insert.
    + done.
    + done.
    + done.
    + intros Hs k Hk. destruct (gg_hole0 Hs k Hk) as [(rs' & Hk' & Hin)|[o' Hin]].
      * destruct (decide (k = i)) as [->|Hne].
        -- right. exists o. apply elem_of_app. right.
           apply list_elem_of_fmap. by exists RAll.
        -- left. exists rs'. by rewrite list_lookup_insert_ne.
      * right. exists o'. apply elem_of_app. by left.
    + intros k o' [Hin|Hin]%elem_of_app; [by eapply gg_job0|].
      apply list_elem_of_fmap in Hin as (r & Heq & _). by simplify_eq.
    + intros k rs' [(<- & ? & _)|[_ Hk]]%list_lookup_insert_Some; [done|].
      by apply gg_pending0.
    + intros k v Hk. apply Hst. by apply gg_filled0.
    + intros Hs Hx. destruct (gg_settled0 Hs Hx) as [o' ?].
      exists o'. apply elem_of_app. by left.
  - intros o' [Hin|Hin]%elem_of_app.
    + eapply good_stable; [|by apply ga_final0]. done.
    + apply list_elem_of_fmap in Hin as (r & Heq & _). done.
  - intros o' Hx. eapply good_stable; [|by apply ga_result0]. done.
Qed.


(** The handler of [Promise.all] for element [i] runs. *)
Lemma gathered_all_react st i o q :
  wf tasks st -> gathered tasks st -> queue st = JReact i RAll o :: q ->
  gathered tasks (all_react i o (set_queue q st)).
Proof.
  intros Hwf Hga Hq.
  assert (results st !! i = Some (Settled o)) as Hi.
  { eapply (wf_react _ _ Hwf). rewrite Hq. by left. }
  destruct Hga. rewrite Hq in *. simpl in ga_alls0.
  apply NoDup_cons in ga_alls0 as [Hfresh Hnodup].
  unfold all_react. simpl.
  destruct (all st) as [a|] eqn:Ha; [|by destruct (ga_none0 eq_refl)].
  destruct (ga_some0 a eq_refl). unfold outstanding in *. rewrite Hq in *.
  assert (values a !! i = Some None) as Hhole by (eapply gg_job0; by left).
  assert (i < length (values a)) as Hlt by (by eapply lookup_lt_Some).
  assert (forall k o', JReact k RAll o' ∈ q -> k <> i) as Hother.
  { intros k o' Hin ->. apply Hfresh, elem_of_alls. eauto. }
  destruct o as [v|e].
  - destruct (holes_fill _ _ v Hhole) as [Hpos Hfill].
    assert (forall k v', <[i := Some v]> (values a) !! k = Some (Some v') ->
              results st !! k = Some (Settled (Fulfilled v'))) as Hfilled.
    { intros k v' [(<- & ? & _)|[_ Hk]]%list_lookup_insert_Some.
      - by simplify_eq.
      - by apply gg_filled0. }
    assert (forall k o', JReact k RAll o' ∈ q ->
              <[i := Some v]> (values a) !! k = Some None) as Hjob.
    { intros k o' Hin. rewrite list_lookup_insert_ne.
      - eapply gg_job0. by right.
      - intros ->. by eapply Hother. }
    assert (forall k rs, results st !! k = Some (Pending rs) ->
              <[i := Some v]> (values a) !! k = Some None /\ RAll ∈ rs) as Hpend.
    { intros k rs Hk. destruct (gg_pending0 k rs Hk). split; [|done].
      rewrite list_lookup_insert_ne; [done|]. intros ->. congruence. }
    case_decide as Hz.
    + assert (good tasks st (Fulfilled (<[i := Some v]> (values a)))) as Hgood.
      { simpl. rewrite length_insert. split; [done|]. intros k Hk.
        rewrite <- gg_values0 in Hk.
        destruct (lookup_lt_is_Some_2 (<[i := Some v]> (values a)) k)
          as [x Hx]; [by rewrite length_insert|].
        destruct (holes_none (<[i := Some v]> (values a)) k x) as [v' ->];
          [lia|done|].
        exists v'. split; [done|]. by apply Hfilled. }
      destruct (all_settled a) eqn:Hs.
      * constructor; simpl; try done.
        -- intros a' [= <-]. constructor; simpl; try done.
           ++ by rewrite length_insert.
           ++ lia.
           ++ intros _ Hx. destruct (gg_settled0 eq_refl Hx) as [o' Hin].
              exists o'. by apply elem_of_cons in Hin as [?|?].
        -- intros o' Hin. apply ga_final0. by right.
      * constructor; simpl.
        -- done.
        -- by rewrite alls_app, app_nil_r.
        -- done.
        -- intros a' [= <-]. constructor; simpl; try done.
           ++ by rewrite length_insert.
           ++ lia.
           ++ intros k o' [Hin|?%list_elem_of_singleton]%elem_of_app; [|done].
              by eapply Hjob.
           ++ intros _ _. eexists. apply elem_of_app. right. by left.
        -- intros o' [Hin|Heq%list_elem_of_singleton]%elem_of_app.
           ++ apply ga_final0. by right.
           ++ by simplify_eq.
        -- done.
    + constructor; simpl; try done.
      * intros a' [= <-]. constructor; simpl; try done.
        -- by rewrite length_insert.
        -- lia.
        -- lia.
        -- intros Hs k [(_ & ? & _)|[Hne Hk]]%list_lookup_insert_Some; [done|].
           destruct (gg_hole0 Hs k Hk) as [?|[o' Hin]]; [by left|].
           right. exists o'. apply elem_of_cons in Hin as [?|?]; [|done].
           by simplify_eq.
        -- intros Hs Hx. destruct (gg_settled0 Hs Hx) as [o' Hin].
           exists o'. by apply elem_of_cons in Hin as [?|?].
      * intros o' Hin. apply ga_final0. by right.
  - destruct (all_settled a) eqn:Hs.
    + constructor; simpl; rewrite ?Ha; try done.
      * intros a' [= <-]. constructor; simpl; try done.
        -- congruence.
        -- congruence.
        -- intros k o' Hin. eapply gg_job0. by right.
        -- intros _ Hx. destruct (gg_settled0 eq_refl Hx) as [o' Hin].
           exists o'. by apply elem_of_cons in Hin as [?|?].
      * intros o' Hin. apply ga_final0. by right.
    + constructor; simpl.
      * done.
      * by rewrite alls_app, app_nil_r.
      * done.
      * intros a' [= <-]. constructor; simpl; try done.
        -- intros k o' [Hin|?%list_elem_of_singleton]%elem_of_app; [|done].
           eapply gg_job0. by right.
        -- intros _ _. eexists. apply elem_of_app. right. by left.
      * intros o' [Hin|Heq%list_elem_of_singleton]%elem_of_app.
        -- apply ga_final0. by right.
        -- simplify_eq. simpl. by exists i.
      * done.
Qed.


(** The promise of [parallel] adopts the outcome of [Promise.all]. *)
Lemma gathered_final st o q :
  gathered tasks st -> queue st = JFinal o :: q ->
  gathered tasks (set_result (Some o) (set_queue q st)).
Proof.
  intros [] Hq. rewrite Hq in *. constructor; simpl; try done.
  - intros a Ha. destruct (ga_some0 a Ha). unfold outstanding in *.
    rewrite Hq in *. constructor; simpl; try done.
    + intros Hs i Hi. destruct (gg_hole0 Hs i Hi) as [?|[o' Hin]]; [by left|].
      right. exists o'. by apply elem_of_cons in Hin as [?|?].
    + intros i o' Hin. eapply gg_job0. by right.
  - intros o' Hin. apply ga_final0. by right.
  - intros o' [= <-]. apply ga_final0. by left.
Qed.

(** [await] throws the error of a rejected promise. *)
Lemma gathered_throw st r e q :
  awaiting st -> gathered tasks st ->
  queue st = JResume r (Rejected e) :: q ->
  gathered tasks (set_result (Some (Rejected e)) (set_queue q st)).
Proof.
  intros Haw Hga Hq.
  destruct (aw_resume _ Haw r (Rejected e)) as (_ & _ & Hb);
    [rewrite Hq; by left|].
  pose proof (gathered_dequeue st (JResume r (Rejected e)) q Hga Hq I) as [].
  constructor; simpl; try done.
  - intros a Ha. destruct (ga_some0 a Ha). by constructor.
  - by intros o' [= <-].
Qed.

Lemma gathered_spawn st :
  gathered tasks st -> all st = None -> gathered tasks (spawn st).
Proof.
  intros [] Ha. destruct (ga_none0 Ha) as [Hrs Hal].
  assert (forall i o', results st !! i = Some (Settled o') ->
            (results st ++ [Pending [RCleanup]]) !! i = Some (Settled o'))
    as Hst by (intros i o' Hi; by apply lookup_app_l_Some).
  constructor; simpl.
  - intros i rs [[_ Hi]|[_ [= <-]]]%lookup_snoc_Some; [by eapply ga_nodup0|].
    apply NoDup_singleton.
  - by rewrite alls_app, app_nil_r.
  - intros _. split; [|by rewrite alls_app, Hal].
    intros i rs [[_ Hi]|[_ [= <-]]]%lookup_snoc_Some; [by eapply Hrs|].
    by intros ?%list_elem_of_singleton.
  - intros a Ha'. congruence.
  - intros o [Hin|?%list_elem_of_singleton]%elem_of_app; [|done].
    eapply good_stable; [|by apply ga_final0]. done.
  - intros o Hx. eapply good_stable; [|by apply ga_result0]. done.
Qed.

Lemma alls_notified_race r l st : alls (notified (RRace r) l st) = [].
Proof.
  unfold notified. induction l as [|i l IH]; [done|]. simpl.
  by destruct (results st !! i) as [[]|].
Qed.

Lemma gathered_race st :
  wf tasks st -> gathered tasks st -> all st = None ->
  (forall i rs r, results st !! i = Some (Pending rs) -> RRace r ∈ rs ->
                  r < length (races st)) ->
  gathered tasks (race st).
Proof.
  intros Hwf [] Ha Hfresh. unfold race.
  set (st0 := set_races (races st ++ [false]) st).
  set (r := RRace (length (races st))).
  destruct (subscribe_all_fields r (executing st) st0)
    as (_ & _ & Hall & Hres & _).
  pose proof (subscribe_all_queue r (executing st) st0) as Hq.
  pose proof (wf_executing _ _ Hwf) as Hex.
  destruct (ga_none0 Ha) as [Hrs Hal].
  assert (forall i o', results st !! i = Some (Settled o') ->
            results (subscribe_all r (executing st) st0) !! i
            = Some (Settled o')) as Hst.
  { intros i o' Hi. by apply subscribe_all_settled. }
  subst r. constructor; rewrite ?Hall, ?Hres, ?Hq; simpl.
  - intros i rs' Hi.
    apply subscribe_all_pending_inv in Hi as (rs & Hi & ->); [|done].
    case_decide; [|by eapply ga_nodup0].
    apply NoDup_app. split; [by eapply ga_nodup0|].
    split; [|apply NoDup_singleton].
    intros x Hx ->%list_elem_of_singleton.
    specialize (Hfresh i rs _ Hi Hx). lia.
  - by rewrite alls_app, alls_notified_race, app_nil_r.
  - intros _. split; [|by rewrite alls_app, alls_notified_race, Hal].
    intros i rs' Hi.
    apply subscribe_all_pending_inv in Hi as (rs & Hi & ->); [|done].
    case_decide; [|by eapply Hrs].
    intros [?|?%list_elem_of_singleton]%elem_of_app; [|done].
    by eapply Hrs.
  - intros a Ha'. congruence.
  - intros o [Hin|Hin]%elem_of_app.
    + eapply good_stable; [|by apply ga_final0]. done.
    + apply elem_of_notified in Hin as (? & ? & ? & _). done.
  - intros o Hx. eapply good_stable; [|by apply ga_result0]. done.
Qed.


Lemma elem_of_alls_notified l st i :
  i ∈ alls (notified RAll l st) -> i ∈ l.
Proof.
  intros [o Hin]%elem_of_alls.
  apply elem_of_notified in Hin as (i' & o' & Heq & Hi' & _). by simplify_eq.
Qed.

Lemma NoDup_alls_notified l st : NoDup l -> NoDup (alls (notified RAll l st)).
Proof.
  unfold notified. induction l as [|i l IH]; intros Hl; [apply NoDup_nil_2|].
  apply NoDup_cons in Hl as [Hi Hl]. simpl.
  destruct (results st !! i) as [[rs|o]|]; simpl; try by apply IH.
  apply NoDup_cons. split; [|by apply IH].
  intros Hin. by apply elem_of_alls_notified in Hin.
Qed.

(** [return Promise.all(results)], once every task has its promise. *)
Lemma gathered_finish st :
  gathered tasks st -> paused st ->
  length (results st) = length tasks ->
  gathered tasks (finish st).
Proof.
  intros [] [] Hlen. destruct (ga_none0 pa_all0) as [Hrs Hal].
  unfold finish. destruct (length (results st)) as [|n] eqn:Hn.
  - constructor; simpl.
    + done.
    + by rewrite alls_app, app_nil_r.
    + done.
    + intros a [= <-]. constructor; unfold outstanding; simpl; try done.
      * by rewrite Hn.
      * intros i o [Hin|?%list_elem_of_singleton]%elem_of_app; [|done].
        by apply alls_nil in Hin.
      * intros i rs Hi. apply lookup_lt_Some in Hi. lia.
      * intros _ _. eexists. apply elem_of_app. right. by left.
    + intros o [Hin|Heq%list_elem_of_singleton]%elem_of_app.
      * by apply pa_final0 in Hin.
      * simplify_eq. simpl. split; [done|]. intros i Hi. lia.
    + intros o Hx. congruence.
  - set (a0 := AllState (replicate (S n) None) (S n) false).
    set (st0 := set_all (Some a0) st).
    destruct (subscribe_all_fields RAll (seq 0 (S n)) st0)
      as (_ & _ & Hall & Hres & _ & _ & _ & Hlen').
    pose proof (subscribe_all_queue RAll (seq 0 (S n)) st0) as Hq.
    pose proof (NoDup_seq 0 (S n)) as Hseq.
    assert (forall i o', results st !! i = Some (Settled o') ->
              results (subscribe_all RAll (seq 0 (S n)) st0) !! i
              = Some (Settled o')) as Hst.
    { intros i o' Hi. by apply subscribe_all_settled. }
    assert (forall i rs', results (subscribe_all RAll (seq 0 (S n)) st0) !! i
              = Some (Pending rs') ->
              exists rs, results st !! i = Some (Pending rs) /\
                         rs' = rs ++ [RAll]) as Hpend.
    { intros i rs' Hi.
      apply subscribe_all_pending_inv in Hi as (rs & Hi & ->); [|done].
      exists rs. split; [done|]. rewrite decide_True; [done|].
      apply elem_of_seq. apply lookup_lt_Some in Hi. simpl in Hi. lia. }
    constructor; rewrite ?Hall, ?Hres, ?Hq;
      cbn -[replicate seq subscribe_all notified holes alls].
    + intros i rs' (rs & Hi & ->)%Hpend.
      apply NoDup_app. split; [by eapply ga_nodup0|].
      split; [|apply NoDup_singleton].
      intros x Hx ->%list_elem_of_singleton. by eapply Hrs.
    + rewrite alls_app, Hal. simpl. by apply NoDup_alls_notified.
    + done.
    + intros a [= <-]. constructor; unfold outstanding;
        rewrite ?Hall, ?Hres, ?Hq, ?Hlen';
        cbn -[replicate seq subscribe_all notified holes alls].
      * lia.
      * rewrite length_replicate. lia.
      * by rewrite holes_replicate.
      * lia.
      * intros _ i [_ Hi]%lookup_replicate.
        destruct (lookup_lt_is_Some_2 (results st) i) as [[rs|o] Hp]; [lia| |].
        -- left. exists (rs ++ [RAll]). split; [|set_solver].
           erewrite subscribe_all_pending; [|done..].
           rewrite decide_True; [done|]. apply elem_of_seq. lia.
        -- right. exists o. apply elem_of_app. right. apply elem_of_notified.
           exists i, o. split; [done|]. split; [|done].
           apply elem_of_seq. lia.
      * intros i o [Hin|Hin]%elem_of_app; [by apply alls_nil in Hin|].
        apply elem_of_notified in Hin as (i' & o' & Heq & Hi' & _).
        simplify_eq. apply lookup_replicate. split; [done|].
        apply elem_of_seq in Hi'. lia.
      * intros i rs' (rs & Hi & ->)%Hpend. split; [|set_solver].
        apply lookup_replicate. split; [done|].
        apply lookup_lt_Some in Hi. lia.
      * intros i v [? _]%lookup_replicate. done.
      * done.
    + intros o [Hin|Hin]%elem_of_app.
      * by apply pa_final0 in Hin.
      * apply elem_of_notified in Hin as (? & ? & ? & _). done.
    + intros o Hx. congruence.
Qed.


Lemma gathered_loop rest st :
  length (results st) + length rest = length tasks ->
  wf tasks st -> paused st -> gathered tasks st ->
  (forall i rs r, results st !! i = Some (Pending rs) -> RRace r ∈ rs ->
                  r < length (races st)) ->
  gathered tasks (loop concurrency rest st).
Proof.
  revert st. induction rest as [|t rest IH]; intros st Hlen Hwf Hpa Hga Hfresh.
  - apply gathered_finish; [done..|]. simpl in Hlen. lia.
  - cbn [loop]. simpl in Hlen.
    assert (wf tasks (spawn st)) as Hwf1 by (apply wf_spawn; [lia|done]).
    pose proof (paused_spawn _ Hpa) as Hpa1.
    assert (gathered tasks (spawn st)) as Hga1
      by (apply gathered_spawn; [done|by destruct Hpa]).
    assert (forall i rs r, results (spawn st) !! i = Some (Pending rs) ->
              RRace r ∈ rs -> r < length (races (spawn st))) as Hfresh1.
    { simpl. intros i rs r [[_ Hi]|[_ [= <-]]]%lookup_snoc_Some Hr.
      - by eapply Hfresh.
      - by apply list_elem_of_singleton in Hr. }
    case_decide.
    + apply gathered_race; [done..|by destruct Hpa1|done].
    + apply IH; [|done..]. rewrite length_results_spawn. lia.
Qed.

Lemma gathered_run_job st j q :
  wf tasks st -> bounded concurrency st -> awaiting st ->
  gathered tasks st -> queue st = j :: q ->
  gathered tasks (run_job tasks concurrency j (set_queue q st)).
Proof.
  intros Hwf Hbd Haw Hga Hq.
  assert (forall i rs, results st !! i = Some (Pending rs) ->
            forall r o', JReact i r o' ∉ q) as Hnojob.
  { intros i rs Hi r o' Hin.
    assert (results st !! i = Some (Settled o')) as Hs
      by (eapply (wf_react _ _ Hwf); rewrite Hq; by right).
    congruence. }
  destruct j as [i|i o|i r o|i|r o|o].
  - assert (gathered tasks (set_queue q st)) as Hga1
      by (by eapply gathered_dequeue).
    destruct (wf_invoke _ _ Hwf i) as ([rs Hrs] & _); [rewrite Hq; by left|].
    simpl. destruct (tasks !! i) as [[o|o]|]; [| |done].
    + eapply gathered_settle; [|done|by eapply Hnojob].
      revert Hga1. by apply gathered_ext.
    + revert Hga1. by apply gathered_ext.
  - assert (gathered tasks (set_queue q st)) as Hga1
      by (by eapply gathered_dequeue).
    simpl. destruct (results st !! i) as [[rs|o']|] eqn:Hrs.
    + eapply gathered_settle; [done..|by eapply Hnojob].
    + unfold settle. simpl. by rewrite Hrs.
    + unfold settle. simpl. by rewrite Hrs.
  - destruct r as [|r|].
    + assert (gathered tasks (set_queue q st)) as Hga1
        by (by eapply gathered_dequeue).
      destruct o as [v|e]; simpl.
      * revert Hga1. by apply gathered_ext.
      * by apply gathered_enqueue.
    + assert (gathered tasks (set_queue q st)) as Hga1
        by (by eapply gathered_dequeue).
      simpl. destruct (races st !! r) as [[|]|]; try done.
      apply gathered_enqueue; [done|]. revert Hga1. by apply gathered_ext.
    + by apply gathered_all_react.
  - assert (gathered tasks (set_queue q st)) as Hga1
      by (by eapply gathered_dequeue).
    revert Hga1. by apply gathered_ext.
  - destruct o as [v|e]; [|by eapply gathered_throw].
    simpl. unfold resume. apply gathered_loop.
    + simpl. rewrite length_drop. destruct Hwf. lia.
    + by eapply wf_dequeue.
    + destruct (aw_resume _ Haw r (Fulfilled v)) as (Ha & Hx & _);
        [rewrite Hq; by left|].
      constructor; simpl; try done.
      * intros r' Hr'. destruct (bd_open _ _ Hbd r' Hr') as [_ Hres].
        by rewrite Hq in Hres.
      * pose proof (bd_resumes _ _ Hbd) as Hle. rewrite Hq in Hle.
        simpl in Hle. destruct (resumes q); [done|simpl in Hle; lia].
      * intros o Hin. apply (aw_final _ Haw o); [|done]. rewrite Hq. by right.
    + by eapply gathered_dequeue.
    + simpl. apply (bd_race_pending _ _ Hbd).
  - by apply gathered_final.
Qed.

Lemma gathered_step st ev st' :
  wf tasks st -> bounded concurrency st -> awaiting st ->
  gathered tasks st ->
  step tasks concurrency ev st = Some st' -> gathered tasks st'.
Proof.
  intros Hwf Hbd Haw Hga Hstep. destruct ev as [|i]; simpl in Hstep.
  - destruct (queue st) as [|j q] eqn:Hq; [done|].
    injection Hstep as <-. by apply gathered_run_job.
  - case_decide as Hi; [|done].
    destruct (tasks !! i) as [[o|o]|] eqn:Ht; try done.
    injection Hstep as <-. apply gathered_enqueue; [done|].
    revert Hga. by apply gathered_ext.
Qed.

Lemma gathered_empty : gathered tasks (@empty V E).
Proof.
  constructor; simpl; try done.
  - apply NoDup_nil_2.
  - intros o Hin. by apply elem_of_nil in Hin.
Qed.

Lemma gathered_reachable st :
  reachable tasks concurrency st -> gathered tasks st.
Proof.
  induction 1 as [|ev st st' Hst IH Hstep].
  - unfold init. apply gathered_loop; simpl.
    + done.
    + apply wf_empty.
    + apply paused_empty.
    + apply gathered_empty.
    + done.
  - eapply gathered_step; [| | |done..].
    + by eapply wf_reachable.
    + by eapply bounded_reachable.
    + by eapply awaiting_reachable.
Qed.

End gathered.


(** ** What the promise of [parallel] settles with *)

Section results.
Context {V E : Type}.
Variable tasks : list (@task V E).
Variable concurrency : Z.
Hypothesis concurrency_pos : (1 <= concurrency)%Z.
Implicit Types (st : @state V E) (q : list (@job V E)) (j : @job V E).
Local Open Scope nat_scope.

Lemma holes_positive (vs : list (option V)) :
  0 < holes vs -> exists i, vs !! i = Some None.
Proof.
  induction vs as [|[v|] vs IH]; simpl; intros Hpos; [lia| |by exists 0].
  destruct (IH Hpos) as [i Hi]. by exists (S i).
Qed.

(** A pending promise has a job or a task in flight behind it, so there
    is none in a quiescent state. *)
Lemma quiescent_settled st i rs :
  wf tasks st -> quiescent st -> results st !! i <> Some (Pending rs).
Proof.
  intros Hwf [Hq Ha] Hi.
  destruct (wf_pending _ _ Hwf i rs Hi) as (_ & _ & [Hin|[Hin|[o Hin]]]).
  - rewrite Hq in Hin. by apply elem_of_nil in Hin.
  - rewrite Ha in Hin. by apply elem_of_nil in Hin.
  - rewrite Hq in Hin. by apply elem_of_nil in Hin.
Qed.

(** When nothing is left to happen, the promise of [parallel] is
    settled. *)
Lemma quiescent_result st :
  reachable tasks concurrency st -> quiescent st ->
  exists o, result st = Some o.
Proof.
  intros Hst Hqu.
  pose proof (wf_reachable _ _ _ Hst) as Hwf.
  pose proof (awaiting_reachable _ _ concurrency_pos _ Hst) as Haw.
  pose proof (gathered_reachable _ _ concurrency_pos _ Hst) as Hga.
  destruct (result st) as [o|] eqn:Hx; [by exists o|]. exfalso.
  pose proof Hqu as [Hq Hact].
  destruct (all st) as [a|] eqn:Ha.
  - destruct (ga_some _ _ Hga a Ha).
    destruct (all_settled a) eqn:Hs.
    + destruct (gg_settled0 eq_refl Hx) as [o Hin].
      rewrite Hq in Hin. by apply elem_of_nil in Hin.
    + specialize (gg_positive0 eq_refl). rewrite gg_remaining0 in gg_positive0.
      destruct (holes_positive _ gg_positive0) as [i Hi].
      destruct (gg_hole0 eq_refl i Hi) as [(rs & Hp & _)|[o Hin]].
      * by eapply quiescent_settled.
      * rewrite Hq in Hin. by apply elem_of_nil in Hin.
  - destruct (aw_await _ Haw Ha Hx) as [[r Hr]|(r & o & Hin)].
    + destruct (aw_race _ Haw r Hr) as [i [(rs & Hp & _)|[o Hin]]].
      * by eapply quiescent_settled.
      * rewrite Hq in Hin. by apply elem_of_nil in Hin.
    + rewrite Hq in Hin. by apply elem_of_nil in Hin.
Qed.

(** [parallel] resolves with the values of all the tasks, in the order
    of the tasks. *)
Lemma result_fulfilled st vs :
  reachable tasks concurrency st -> result st = Some (Fulfilled vs) ->
  Forall succeeds tasks /\ vs = expected tasks /\
  length (results st) = length tasks.
Proof.
  intros Hst Hx.
  pose proof (wf_reachable _ _ _ Hst) as Hwf.
  pose proof (gathered_reachable _ _ concurrency_pos _ Hst) as Hga.
  destruct (ga_result _ _ Hga _ Hx) as [Hlen Hvs].
  assert (forall i t, tasks !! i = Some t ->
            exists v, task_outcome t = Fulfilled v /\
                      vs !! i = Some (Some v) /\
                      results st !! i = Some (Settled (Fulfilled v))) as Hall.
  { intros i t Ht. destruct (Hvs i) as (v & Hv & Hr); [by eapply lookup_lt_Some|].
    destruct (wf_settled _ _ Hwf i _ Hr) as (t' & Ht' & Ho).
    exists v. by simplify_eq. }
  split; [|split].
  - apply Forall_lookup. intros i t Ht.
    destruct (Hall i t Ht) as (v & ? & _). by exists v.
  - apply list_eq. intros i. unfold expected. rewrite list_lookup_fmap.
    destruct (tasks !! i) as [t|] eqn:Ht; simpl.
    + destruct (Hall i t Ht) as (v & Ho & -> & _). unfold value_of.
      by rewrite Ho.
    + apply lookup_ge_None. apply lookup_ge_None in Ht. lia.
  - apply Nat.le_antisymm; [by destruct Hwf|].
    destruct (decide (length tasks <= length (results st))); [done|].
    destruct (lookup_lt_is_Some_2 tasks (length (results st))) as [t Ht]; [lia|].
    destruct (Hall _ t Ht) as (v & _ & _ & Hr).
    apply lookup_lt_Some in Hr. lia.
Qed.

(** [parallel] rejects with the error of a task that was called and
    failed. *)
Lemma result_rejected st e :
  reachable tasks concurrency st -> result st = Some (Rejected e) ->
  exists i t, tasks !! i = Some t /\ task_outcome t = Rejected e /\
              i ∈ invoked st.
Proof.
  intros Hst Hx.
  pose proof (wf_reachable _ _ _ Hst) as Hwf.
  pose proof (gathered_reachable _ _ concurrency_pos _ Hst) as Hga.
  destruct (ga_result _ _ Hga _ Hx) as [i Hi].
  destruct (wf_settled _ _ Hwf i _ Hi) as (t & Ht & Ho).
  exists i, t. split; [done|]. split; [done|].
  destruct (wf_started _ _ Hwf i) as [Hin|Hin]; [by eapply lookup_lt_Some| |done].
  destruct (wf_invoke _ _ Hwf i Hin) as [[rs Hrs] _]. congruence.
Qed.

(** Every task is called at most once, and a settled promise belongs to
    a task that was called. *)
Lemma invoked_all st :
  wf tasks st -> queue st = [] ->
  invoked st ≡ₚ seq 0 (length (results st)).
Proof.
  intros Hwf Hq. apply NoDup_Permutation.
  - by destruct Hwf.
  - apply NoDup_seq.
  - intros i. rewrite elem_of_seq. split.
    + intros Hi. destruct (wf_invoked _ _ Hwf i Hi). lia.
    + intros [_ Hi]. destruct (wf_started _ _ Hwf i) as [Hin|Hin]; [lia| |done].
      rewrite Hq in Hin. by apply elem_of_nil in Hin.
Qed.

End results.


(** ** Every step brings the end nearer *)

Section measure.
Context {V E : Type}.
Variable tasks : list (@task V E).
Variable concurrency : Z.
Implicit Types (st : @state V E) (q : list (@job V E)) (j : @job V E).
Local Open Scope nat_scope.

Lemma sum_list_with_insert {A} (f : A -> nat) (l : list A) i x y :
  l !! i = Some x ->
  sum_list_with f (<[i := y]> l) + f x = sum_list_with f l + f y.
Proof.
  revert i. induction l as [|z l IH]; intros i Hi; [done|].
  destruct i as [|i]; simpl in *.
  - injection Hi as ->. lia.
  - specialize (IH i Hi). lia.
Qed.

Lemma sum_list_with_le {A} (f g : A -> nat) (l : list A) :
  (forall x, f x <= g x) -> sum_list_with f l <= sum_list_with g l.
Proof.
  intros Hfg. induction l as [|x l IH]; simpl; [done|].
  specialize (Hfg x). lia.
Qed.

Lemma loop_weight_S n :
  n < length tasks ->
  loop_weight tasks n = loop_weight tasks (S n) + (length tasks + 7).
Proof.
  intros Hn. unfold loop_weight.
  replace (length tasks - n) with (S (length tasks - S n)) by lia. lia.
Qed.

Lemma loop_weight_mono n m :
  n <= m -> loop_weight tasks m <= loop_weight tasks n.
Proof.
  intros Hnm. unfold loop_weight.
  assert ((length tasks - m) * (length tasks + 7)
          <= (length tasks - n) * (length tasks + 7)); [|lia].
  apply Nat.mul_le_mono_r. lia.
Qed.

Lemma weight_mono l l' st : l <= l' -> weight l st <= weight l' st.
Proof.
  intros Hl. unfold weight.
  assert (sum_list_with (job_weight l) (queue st)
          <= sum_list_with (job_weight l') (queue st)).
  { apply sum_list_with_le. intros []; simpl; lia. }
  assert (sum_list_with (race_weight l) (races st)
          <= sum_list_with (race_weight l') (races st)).
  { apply sum_list_with_le. intros []; simpl; lia. }
  lia.
Qed.

Lemma weight_enqueue l js st :
  weight l (enqueue js st) = weight l st + sum_list_with (job_weight l) js.
Proof. unfold weight. simpl. rewrite sum_list_with_app. lia. Qed.

Lemma weight_reacts l i o (rs : list reaction) :
  sum_list_with (job_weight l) ((fun r => @JReact V E i r o) <$> rs) =
  sum_list_with reaction_weight rs.
Proof. induction rs as [|r rs IH]; simpl; [done|]. f_equal. apply IH. Qed.

Lemma weight_settle l i o st : weight l (settle i o st) = weight l st.
Proof.
  unfold settle. destruct (results st !! i) as [[rs|o']|] eqn:Hi; [|done..].
  rewrite weight_enqueue. rewrite weight_reacts. unfold weight. simpl.
  pose proof (sum_list_with_insert promise_weight _ _ _ (Settled o) Hi) as Hs.
  simpl in Hs. lia.
Qed.

Lemma weight_subscribe l i r st :
  weight l (subscribe i r st) <= weight l st + reaction_weight r.
Proof.
  unfold subscribe. destruct (results st !! i) as [[rs|o]|] eqn:Hi.
  - unfold weight. simpl.
    pose proof (sum_list_with_insert promise_weight _ _ _
                  (Pending (rs ++ [r])) Hi) as Hs.
    simpl in Hs. rewrite sum_list_with_app in Hs. simpl in Hs. lia.
  - rewrite weight_enqueue. simpl. lia.
  - lia.
Qed.

Lemma weight_subscribe_all l r ns st :
  weight l (subscribe_all r ns st)
  <= weight l st + length ns * reaction_weight r.
Proof.
  unfold subscribe_all. revert st.
  induction ns as [|i ns IH]; intros st; simpl; [lia|].
  etrans; [apply IH|]. pose proof (weight_subscribe l i r st). lia.
Qed.

Lemma weight_spawn l st : weight l (spawn st) = weight l st + 5.
Proof.
  unfold weight, spawn. simpl. rewrite !sum_list_with_app. simpl. lia.
Qed.

Lemma weight_race l st :
  weight l (race st) <= weight l st + length (executing st) + S l.
Proof.
  unfold race.
  etrans; [apply weight_subscribe_all|]. simpl.
  unfold weight. simpl. rewrite sum_list_with_app. simpl. lia.
Qed.

Lemma weight_finish l st :
  weight l (finish st) <= weight l st + 2 * length (results st) + 1.
Proof.
  unfold finish. destruct (length (results st)) as [|n] eqn:Hn.
  - rewrite weight_enqueue. unfold weight. simpl. lia.
  - etrans; [apply weight_subscribe_all|].
    rewrite length_seq. unfold weight. simpl. lia.
Qed.

Lemma length_results_race st :
  length (results (race st)) = length (results st).
Proof.
  unfold race.
  by destruct (subscribe_all_fields (RRace (length (races st))) (executing st)
                 (set_races (races st ++ [false]) st))
    as (_ & _ & _ & _ & _ & _ & _ & ->).
Qed.

Lemma length_results_finish st :
  length (results (finish st)) = length (results st).
Proof.
  unfold finish. destruct (length (results st)) as [|n] eqn:Hn; [done|].
  match goal with |- context [subscribe_all ?r ?l ?s] =>
    destruct (subscribe_all_fields r l s) as (_ & _ & _ & _ & _ & _ & _ & ->)
  end. done.
Qed.

(** The members of [executing] are indices of [results]. *)
Lemma length_executing st :
  wf tasks st -> length (executing st) <= length (results st).
Proof.
  intros Hwf.
  assert (length (results st) = length (seq 0 (length (results st)))) as ->
    by (by rewrite length_seq).
  apply submseteq_length, NoDup_submseteq; [by destruct Hwf|].
  intros i Hi. apply elem_of_seq. pose proof (wf_executing_lt _ _ Hwf i Hi). lia.
Qed.

(** What one run of the loop adds is less than what its continuation
    weighed. *)
Lemma weight_loop rest st l :
  length (results st) + length rest = length tasks ->
  wf tasks st ->
  l <= loop_weight tasks (length (results (loop concurrency rest st))) ->
  weight l (loop concurrency rest st) + 1
  <= weight l st + loop_weight tasks (length (results st)).
Proof.
  revert st. induction rest as [|t rest IH]; intros st Hlen Hwf Hl.
  - cbn [loop] in *. simpl in Hlen.
    pose proof (weight_finish l st). unfold loop_weight. lia.
  - cbn [loop] in *. simpl in Hlen.
    assert (wf tasks (spawn st)) as Hwf1 by (apply wf_spawn; [lia|done]).
    pose proof (weight_spawn l st) as Hsp.
    pose proof (length_results_spawn st) as Hn1.
    rewrite (loop_weight_S (length (results st))) by lia.
    case_decide.
    + rewrite length_results_race, Hn1 in Hl.
      pose proof (weight_race l (spawn st)).
      pose proof (length_executing _ Hwf1). lia.
    + specialize (IH (spawn st)). rewrite Hn1 in IH.
      assert (weight l (loop concurrency rest (spawn st)) + 1
              <= weight l (spawn st)
                 + loop_weight tasks (S (length (results st)))); [|lia].
      apply IH; [lia|done|done].
Qed.

Lemma measure_dequeue st j q :
  queue st = j :: q ->
  forall l, weight l st = weight l (set_queue q st) + job_weight l j.
Proof. intros Hq l. unfold weight. rewrite Hq. simpl. lia. Qed.

Lemma length_results_settle i o st :
  length (results (settle i o st)) = length (results st).
Proof.
  unfold settle. destruct (results st !! i) as [[]|]; simpl;
    by rewrite ?length_insert.
Qed.

Lemma length_results_loop rest st :
  length (results st) <= length (results (loop concurrency rest st)).
Proof.
  revert st. induction rest as [|t rest IH]; intros st; cbn [loop].
  - by rewrite length_results_finish.
  - case_decide.
    + rewrite length_results_race, length_results_spawn. lia.
    + etrans; [|apply IH]. rewrite length_results_spawn. lia.
Qed.

Lemma length_results_all_react i o st :
  length (results (all_react i o st)) = length (results st).
Proof.
  unfold all_react. destruct (all st) as [a|]; [|done].
  destruct o; [case_decide|]; destruct (all_settled a); done.
Qed.

Lemma weight_all_react l i o st : weight l (all_react i o st) <= weight l st + 1.
Proof.
  unfold all_react. destruct (all st) as [a|]; [|lia].
  destruct o; [case_decide|]; destruct (all_settled a);
    rewrite ?weight_enqueue; simpl; unfold weight; simpl; lia.
Qed.

(** A job that leaves the loop alone. *)
Lemma measure_plain st st' k :
  length (results st') = length (results st) ->
  (forall l, 2 <= l -> weight l st' + k < weight l st + k) ->
  measure tasks st' < measure tasks st.
Proof.
  intros Hlen Hw. unfold measure. rewrite Hlen.
  assert (2 <= loop_weight tasks (length (results st)))
    by (unfold loop_weight; nia).
  specialize (Hw _ ltac:(done)). lia.
Qed.

Lemma measure_run_job st j q :
  wf tasks st -> queue st = j :: q ->
  measure tasks (run_job tasks concurrency j (set_queue q st))
  < measure tasks st.
Proof.
  intros Hwf Hq.
  pose proof (measure_dequeue st j q Hq) as Hdq.
  destruct j as [i|i o|i r o|i|r o|o]; simpl.
  - destruct (tasks !! i) as [[o|o]|].
    + apply (measure_plain _ _ 0); [by rewrite length_results_settle|].
      intros l Hl. rewrite weight_settle. specialize (Hdq l). simpl in Hdq.
      change (weight l (record_call i (set_queue q st)))
        with (weight l (set_queue q st)). lia.
    + apply (measure_plain _ _ 0); [done|].
      intros l Hl. specialize (Hdq l).
      unfold weight in *. simpl in *. rewrite length_app. simpl. lia.
    + apply (measure_plain _ _ 0); [done|].
      intros l Hl. specialize (Hdq l). unfold weight in *. simpl in *. lia.
  - apply (measure_plain _ _ 0); [by rewrite length_results_settle|].
    intros l Hl. rewrite weight_settle. specialize (Hdq l). simpl in Hdq. lia.
  - destruct r as [|r|].
    + destruct o as [v|e]; (apply (measure_plain _ _ 0); [done|]);
        intros l Hl; specialize (Hdq l); rewrite ?weight_enqueue;
        unfold weight in *; simpl in *; lia.
    + apply (measure_plain _ _ 0).
      { by destruct (races st !! r) as [[|]|]. }
      intros l Hl; specialize (Hdq l).
      destruct (races st !! r) as [[|]|] eqn:Hr; simpl in *; try lia.
      rewrite weight_enqueue. simpl.
      pose proof (sum_list_with_insert (race_weight l) _ _ _ true Hr) as Hs.
      unfold weight in *. simpl in *. lia.
    + apply (measure_plain _ _ 0); [by rewrite length_results_all_react|].
      intros l Hl; specialize (Hdq l).
      pose proof (weight_all_react l i o (set_queue q st)). simpl in *. lia.
  - apply (measure_plain _ _ 0); [done|].
    intros l Hl; specialize (Hdq l). unfold weight in *. simpl in *. lia.
  - destruct o as [v|e].
    + unfold measure, resume. simpl.
      set (st' := loop concurrency _ _).
      set (l := loop_weight tasks (length (results st))).
      pose proof (length_results_loop (drop (length (results st)) tasks)
                    (set_queue q st)) as Hgrow.
      fold st' in Hgrow. simpl in Hgrow.
      pose proof (loop_weight_mono _ _ Hgrow) as Hmono.
      pose proof (weight_loop (drop (length (results st)) tasks)
                    (set_queue q st) (loop_weight tasks (length (results st'))))
        as Hloop.
      simpl in Hloop. rewrite length_drop in Hloop.
      pose proof (wf_length _ _ Hwf).
      specialize (Hloop ltac:(lia) ltac:(by eapply wf_dequeue) ltac:(done)).
      fold st' in Hloop.
      pose proof (weight_mono _ _ (set_queue q st) Hmono) as Hw.
      specialize (Hdq l). simpl in Hdq. fold l in Hloop, Hw. lia.
    + apply (measure_plain _ _ 0); [done|].
      intros l Hl; specialize (Hdq l).
      simpl in Hdq.
      unfold weight in *. simpl in *. lia.
  - apply (measure_plain _ _ 0); [done|].
    intros l Hl; specialize (Hdq l). unfold weight in *. simpl in *. lia.
Qed.

Lemma measure_step st ev st' :
  wf tasks st -> step tasks concurrency ev st = Some st' ->
  measure tasks st' < measure tasks st.
Proof.
  intros Hwf Hstep. destruct ev as [|i]; simpl in Hstep.
  - destruct (queue st) as [|j q] eqn:Hq; [done|].
    injection Hstep as <-. by apply measure_run_job.
  - case_decide as Hi; [|done].
    destruct (tasks !! i) as [[o|o]|] eqn:Ht; try done.
    injection Hstep as <-. unfold measure. rewrite weight_enqueue. simpl.
    unfold weight. simpl.
    assert (length (remove i (active st)) < length (active st))
      by (by apply length_remove_lt).
    lia.
Qed.

End measure.


(** ** Every run ends *)

Section termination.
Context {V E : Type}.
Variable tasks : list (@task V E).
Variable concurrency : Z.
Implicit Types (st : @state V E) (q : list (@job V E)) (j : @job V E).
Local Open Scope nat_scope.

Lemma reachable_nonpositive st :
  (concurrency <= 0)%Z ->
  reachable tasks concurrency st <-> reachable tasks 1 st.
Proof.
  intros Hc. split.
  - induction 1 as [|ev st st' _ IH Hstep].
    + unfold init. rewrite loop_nonpositive by done. constructor.
    + rewrite step_nonpositive in Hstep by done. by econstructor.
  - induction 1 as [|ev st st' _ IH Hstep].
    + replace (init tasks 1) with (init tasks concurrency);
        [constructor|by apply loop_nonpositive].
    + rewrite <- (step_nonpositive _ concurrency) in Hstep by done.
      by econstructor.
Qed.

Lemma reachable_wf st : reachable tasks concurrency st -> wf tasks st.
Proof.
  destruct (decide (1 <= concurrency)%Z) as [Hc|Hc].
  - by apply wf_reachable.
  - intros Hst%reachable_nonpositive; [|lia]. by eapply wf_reachable.
Qed.

(** No run from [st] is longer than [measure st]. *)
Lemma exec_measure evs st st' :
  reachable tasks concurrency st ->
  exec tasks concurrency evs st = Some st' ->
  length evs + measure tasks st' <= measure tasks st.
Proof.
  revert st. induction evs as [|ev evs IH]; intros st Hst Hexec; simpl in *.
  - injection Hexec as <-. lia.
  - destruct (step tasks concurrency ev st) as [st1|] eqn:Hstep; [|done].
    pose proof (measure_step _ _ _ _ _ (reachable_wf _ Hst) Hstep).
    assert (reachable tasks concurrency st1) by (by econstructor).
    specialize (IH st1 ltac:(done) Hexec). lia.
Qed.

Lemma next_event_None st : next_event st = None <-> quiescent st.
Proof.
  unfold next_event, quiescent.
  destruct (queue st), (active st); split; (done || by intros []).
Qed.

(** As long as something is left to do, something can happen. *)
Lemma next_event_step st ev :
  wf tasks st -> next_event st = Some ev ->
  exists st', step tasks concurrency ev st = Some st'.
Proof.
  intros Hwf. unfold next_event.
  destruct (queue st) as [|j q] eqn:Hq.
  - destruct (active st) as [|i a] eqn:Ha; [done|]. intros [= <-]. simpl.
    destruct (wf_active _ _ Hwf i) as (_ & _ & _ & o & Ho);
      [rewrite Ha; left|].
    rewrite Ha, Ho, decide_True by left. by eexists.
  - intros [= <-]. simpl. rewrite Hq. by eexists.
Qed.

Lemma run_reachable fuel st :
  reachable tasks concurrency st ->
  reachable tasks concurrency (run tasks concurrency fuel st).
Proof.
  revert st. induction fuel as [|fuel IH]; intros st Hst; simpl; [done|].
  destruct (next_event st) as [ev|]; simpl; [|done].
  destruct (step tasks concurrency ev st) as [st'|] eqn:Hstep; [|done].
  apply IH. by econstructor.
Qed.

Lemma run_quiescent fuel st :
  reachable tasks concurrency st -> measure tasks st <= fuel ->
  quiescent (run tasks concurrency fuel st).
Proof.
  revert st. induction fuel as [|fuel IH]; intros st Hst Hfuel; simpl.
  - apply next_event_None. destruct (next_event st) as [ev|] eqn:Hev; [|done].
    destruct (next_event_step st ev (reachable_wf _ Hst) Hev) as [st' Hstep].
    pose proof (measure_step _ _ _ _ _ (reachable_wf _ Hst) Hstep). lia.
  - destruct (next_event st) as [ev|] eqn:Hev; simpl;
      [|by apply next_event_None].
    destruct (next_event_step st ev (reachable_wf _ Hst) Hev) as [st' Hstep].
    rewrite Hstep.
    pose proof (measure_step _ _ _ _ _ (reachable_wf _ Hst) Hstep).
    apply IH; [by econstructor|lia].
Qed.

End termination.


(** ** The run as a caller sees it *)

Section outcomes.
Context {V E : Type}.
Variable tasks : list (@task V E).
Variable concurrency : Z.
Implicit Types (st : @state V E).
Local Open Scope nat_scope.

Lemma reachable_max st :
  reachable tasks concurrency st ->
  reachable tasks (Z.max 1 concurrency) st.
Proof.
  destruct (decide (1 <= concurrency)%Z) as [Hc|Hc].
  - by rewrite Z.max_r.
  - rewrite Z.max_l by lia. apply reachable_nonpositive. lia.
Qed.

(** A state is final or has a successor. *)
Lemma run_ends st :
  reachable tasks concurrency st ->
  quiescent st \/ exists ev st', step tasks concurrency ev st = Some st'.
Proof.
  intros Hst. destruct (next_event st) as [ev|] eqn:Hev.
  - right. exists ev. eapply next_event_step; [|done]. by eapply reachable_wf.
  - left. by apply next_event_None.
Qed.

(** Whatever was started has settled with its own outcome when the run
    is over. *)
Lemma invoked_settled st i :
  reachable tasks concurrency st -> quiescent st -> i ∈ invoked st ->
  exists t, tasks !! i = Some t /\
            results st !! i = Some (Settled (task_outcome t)).
Proof.
  intros Hwf%reachable_wf Hq Hi.
  destruct (wf_invoked _ _ Hwf i Hi) as [Hlt _].
  destruct (lookup_lt_is_Some_2 _ _ Hlt) as [[rs|o] Hp].
  - by destruct (quiescent_settled tasks st i rs).
  - destruct (wf_settled _ _ Hwf i o Hp) as (t & Ht & <-). by exists t.
Qed.

Lemma settled_fulfilled st vs :
  reachable tasks concurrency st -> quiescent st ->
  result st = Some (Fulfilled vs) ->
  vs = expected tasks /\ invoked st ≡ₚ seq 0 (length tasks).
Proof.
  intros Hst Hq Hres.
  destruct (result_fulfilled tasks (Z.max 1 concurrency) ltac:(lia) st vs
              (reachable_max _ Hst) Hres) as (_ & -> & <-).
  split; [done|].
  apply (invoked_all tasks); [by eapply reachable_wf|apply Hq].
Qed.

Lemma settled_rejected st :
  reachable tasks concurrency st -> quiescent st ->
  ~ Forall succeeds tasks ->
  exists e, result st = Some (Rejected e).
Proof.
  intros Hst Hq Hfail.
  destruct (quiescent_result tasks (Z.max 1 concurrency) ltac:(lia) st
              (reachable_max _ Hst) Hq) as [[vs|e] Hres]; [|by exists e].
  by destruct (result_fulfilled tasks (Z.max 1 concurrency) ltac:(lia) st vs
                 (reachable_max _ Hst) Hres) as (? & _).
Qed.

Lemma rejected_cause st e :
  reachable tasks concurrency st -> result st = Some (Rejected e) ->
  exists i t, tasks !! i = Some t /\ task_outcome t = Rejected e /\
              i ∈ invoked st.
Proof.
  intros Hst Hres.
  exact (result_rejected tasks (Z.max 1 concurrency) ltac:(lia) st e
           (reachable_max _ Hst) Hres).
Qed.

Lemma settled_succeeds st :
  reachable tasks concurrency st -> quiescent st ->
  Forall succeeds tasks ->
  result st = Some (Fulfilled (expected tasks)).
Proof.
  intros Hst Hq Hok.
  destruct (quiescent_result tasks (Z.max 1 concurrency) ltac:(lia) st
              (reachable_max _ Hst) Hq) as [[vs|e] Hres].
  - by destruct (settled_fulfilled st vs Hst Hq Hres) as [<- _].
  - destruct (rejected_cause st e Hst Hres) as (i & t & Hi & Ht & _).
    apply (Forall_lookup_1 _ _ _ _ Hok) in Hi.
    unfold succeeds in Hi. rewrite Ht in Hi. by destruct Hi.
Qed.

Lemma expected_lookup i t :
  succeeds t -> tasks !! i = Some t ->
  exists v, task_outcome t = Fulfilled v /\
            expected tasks !! i = Some (Some v).
Proof.
  intros Hok Hi. unfold expected. rewrite list_lookup_fmap, Hi. simpl.
  unfold succeeds in Hok. unfold value_of.
  destruct (task_outcome t) as [v|e]; [by exists v|by destruct Hok].
Qed.

End outcomes.


(** ** The claims about [parallel] *)

Section claims.
Context {V E : Type}.
Implicit Types (st : @state V E) (tasks : list (@task V E)).
Local Open Scope nat_scope.

(** C2 (as amended): a failure does not abort the tasks that have been
    started, but it can keep the rest of the batch from starting, and the
    promise of [parallel] shows one failure only.  Every run is finite and
    goes on until nothing is left to do; at its end every task that was
    invoked has settled with its own outcome; if every task succeeds they
    have all been invoked, once each; if one fails the promise is rejected
    with the error of a failed task that was invoked. *)
Theorem parallel_failure_policy tasks (concurrency : Z) evs st :
  exec tasks concurrency evs (init tasks concurrency) = Some st ->
  length evs <= measure tasks (init tasks concurrency) /\
  (quiescent st \/ exists ev st', step tasks concurrency ev st = Some st') /\
  (quiescent st ->
     (forall i, i ∈ invoked st ->
        exists t, tasks !! i = Some t /\
                  results st !! i = Some (Settled (task_outcome t))) /\
     (Forall succeeds tasks -> invoked st ≡ₚ seq 0 (length tasks)) /\
     (~ Forall succeeds tasks ->
        exists e i t, result st = Some (Rejected e) /\
                      tasks !! i = Some t /\
                      task_outcome t = Rejected e /\ i ∈ invoked st)).
Proof.
  intros Hexec.
  assert (reachable tasks concurrency st) as Hst
    by (eapply reachable_exec; [constructor|done]).
  split; [|split; [by apply run_ends|]].
  { pose proof (exec_measure _ _ _ _ _ (reachable_init _ _) Hexec). lia. }
  intros Hq. split; [|split].
  - intros i Hi. by eapply invoked_settled.
  - intros Hok.
    eapply settled_fulfilled; [done..|by eapply settled_succeeds].
  - intros Hfail.
    destruct (settled_rejected _ _ _ Hst Hq Hfail) as [e He].
    destruct (rejected_cause _ _ _ _ Hst He) as (i & t & Hi & Ht & Hin).
    by exists e, i, t.
Qed.

(** C3 (as amended): a concurrency of zero or less is no error.  The
    batch runs exactly as with a concurrency of 1, one task at a time: the
    first task of a batch that has one is invoked by the first microtask,
    and if the promise of [parallel] is rejected the error is that of a
    task. *)
Theorem parallel_nonpositive_concurrency tasks (concurrency : Z) :
  (concurrency <= 0)%Z ->
  init tasks concurrency = init tasks 1 /\
  (forall evs st, exec tasks concurrency evs st = exec tasks 1 evs st) /\
  (tasks <> [] ->
     exists st, step tasks concurrency Tick (init tasks concurrency) = Some st
                /\ invoked st = [0]) /\
  (forall st e, reachable tasks concurrency st ->
     result st = Some (Rejected e) ->
     exists i t, tasks !! i = Some t /\ task_outcome t = Rejected e /\
                 i ∈ invoked st).
Proof.
  intros Hc. split; [by apply loop_nonpositive|]. split; [|split].
  - induction evs as [|ev evs IH]; intros st; simpl; [done|].
    rewrite step_nonpositive by done.
    destruct (step tasks 1 ev st); [apply IH|done].
  - intros Hne. destruct tasks as [|t rest]; [done|].
    unfold init. cbn [loop]. rewrite decide_True by (simpl; lia).
    destruct t as [o|o]; eexists; (split; [reflexivity|]); simpl.
    + unfold settle. simpl. done.
    + done.
  - intros st e. apply rejected_cause.
Qed.

(** C4 (as amended): when every task of the batch succeeds, whatever the
    order in which they complete, every run is finite and goes on until
    nothing is left to do, and at its end the promise of [parallel] is
    fulfilled with as many values as there are tasks, the value at
    position [i] being that of the task at position [i], every task
    having been invoked exactly once. *)
Theorem parallel_results_in_order tasks (concurrency : Z) evs st :
  Forall succeeds tasks ->
  exec tasks concurrency evs (init tasks concurrency) = Some st ->
  length evs <= measure tasks (init tasks concurrency) /\
  (quiescent st \/ exists ev st', step tasks concurrency ev st = Some st') /\
  (quiescent st ->
     exists vs, result st = Some (Fulfilled vs) /\
       length vs = length tasks /\
       (forall i t, tasks !! i = Some t ->
          exists v, task_outcome t = Fulfilled v /\
                    vs !! i = Some (Some v)) /\
       invoked st ≡ₚ seq 0 (length tasks)).
Proof.
  intros Hok Hexec.
  assert (reachable tasks concurrency st) as Hst
    by (eapply reachable_exec; [constructor|done]).
  split; [|split; [by apply run_ends|]].
  { pose proof (exec_measure _ _ _ _ _ (reachable_init _ _) Hexec). lia. }
  intros Hq. exists (expected tasks).
  pose proof (settled_succeeds _ _ _ Hst Hq Hok) as Hres.
  split; [done|]. split; [|split].
  - unfold expected. by rewrite length_fmap.
  - intros i t Hi. apply expected_lookup; [|done].
    by apply (Forall_lookup_1 _ _ _ _ Hok) in Hi.
  - by eapply settled_fulfilled.
Qed.

(** C9: on the empty batch, whatever the concurrency, the promise of
    [parallel] is fulfilled with the empty array by the first microtask,
    nothing is left to do after it, and no state of the run has a task
    that was invoked or is in flight. *)
Theorem parallel_empty_batch (concurrency : Z) :
  exists st : @state V E,
    step [] concurrency Tick (init [] concurrency) = Some st /\
    result st = Some (Fulfilled []) /\
    quiescent st /\
    forall st', reachable [] concurrency st' ->
      invoked st' = [] /\ active st' = [] /\ results st' = [].
Proof.
  eexists. split; [reflexivity|]. split; [reflexivity|].
  split; [by split|].
  intros st' Hst'.
  assert (st' = init [] concurrency \/
          step [] concurrency Tick (init [] concurrency) = Some st')
    as [->| [= <-]]; [|done..].
  induction Hst' as [|ev st1 st2 _ [->|Hst1] Hstep]; [by left| |].
  - destruct ev as [|i]; [by right|done].
  - injection Hst1 as <-. by destruct ev.
Qed.

End claims.

(** The scenario of the specification for C1: three timers of 200, 50 and
    100 ms with a concurrency of 2.  When the first two are in flight the
    third has not been started. *)
Lemma parallel_respects_concurrency_witness :
  exists st,
    exec three_timers 2 [Tick; Tick] (init three_timers 2) = Some st /\
    active st = [0; 1]%nat /\ hwm st = 2%nat /\
    (Z.of_nat (hwm st) <= 2)%Z /\
    (Z.of_nat (length (active st)) <= 2)%Z /\
    (Z.of_nat (length (executing st)) <= 2)%Z.
Proof.
  eexists. split; [vm_compute; reflexivity|].
  split; [reflexivity|]. split; [reflexivity|].
  apply (parallel_respects_concurrency three_timers 2); [lia|].
  apply (reachable_exec three_timers 2 [Tick; Tick] (init three_timers 2));
    [apply reachable_init|vm_compute; reflexivity].
Defined.

(** C2 as stated fails: the first task of the batch throws, the second
    would succeed; with a concurrency of 1 the run is over after five
    microtasks, the second task has never been invoked and the promise is
    rejected. *)
Lemma parallel_failure_halts_batch :
  exists st,
    exec fail_then_ok 1 (replicate 5 Tick) (init fail_then_ok 1) = Some st /\
    quiescent st /\
    fail_then_ok !! 1%nat = Some (Sync (Fulfilled 11%nat)) /\
    invoked st = [0%nat] /\
    result st = Some (Rejected 7%nat).
Proof. eexists. split; [vm_compute; reflexivity|]. by repeat split. Qed.

Lemma parallel_failure_policy_witness :
  exists st,
    exec fail_then_ok 1 (replicate 5 Tick) (init fail_then_ok 1) = Some st /\
    (5 <= measure fail_then_ok (init fail_then_ok 1))%nat /\
    exists e i t, result st = Some (Rejected e) /\
                  fail_then_ok !! i = Some t /\
                  task_outcome t = Rejected e /\ i ∈ invoked st.
Proof.
  eexists. split; [vm_compute; reflexivity|].
  destruct (parallel_failure_policy fail_then_ok 1 (replicate 5 Tick) _
              ltac:(vm_compute; reflexivity)) as (Hlen & _ & Hend).
  split; [exact Hlen|].
  destruct (Hend ltac:(by split)) as (_ & _ & Hfail).
  apply Hfail. intros Hok. apply Forall_cons_1 in Hok as [[v Hv] _]. done.
Defined.

(** C3 as stated fails: with a concurrency of 0 the one task of the batch
    is invoked and the promise is fulfilled with its value. *)
Lemma parallel_zero_concurrency_runs :
  exists st,
    exec one_ok 0 (replicate 6 Tick) (init one_ok 0) = Some st /\
    quiescent st /\
    invoked st = [0%nat] /\
    result st = Some (Fulfilled [Some 11%nat]).
Proof. eexists. split; [vm_compute; reflexivity|]. by repeat split. Qed.

Lemma parallel_nonpositive_concurrency_witness :
  init one_ok (-3) = init one_ok 1 /\
  exists st, step one_ok (-3) Tick (init one_ok (-3)) = Some st /\
             invoked st = [0%nat].
Proof.
  destruct (parallel_nonpositive_concurrency one_ok (-3) ltac:(lia))
    as (Hinit & _ & Hfirst & _).
  split; [exact Hinit|]. by apply Hfirst.
Defined.

(** C4 as stated fails: the two tasks are timers, the second one fails
    before the first one succeeds; with a concurrency of 2 the promise is
    rejected with the error, and the value of the first task is nowhere in
    what [parallel] returns. *)
Lemma parallel_rejects_without_results :
  exists st,
    exec slow_ok_fast_fail 2
      ([Tick; Tick; Complete 1%nat] ++ replicate 5 Tick ++
       [Complete 0%nat] ++ replicate 3 Tick)
      (init slow_ok_fast_fail 2) = Some st /\
    quiescent st /\
    results st = [Settled (Fulfilled 10%nat); Settled (Rejected 7%nat)] /\
    result st = Some (Rejected 7%nat).
Proof. eexists. split; [vm_compute; reflexivity|]. by repeat split. Qed.

(** The three timers complete in the order 1, 2, 0; the values come in the
    order of the batch. *)
Lemma parallel_results_in_order_witness :
  exists st,
    exec three_timers 2
      ([Tick; Tick; Complete 1%nat] ++ replicate 5 Tick ++
       [Complete 2%nat] ++ replicate 4 Tick ++
       [Complete 0%nat] ++ replicate 8 Tick)
      (init three_timers 2) = Some st /\
    exists vs, result st = Some (Fulfilled vs) /\
      length vs = 3%nat /\
      (forall i t, three_timers !! i = Some t ->
         exists v, task_outcome t = Fulfilled v /\ vs !! i = Some (Some v)) /\
      invoked st ≡ₚ [0; 1; 2]%nat.
Proof.
  eexists. split; [vm_compute; reflexivity|].
  eapply (parallel_results_in_order three_timers 2
            ([Tick; Tick; Complete 1%nat] ++ replicate 5 Tick ++
             [Complete 2%nat] ++ replicate 4 Tick ++
             [Complete 0%nat] ++ replicate 8 Tick)).
  - unfold three_timers. repeat apply Forall_cons_2; try by eexists.
    apply Forall_nil_2.
  - vm_compute; reflexivity.
  - by split.
Defined.


End ParallelSpec.


(** * Rounding keeps the floor where it is *)
Module DoubleSpec.
Import Double.

Lemma nearest_even_spec n d :
  0 < d -> 2 * n - d <= 2 * nearest_even n d * d <= 2 * n + d.
Proof.
  intros Hd. unfold nearest_even.
  pose proof (Z.div_mod n d ltac:(lia)) as Hn.
  pose proof (Z.mod_pos_bound n d Hd) as Hr.
  set (q := n / d) in *. set (r := n mod d) in *.
  repeat case_decide; try destruct (Z.even q); nia.
Qed.

Lemma nearest_even_ge n d : 0 < d -> n / d <= nearest_even n d.
Proof.
  intros Hd. unfold nearest_even.
  repeat case_decide; try destruct (Z.even _); lia.
Qed.

(** [Math.floor(Math.random() * n)] is an index from 0 to [n - 1], the
    rounding of the product notwithstanding. *)
Lemma floor_times x n :
  unit_interval x -> 0 < n -> 0 <= floor (times x n) < n.
Proof.
  destruct x as [m e]. unfold unit_interval, times, floor. simpl.
  intros (Hm & He & Hlt) Hn.
  set (k := - e) in *.
  assert (0 < 2 ^ k) as Hk by (apply Z.pow_pos_nonneg; lia).
  assert (m * n < n * 2 ^ k) as Hprod by nia.
  case_decide as Hsmall; simpl.
  - rewrite Z.shiftl_div_pow2 by lia. fold k. split.
    + apply Z.div_pos; nia.
    + apply Z.div_lt_upper_bound; lia.
  - set (P := m * n) in *.
    assert (0 < P) as HP by (assert (0 < 2 ^ 53) by (by apply Z.pow_pos_nonneg); lia).
    destruct (Z.log2_spec P HP) as [Hlo Hhi].
    assert (53 <= Z.log2 P) as HL.
    { apply Z.log2_le_pow2; lia. }
    set (s := Z.log2 P - 52) in *.
    assert (0 < 2 ^ s) as Hs by (apply Z.pow_pos_nonneg; lia).
    pose proof (nearest_even_spec P (2 ^ s) Hs) as Hsig.
    set (sig := nearest_even P (2 ^ s)) in *.
    assert (2 ^ Z.log2 P = 2 ^ 52 * 2 ^ s) as HeqL.
    { rewrite <- Z.pow_add_r by lia. f_equal. lia. }
    assert (2 ^ s = 2 * 2 ^ (s - 1)) as Hs1.
    { rewrite <- Z.pow_succ_r by lia. f_equal. lia. }
    assert (2 ^ (s - 1) < n) as Hhalf by nia.
    assert (0 < sig) as Hsig0 by nia.
    assert (sig * 2 ^ s < n * 2 ^ k) as Hup by nia.
    destruct (Z_le_gt_dec 0 (e + s)) as [Hes|Hes].
    + rewrite Z.shiftl_mul_pow2 by lia.
      assert (2 ^ s = 2 ^ (e + s) * 2 ^ k) as Hsplit.
      { rewrite <- Z.pow_add_r by lia. f_equal. lia. }
      assert (0 < 2 ^ (e + s)) by (apply Z.pow_pos_nonneg; lia).
      split; nia.
    + rewrite Z.shiftl_div_pow2 by lia.
      assert (2 ^ k = 2 ^ (- (e + s)) * 2 ^ s) as Hsplit.
      { rewrite <- Z.pow_add_r by lia. f_equal. lia. }
      assert (0 < 2 ^ (- (e + s))) by (apply Z.pow_pos_nonneg; lia).
      split.
      * apply Z.div_pos; lia.
      * apply Z.div_lt_upper_bound; [lia|].
        apply (Z.mul_lt_mono_pos_r (2 ^ s)); [lia|].
        rewrite Hsplit in Hup. lia.
Qed.

Lemma divide_exponent a b :
  0 < a -> 0 < b ->
  let e0 := Z.log2 a - Z.log2 b in
  let e :=
    if decide (b * 2 ^ Z.max e0 0 <= a * 2 ^ Z.max (- e0) 0) then e0
    else e0 - 1 in
  e <= Z.log2 a /\ b * 2 ^ Z.max e 0 <= a * 2 ^ Z.max (- e) 0.
Proof.
  intros Ha Hb.
  destruct (Z.log2_spec a Ha) as [Halo Hahi].
  destruct (Z.log2_spec b Hb) as [Hblo Hbhi].
  pose proof (Z.log2_nonneg a) as Hla. pose proof (Z.log2_nonneg b) as Hlb.
  set (la := Z.log2 a) in *. set (lb := Z.log2 b) in *.
  simpl. case_decide as He; [split; [lia|done]|].
  split; [lia|]. clear He.
  rewrite Z.pow_succ_r in Hbhi by lia.
  destruct (Z_le_gt_dec 0 (la - lb - 1)) as [Hpos|Hneg].
  - rewrite Z.max_l, Z.max_r, Z.mul_1_r by lia.
    assert (2 ^ la = 2 * 2 ^ lb * 2 ^ (la - lb - 1)) as Hsplit.
    { rewrite <- Z.pow_succ_r, <- Z.pow_add_r by lia. f_equal. lia. }
    assert (0 < 2 ^ (la - lb - 1)) by (apply Z.pow_pos_nonneg; lia).
    nia.
  - rewrite Z.max_r, Z.max_l, Z.mul_1_r by lia.
    assert (2 * 2 ^ lb = 2 ^ la * 2 ^ (- (la - lb - 1))) as Hsplit.
    { rewrite <- Z.pow_succ_r, <- Z.pow_add_r by lia. f_equal. lia. }
    assert (0 < 2 ^ (- (la - lb - 1))) by (apply Z.pow_pos_nonneg; lia).
    nia.
Qed.

(** The quotient of two integers below [2^53], rounded and then rounded
    down, is the quotient of the integers rounded down. *)
Lemma floor_divide a b :
  0 <= a < 2 ^ 53 -> 0 < b < 2 ^ 53 -> floor (divide a b) = a / b.
Proof.
  intros Ha Hb. unfold divide.
  case_decide as Hzero; [by subst|].
  assert (0 < a) as Hpos by lia.
  destruct (divide_exponent a b Hpos ltac:(lia)) as [Hle Hquot].
  assert (Z.log2 a < 53) as Hla by (apply Z.log2_lt_pow2; lia).
  simpl in Hle, Hquot. cbv zeta.
  set (e := if decide (_ <= _) then _ else _) in *.
  unfold floor. simpl.
  rewrite (Z.max_l (52 - e)), (Z.max_r (- (52 - e))), Z.mul_1_r by lia.
  set (s := 52 - e) in *.
  rewrite Z.shiftl_div_pow2, Z.opp_involutive by lia.
  assert (0 < 2 ^ s) as Hs by (apply Z.pow_pos_nonneg; lia).
  pose proof (nearest_even_spec (a * 2 ^ s) b ltac:(lia)) as Hsig.
  pose proof (nearest_even_ge (a * 2 ^ s) b ltac:(lia)) as Hge.
  set (sig := nearest_even (a * 2 ^ s) b) in *.
  pose proof (Z.mul_div_le a b ltac:(lia)) as Hlo.
  pose proof (Z.mul_succ_div_gt a b ltac:(lia)) as Hhi.
  set (t := a / b) in *.
  assert (t * 2 ^ s <= sig) as Hlower.
  { etrans; [|exact Hge]. apply Z.div_le_lower_bound; [lia|]. nia. }
  assert (b < 2 * 2 ^ s) as Hb2.
  { rewrite <- Z.pow_succ_r by lia.
    destruct (Z_le_gt_dec 0 e) as [He|He].
    - rewrite Z.max_l, Z.max_r, Z.mul_1_r in Hquot by lia.
      assert (2 ^ 53 = 2 ^ e * 2 ^ Z.succ s) as Hsplit.
      { rewrite <- Z.pow_add_r by lia. f_equal. lia. }
      assert (0 < 2 ^ e) by (apply Z.pow_pos_nonneg; lia).
      nia.
    - assert (2 ^ 53 <= 2 ^ Z.succ s) by (apply Z.pow_le_mono_r; lia). lia. }
  assert (sig < (t + 1) * 2 ^ s) as Hupper by nia.
  symmetry. apply (Z.div_unique sig (2 ^ s) t (sig - t * 2 ^ s)); lia.
Qed.

Lemma round_small z : Z.abs z < 2 ^ 53 -> round z = z.
Proof. intros Hz. unfold round. by rewrite decide_True. Qed.

Lemma round_opp z : round (- z) = - round z.
Proof.
  unfold round. rewrite Z.abs_opp, Z.sgn_opp.
  case_decide; lia.
Qed.

Lemma sixteenths_unit k : unit_interval (sixteenths k).
Proof.
  pose proof (Z.mod_pos_bound (Z.of_nat k * 5) 16 ltac:(lia)) as Hk.
  unfold unit_interval, sixteenths. simpl.
  change (2 ^ 4) with 16. change (2 ^ 53) with 9007199254740992. lia.
Defined.

End DoubleSpec.



(** * Properties of [clamp], [hash] and [timeDiff] *)
Module NumbersSpec.
Import Numbers.

Lemma to_int32_range x : - 2 ^ 31 <= to_int32 x < 2 ^ 31.
Proof. unfold to_int32. pose proof (Z.mod_pos_bound (x + 2 ^ 31) (2 ^ 32)). lia. Qed.

Lemma to_int32_mod x : to_int32 x mod 2 ^ 32 = x mod 2 ^ 32.
Proof.
  unfold to_int32.
  rewrite <- Zminus_mod_idemp_l, Z.mod_mod by lia.
  rewrite Zminus_mod_idemp_l. f_equal. lia.
Qed.

Lemma to_int32_eq x y : x mod 2 ^ 32 = y mod 2 ^ 32 -> to_int32 x = to_int32 y.
Proof.
  intros Hxy. unfold to_int32.
  rewrite <- (Zplus_mod_idemp_l x), <- (Zplus_mod_idemp_l y), Hxy. done.
Qed.

Lemma to_int32_small x : - 2 ^ 31 <= x < 2 ^ 31 -> to_int32 x = x.
Proof. intros Hx. unfold to_int32. rewrite Z.mod_small; lia. Qed.

Lemma hash_step_poly hash c :
  to_int32 (shl32 hash 5 - hash + c) = to_int32 (31 * hash + c).
Proof.
  apply to_int32_eq. unfold shl32.
  rewrite <- Zplus_mod_idemp_l, <- Zminus_mod_idemp_l, to_int32_mod.
  rewrite Z.shiftl_mul_pow2 by lia.
  rewrite <- Zmult_mod_idemp_l, to_int32_mod, Zmult_mod_idemp_l.
  rewrite Zminus_mod_idemp_l, Zplus_mod_idemp_l. f_equal. lia.
Qed.

Lemma hash_step_int32 acc c :
  to_int32 (31 * to_int32 acc + c) = to_int32 (31 * acc + c).
Proof.
  apply to_int32_eq.
  rewrite <- Zplus_mod_idemp_l, <- Zmult_mod_idemp_r, to_int32_mod.
  by rewrite Zmult_mod_idemp_r, Zplus_mod_idemp_l.
Qed.

Lemma hash_loop_cons c str hash :
  hash_loop (c :: str) hash =
  hash_loop str (to_int32 (shl32 hash 5 - hash + c)).
Proof. reflexivity. Qed.

Lemma hash_loop_poly str acc :
  hash_loop str (to_int32 acc) = to_int32 (poly31 str acc).
Proof.
  revert acc. induction str as [|c str IH]; intros acc; [done|].
  change (poly31 (c :: str) acc) with (poly31 str (31 * acc + c)).
  by rewrite hash_loop_cons, hash_step_poly, hash_step_int32, IH.
Qed.

Lemma poly31_app s t acc : poly31 (s ++ t) acc = poly31 t (poly31 s acc).
Proof. unfold poly31. by rewrite foldl_app. Qed.

(** X1: The number behind [hash(str)] is the polynomial
    [str[0]*31^(n-1) + ... + str[n-1]] brought back to 32 bits, and [hash]
    prints its absolute value, at most 2^31. *)
Theorem hash_code_polynomial str :
  hash_code str = to_int32 (poly31 str 0) /\
  hash str = to_hex (Z.abs (to_int32 (poly31 str 0))) /\
  0 <= Z.abs (hash_code str) <= 2 ^ 31.
Proof.
  assert (hash_code str = to_int32 (poly31 str 0)) as Hcode
    by exact (hash_loop_poly str 0).
  split; [done|]. split; [unfold hash; by rewrite Hcode|].
  pose proof (to_int32_range (poly31 str 0)). rewrite Hcode. lia.
Qed.

(** X2: [hash] tells no two strings apart that differ by one up in a code
    unit and 31 down in the next: such strings are strings both, are not
    the same, and have the same hash. *)
Theorem hash_collision s a b t :
  code_units (s ++ a :: b :: t) -> a < 65535 -> 31 <= b ->
  code_units (s ++ (a + 1) :: (b - 31) :: t) /\
  s ++ (a + 1) :: (b - 31) :: t <> s ++ a :: b :: t /\
  hash (s ++ (a + 1) :: (b - 31) :: t) = hash (s ++ a :: b :: t).
Proof.
  intros Hstr Ha Hb. split; [|split].
  - unfold code_units in *. rewrite !Forall_app, !Forall_cons in *.
    destruct Hstr as (Hs & Ha' & Hb' & Ht). repeat split; (done || lia).
  - intros Heq. apply app_inv_head in Heq. injection Heq. lia.
  - unfold hash, hash_code.
    change 0 with (to_int32 0). rewrite !hash_loop_poly. do 3 f_equal.
    rewrite !poly31_app. simpl. f_equal. lia.
Qed.

Lemma hash_collision_witness :
  hash [65; 97] = hash [66; 66] /\ hash [66; 66] = "840"%string.
Proof.
  split; [|reflexivity].
  destruct (hash_collision [] 65 97 []) as (_ & _ & Heq); [|lia|lia|].
  - repeat constructor; lia.
  - symmetry. exact Heq.
Defined.

(** X3: With [min <= max], [clamp] gives the point of the range from [min] to
    [max] nearest to the value: the value itself in the range, the bound
    it passes otherwise; clamping twice changes nothing, and the order of
    values is kept. *)
Theorem clamp_range value min max :
  min <= max ->
  min <= clamp value min max <= max /\
  (min <= value <= max -> clamp value min max = value) /\
  (value <= min -> clamp value min max = min) /\
  (max <= value -> clamp value min max = max) /\
  clamp (clamp value min max) min max = clamp value min max /\
  (forall value', value <= value' ->
     clamp value min max <= clamp value' min max).
Proof. unfold clamp. intros. repeat split; intros; lia. Qed.

Lemma clamp_range_witness :
  clamp 15 0 10 = 10 /\ clamp (-5) 0 10 = 0 /\ clamp 5 0 10 = 5.
Proof.
  destruct (clamp_range 15 0 10 ltac:(lia)) as (_ & _ & _ & Hmax & _).
  destruct (clamp_range (-5) 0 10 ltac:(lia)) as (_ & _ & Hmin & _).
  destruct (clamp_range 5 0 10 ltac:(lia)) as (_ & Hin & _).
  split; [apply Hmax; lia|]. split; [apply Hmin; lia|apply Hin; lia].
Defined.

(** X4: With the bounds the wrong way round, [min > max], there is no error:
    [clamp] gives [max] whatever the value, a number below [min]. *)
Theorem clamp_inverted value min max :
  max < min ->
  clamp value min max = max /\ clamp value min max < min.
Proof. unfold clamp. lia. Qed.

Lemma clamp_inverted_witness : clamp 5 10 0 = 0.
Proof. apply (clamp_inverted 5 10 0). lia. Defined.

Lemma timeDiff_exact start end_ :
  Z.abs (end_ - start) < 2 ^ 53 ->
  timeDiff start end_ =
  let diff := Z.abs (end_ - start) in
  {| milliseconds := diff;
     seconds := diff / 1000;
     minutes := diff / (1000 * 60);
     hours := diff / (1000 * 60 * 60);
     days := diff / (1000 * 60 * 60 * 24) |}.
Proof.
  intros Hdiff. unfold timeDiff.
  rewrite DoubleSpec.round_small by done. cbv zeta.
  rewrite !DoubleSpec.floor_divide by lia. done.
Qed.

(** Two dates at the two ends of the range of [Date]: the difference has
    54 bits and is rounded to an even number. *)
Lemma timeDiff_rounds :
  milliseconds (timeDiff (-8640000000000000) 8639999999999999)
  = 17280000000000000.
Proof. vm_compute. reflexivity. Qed.

(** X5: [timeDiff] does not depend on the order of its two dates and its
    milliseconds are not negative.  For two dates less than [2^53]
    milliseconds apart, the milliseconds are the difference, and each
    other field is the whole difference in its unit, rounded down, not
    what is left after the larger units: the seconds are not below 60, and
    each field is the one before it divided by 60, 60 or 24.  The rounding
    of the quotients does not show. *)
Theorem timeDiff_totals start end_ :
  let d := timeDiff start end_ in
  timeDiff end_ start = d /\
  0 <= milliseconds d /\
  (Z.abs (end_ - start) < 2 ^ 53 ->
   milliseconds d = Z.abs (end_ - start) /\
   1000 * seconds d <= milliseconds d < 1000 * seconds d + 1000 /\
   minutes d = seconds d / 60 /\
   hours d = minutes d / 60 /\
   days d = hours d / 24).
Proof.
  cbv zeta. split; [|split].
  - unfold timeDiff.
    replace (start - end_) with (- (end_ - start)) by lia.
    by rewrite DoubleSpec.round_opp, Z.abs_opp.
  - simpl. lia.
  - intros Hdiff. rewrite timeDiff_exact by done. simpl.
    split; [done|]. split; [|split; [|split]].
    + pose proof (Z.mul_div_le (Z.abs (end_ - start)) 1000 ltac:(lia)).
      pose proof (Z.mul_succ_div_gt (Z.abs (end_ - start)) 1000 ltac:(lia)).
      lia.
    + rewrite Z.div_div by lia. done.
    + rewrite Z.div_div by lia. done.
    + rewrite Z.div_div by lia. done.
Qed.

(** One day, one hour, one minute, one second and one millisecond. *)
Lemma timeDiff_totals_witness :
  timeDiff 0 90061001 = TimeUnits 90061001 90061 1501 25 1 /\
  timeDiff 90061001 0 = timeDiff 0 90061001 /\
  1501 = 90061 / 60.
Proof.
  destruct (timeDiff_totals 0 90061001) as (Hsym & _ & Hfields).
  destruct Hfields as (_ & _ & Hmin & _); [vm_compute; reflexivity|].
  split; [vm_compute; reflexivity|]. split; [exact Hsym|exact Hmin].
Defined.

End NumbersSpec.


(** * Properties of [chunk] and [shuffle] *)
Module ArraysSpec.
Import Arrays.

Section chunk.
Context {A : Type}.
Implicit Types (array : list A) (chunks : list (list A)).

(** Inside the array and going forward, [slice] is [drop] then [take]. *)
Lemma slice_forward array (i size : Z) :
  0 <= i -> 0 <= size ->
  slice array i (i + size) =
  take (Z.to_nat size) (drop (Z.to_nat i) array).
Proof.
  intros Hi Hsize. unfold slice.
  rewrite !decide_False by lia.
  destruct (decide (i <= Z.of_nat (length array))) as [Hle|Hgt].
  - rewrite (Z.min_l i) by lia.
    destruct (decide (i + size <= Z.of_nat (length array))).
    + rewrite Z.min_l by lia. f_equal. lia.
    + rewrite Z.min_r by lia.
      rewrite !take_ge; [done|rewrite length_drop; lia..].
  - rewrite !drop_ge by lia. by rewrite !take_nil.
Qed.

Lemma chunk_loop_spec fuel array (size : Z) (k : nat) chunks :
  1 <= size ->
  (length array - k * Z.to_nat size < fuel)%nat ->
  exists rest,
    chunk_loop fuel array size (Z.of_nat k * size) chunks
    = Some (chunks ++ rest) /\
    concat rest = drop (k * Z.to_nat size) array /\
    forall n c, rest !! n = Some c ->
      c <> [] /\
      c = take (Z.to_nat size) (drop ((k + n) * Z.to_nat size) array).
Proof.
  intros Hsize. revert k chunks.
  induction fuel as [|fuel IH]; intros k chunks Hfuel; [lia|].
  cbn [chunk_loop]. case_decide as Hi.
  - rewrite slice_forward by lia.
    replace (Z.of_nat k * size + size) with (Z.of_nat (S k) * size) by lia.
    destruct (IH (S k) (chunks ++
                [take (Z.to_nat size)
                   (drop (Z.to_nat (Z.of_nat k * size)) array)]))
      as (rest & Hrun & Hcat & Hnth); [nia|].
    rewrite Hrun, <- app_assoc. eexists. split; [done|].
    replace (Z.to_nat (Z.of_nat k * size)) with (k * Z.to_nat size)%nat
      by nia.
    split.
    + simpl. rewrite Hcat.
      replace (S k * Z.to_nat size)%nat
        with (k * Z.to_nat size + Z.to_nat size)%nat by lia.
      rewrite <- drop_drop. apply take_drop.
    + intros [|n] c; simpl.
      * intros [= <-]. rewrite Nat.add_0_r. split; [|done].
        intros Hnil%(f_equal length).
        rewrite length_take, length_drop in Hnil. simpl in Hnil. nia.
      * intros Hc. destruct (Hnth n c Hc) as [Hne ->]. split; [done|].
        do 3 f_equal. lia.
  - exists []. rewrite app_nil_r. split; [done|].
    split; [rewrite drop_ge; [done|nia]|]. by intros n c.
Qed.

(** X6: With a size of at least 1, [chunk] returns, within as many turns as
    the array has elements (and one more for the last test); the chunks
    put end to end are the array; none is empty; chunk [n] is the [size]
    elements from position [n * size] on, fewer for the last one. *)
Theorem chunk_partition fuel array (size : Z) :
  1 <= size -> (length array < fuel)%nat ->
  exists chunks,
    chunk fuel array size = Some chunks /\
    concat chunks = array /\
    forall n c, chunks !! n = Some c ->
      c <> [] /\
      c = take (Z.to_nat size) (drop (n * Z.to_nat size) array).
Proof.
  intros Hsize Hfuel.
  destruct (chunk_loop_spec fuel array size 0 [] Hsize)
    as (rest & Hrun & Hcat & Hnth); [lia|].
  exists rest. split; [exact Hrun|]. split; [exact Hcat|exact Hnth].
Qed.

Lemma chunk_loop_diverges fuel array (size i : Z) chunks :
  size <= 0 -> i < Z.of_nat (length array) ->
  chunk_loop fuel array size i chunks = None.
Proof.
  intros Hsize. revert i chunks.
  induction fuel as [|fuel IH]; intros i chunks Hi; [done|].
  cbn [chunk_loop]. rewrite decide_True by done. apply IH. lia.
Qed.

(** X7: With a size of zero or less [chunk] never returns on an array that
    has an element: the loop does not end, whatever the bound on its
    turns. *)
Theorem chunk_diverges fuel array (size : Z) :
  size <= 0 -> array <> [] -> chunk fuel array size = None.
Proof.
  intros Hsize Hne. apply chunk_loop_diverges; [done|].
  destruct array; [done|]. simpl. lia.
Qed.

End chunk.

Lemma chunk_partition_witness :
  chunk 6 [1; 2; 3; 4; 5] 2 = Some [[1; 2]; [3; 4]; [5]].
Proof.
  destruct (chunk_partition 6 [1; 2; 3; 4; 5] 2) as (chunks & Hrun & _);
    [lia|simpl; lia|].
  reflexivity.
Defined.

Lemma chunk_diverges_witness : chunk 1000 [1; 2; 3] 0 = None.
Proof. apply (chunk_diverges 1000 [1; 2; 3] 0); [lia|done]. Defined.

Section shuffle.
Context {A : Type}.
Variable random : nat -> Double.double.
Hypothesis random_unit : forall k, Double.unit_interval (random k).
Implicit Types (array result : list A).

(** [Math.floor(Math.random() * n)] is an index below [n]. *)
Lemma random_index_lt k n : (0 < n)%nat -> (random_index random k n < n)%nat.
Proof.
  intros Hn. unfold random_index.
  pose proof (DoubleSpec.floor_times (random k) (Z.of_nat n)
                (random_unit k) ltac:(lia)).
  lia.
Qed.

Lemma insert_permutation (l : list A) j x y :
  l !! j = Some y -> y :: <[j := x]> l ≡ₚ x :: l.
Proof.
  revert j. induction l as [|z l IH]; intros [|j] Hj; simplify_eq/=.
  - apply perm_swap.
  - rewrite perm_swap, (IH j Hj). apply perm_swap.
Qed.

Lemma swap_permutation result i j result' :
  swap result i j = Some result' -> result' ≡ₚ result.
Proof.
  unfold swap.
  destruct (result !! i) as [x|] eqn:Hi; [|done].
  destruct (result !! j) as [y|] eqn:Hj; [|done]. intros [= <-].
  revert i j Hi Hj. induction result as [|z l IH]; intros i j Hi Hj; [done|].
  destruct i as [|i], j as [|j]; simplify_eq/=.
  - done.
  - by apply insert_permutation.
  - by apply insert_permutation.
  - f_equiv. by apply IH.
Qed.

Lemma swap_Some result i j :
  (i < length result)%nat -> (j < length result)%nat ->
  is_Some (swap result i j).
Proof.
  intros [x Hx]%lookup_lt_is_Some_2 [y Hy]%lookup_lt_is_Some_2.
  unfold swap. rewrite Hx, Hy. by eexists.
Qed.

Lemma shuffle_loop_permutation i k result :
  (i < length result)%nat ->
  exists result', shuffle_loop random i k result = Some result' /\
                  result' ≡ₚ result.
Proof.
  revert k result. induction i as [|i IH]; intros k result Hi.
  - by exists result.
  - cbn [shuffle_loop].
    pose proof (random_index_lt k (S i + 1) ltac:(lia)) as Hj.
    destruct (swap_Some result (S i) (random_index random k (S i + 1)))
      as [result1 Hswap]; [lia..|].
    rewrite Hswap.
    pose proof (swap_permutation _ _ _ _ Hswap) as Hperm.
    destruct (IH (S k) result1) as (result' & Hrun & Hperm').
    { rewrite (Permutation_length Hperm). lia. }
    exists result'. split; [done|]. by rewrite Hperm'.
Qed.

(** X8: Whatever [Math.random] returns, in its range from 0 to 1, 1 left
    out, [shuffle] returns an array with the elements of its argument,
    each as many times as there, in some order; no index leaves the
    array. *)
Theorem shuffle_permutation array :
  exists result, shuffle random array = Some result /\ result ≡ₚ array.
Proof.
  unfold shuffle. destruct array as [|x array]; [by exists []|].
  apply shuffle_loop_permutation. simpl. lia.
Qed.

End shuffle.

Lemma shuffle_permutation_witness :
  shuffle Double.sixteenths [1; 2; 3; 4] = Some [3; 2; 4; 1] /\
  exists result,
    shuffle Double.sixteenths [1; 2; 3; 4] = Some result /\
    result ≡ₚ [1; 2; 3; 4].
Proof.
  split; [vm_compute; reflexivity|].
  apply shuffle_permutation. apply DoubleSpec.sixteenths_unit.
Defined.

End ArraysSpec.


(** * Properties of [throttle], [debounce] and [memoize] *)
Module FunctionsSpec.
Import Functions.

Section throttle.
Context {A R E : Type}.
Variable fn : A -> outcome R E.
Variable limit : Z.
Implicit Types (st : @throttled A) (log : list (Z * A)).

Lemma throttled_calls_snoc calls now args :
  throttled_calls fn limit (calls ++ [(now, args)]) throttle =
  (throttled_call fn limit now args
     (throttled_calls fn limit calls throttle)).2.
Proof. unfold throttled_calls. by rewrite foldl_app. Qed.

Lemma last_return_snoc log t a :
  last_return fn (log ++ [(t, a)]) =
  match fn a with
  | Fulfilled _ => t
  | Rejected _ => last_return fn log
  end.
Proof. unfold last_return. by rewrite foldl_app. Qed.

Lemma spaced_call now args st :
  spaced fn limit st -> spaced fn limit (throttled_call fn limit now args st).2.
Proof.
  intros [Hlast Hlog]. unfold throttled_call.
  case_decide as Hnow; [|done].
  assert (forall log t a log',
            executed st ++ [(now, args)] = log ++ (t, a) :: log' ->
            limit <= t - last_return fn log) as Hlog'.
  { intros log t a log' Heq.
    destruct log' as [|c log' _] using rev_ind.
    - apply app_inj_tail in Heq as [<- [= <- <-]]. by rewrite <- Hlast.
    - rewrite app_comm_cons, app_assoc in Heq.
      apply app_inj_tail in Heq as [Heq _]. by eapply Hlog. }
  destruct (fn args) as [r|e] eqn:Hfn; (split; [|done]);
    cbn [snd executed lastCall]; by rewrite last_return_snoc, Hfn.
Qed.

Lemma executed_sublist calls :
  sublist (executed (throttled_calls fn limit calls throttle)) calls.
Proof.
  induction calls as [|[now args] calls IH] using rev_ind; [done|].
  rewrite throttled_calls_snoc. unfold throttled_call.
  case_decide; [|by apply sublist_inserts_r].
  destruct (fn args); simpl; by apply sublist_app.
Qed.

(** X9: After any calls of a throttled function: a call that was let
    through came at least [limit] after the last call before it that was
    let through and returned (after time 0 if there is none), so two
    executions in a row, the first of which returns, are at least
    [limit] apart; an execution that throws does not count, the next call
    is let through as if it had not happened; and the executions are
    calls that were made, in their order, none added later. *)
Theorem throttle_spacing calls :
  let st := throttled_calls fn limit calls throttle in
  lastCall st = last_return fn (executed st) /\
  (forall log t a log', executed st = log ++ (t, a) :: log' ->
     limit <= t - last_return fn log) /\
  (forall n t1 a1 t2 a2,
     executed st !! n = Some (t1, a1) ->
     executed st !! S n = Some (t2, a2) ->
     (exists r, fn a1 = Fulfilled r) -> limit <= t2 - t1) /\
  sublist (executed st) calls.
Proof.
  simpl.
  assert (spaced fn limit (throttled_calls fn limit calls throttle))
    as [Hlast Hlog].
  { induction calls as [|[now args] calls IH] using rev_ind.
    - split; [done|]. intros log t a log' Heq. by destruct log.
    - rewrite throttled_calls_snoc. by apply spaced_call. }
  split; [done|]. split; [done|]. split; [|apply executed_sublist].
  intros n t1 a1 t2 a2 H1 H2 [r Hr].
  pose proof (take_drop_middle _ _ _ H2) as Heq.
  specialize (Hlog _ _ _ _ (eq_sym Heq)).
  rewrite (take_S_r _ _ _ H1), last_return_snoc, Hr in Hlog. done.
Qed.

End throttle.

Section debounce.
Context {A R E : Type}.
Variable fn : A -> outcome R E.
Variable delay : Z.
Implicit Types (st : @debounced A) (cs : list (Z * A)).

Lemma debounce_exec_app immediate evs1 evs2 st :
  exec fn delay immediate (evs1 ++ evs2) st =
  exec fn delay immediate evs1 st ≫= exec fn delay immediate evs2.
Proof.
  revert st. induction evs1 as [|ev evs1 IH]; intros st; simpl; [done|].
  destruct (step fn delay immediate ev st); simpl; [apply IH|done].
Qed.

(** Without [immediate] a call runs nothing and replaces the timer. *)
Lemma trailing_calls cs t a st :
  exec fn delay false (calls (cs ++ [(t, a)])) st =
  Some (Debounced true (Some (due delay t, a)) (ran st)).
Proof.
  revert st. induction cs as [|[t' a'] cs IH]; intros st; [done|].
  simpl. by rewrite IH.
Qed.

(** X10: Without [immediate], after any number of calls in a row the timer
    cannot fire before [delay] has passed since the last one; when it
    fires, [fn] runs once, with the arguments of the last call, and no
    timer is left. *)
Theorem debounce_trailing cs t a now st :
  exec fn delay false (calls (cs ++ [(t, a)]) ++ [Timeout now]) st =
  if decide (t + Z.max delay 0 <= now) then
    Some (Debounced
            (match fn a with Fulfilled _ => false | Rejected _ => true end)
            None (ran st ++ [(now, a)]))
  else None.
Proof.
  rewrite debounce_exec_app, trailing_calls. simpl. unfold due.
  case_decide; [|done]. by destruct (fn a).
Qed.

(** With [immediate], once the timer is set a call runs nothing and
    replaces the timer. *)
Lemma leading_calls cs st t a :
  timer st = true ->
  exec fn delay true (calls (cs ++ [(t, a)])) st =
  Some (Debounced true (Some (due delay t, a)) (ran st)).
Proof.
  revert st. induction cs as [|[t' a'] cs IH]; intros st Ht; simpl.
  - by rewrite Ht.
  - rewrite Ht. simpl. by rewrite IH.
Qed.

(** X11: With [immediate], [fn] runs at the first call only of calls in a
    row, the timer starts again at each of them and runs nothing when it
    fires, [delay] after the last one at the earliest; the next call
    after that runs [fn] again. *)
Theorem debounce_leading cs t1 a1 t a now r :
  fn a1 = Fulfilled r ->
  let burst := calls ((t1, a1) :: cs ++ [(t, a)]) in
  exec fn delay true burst debounce =
    Some (Debounced true (Some (t + Z.max delay 0, a)) [(t1, a1)]) /\
  exec fn delay true (burst ++ [Timeout now]) debounce =
    (if decide (t + Z.max delay 0 <= now) then
       Some (Debounced false None [(t1, a1)])
     else None) /\
  (t + Z.max delay 0 <= now ->
   exec fn delay true (burst ++ [Timeout now; Call now a1]) debounce =
     Some (Debounced true (Some (now + Z.max delay 0, a1))
             [(t1, a1); (now, a1)])).
Proof.
  intros Hr. cbn zeta.
  assert (exec fn delay true (calls ((t1, a1) :: cs ++ [(t, a)])) debounce
          = Some (Debounced true (Some (t + Z.max delay 0, a)) [(t1, a1)]))
    as Hburst.
  { simpl. rewrite Hr. by rewrite leading_calls. }
  split; [done|]. split.
  - rewrite debounce_exec_app, Hburst. simpl. by case_decide.
  - intros Hnow. rewrite debounce_exec_app, Hburst. simpl.
    rewrite decide_True by done. simpl. by rewrite Hr.
Qed.

(** X12: With [immediate], a first call in which [fn] throws sets no timer:
    the next call runs [fn] again, however soon it comes. *)
Theorem debounce_leading_throw t1 a1 t2 a2 e :
  fn a1 = Rejected e ->
  exists st,
    exec fn delay true [Call t1 a1; Call t2 a2] debounce = Some st /\
    ran st = [(t1, a1); (t2, a2)].
Proof. intros He. simpl. rewrite He. simpl. destruct (fn a2); by eexists. Qed.

End debounce.

Lemma debounce_leading_witness :
  exec (fun _ : nat => @Fulfilled unit unit ()) 300 true
    (calls [(0, 1%nat); (100, 2%nat); (200, 3%nat)] ++ [Timeout 500])
    debounce
  = Some (Debounced false None [(0, 1%nat)]).
Proof.
  destruct (debounce_leading (fun _ : nat => @Fulfilled unit unit ()) 300
              [(100, 2%nat)] 0 1%nat 200 3%nat 500 () eq_refl)
    as (_ & Hfire & _).
  exact Hfire.
Defined.

Lemma debounce_leading_throw_witness :
  exists st,
    exec (fun _ : nat => @Rejected unit unit ()) 300 true
      [Call 0 1%nat; Call 1 2%nat] debounce = Some st /\
    ran st = [(0, 1%nat); (1, 2%nat)].
Proof.
  exact (debounce_leading_throw (fun _ : nat => @Rejected unit unit ()) 300
           0 1%nat 1 2%nat () eq_refl).
Defined.

Section memoize.
Context {A R E W : Type}.
Variable stringify : A -> outcome string E.
Variable fn : A -> W -> outcome R E * W.
Implicit Types (st : @memoized A R W) (calls : list A).

Lemma memoized_calls_snoc calls args st :
  memoized_calls stringify fn (calls ++ [args]) st =
  (memoized_call stringify fn args (memoized_calls stringify fn calls st)).2.
Proof. unfold memoized_calls. by rewrite foldl_app. Qed.





(** X15: For a function of its arguments only that does not throw, with keys
    that tell any two arguments apart, the memoized function returns what
    [fn] returns, after any calls. *)
Theorem memoize_transparent (f : A -> R) calls w args :
  (forall a w, fn a w = (Fulfilled (f a), w)) ->
  (forall a, exists key, stringify a = Fulfilled key) ->
  (forall a b, stringify a = stringify b -> a = b) ->
  (memoized_call stringify fn args
     (memoized_calls stringify fn calls (memoize w))).1 = Fulfilled (f args).
Proof.
  intros Hfn Hkey Hinj.
  assert (forall st : memoized,
            (forall key a result, stringify a = Fulfilled key ->
               cache st !! key = Some result -> result = f a) ->
            forall a,
              (memoized_call stringify fn a st).1 = Fulfilled (f a) /\
              (forall key b result, stringify b = Fulfilled key ->
                 cache (memoized_call stringify fn a st).2 !! key
                 = Some result -> result = f b)) as Hstep.
  { intros st Hst a. unfold memoized_call.
    destruct (Hkey a) as [key Ha]. rewrite Ha.
    destruct (cache st !! key) as [result|] eqn:Hc.
    - split; [simpl; f_equal; by eapply Hst|done].
    - rewrite Hfn. simpl. split; [done|].
      intros key' b result Hb.
      destruct (decide (key' = key)) as [->|Hne].
      + rewrite lookup_insert_eq. intros [= <-]. f_equal.
        apply Hinj. congruence.
      + rewrite lookup_insert_ne by done. by apply Hst. }
  apply Hstep.
  induction calls as [|a calls IH] using rev_ind.
  - intros key a result _ Hin. simpl in Hin.
    by apply lookup_empty_Some in Hin.
  - rewrite memoized_calls_snoc. by apply Hstep.
Qed.

End memoize.



Lemma memoize_transparent_witness :
  let stringify (b : bool) : outcome string unit :=
    Fulfilled (if b then "[true]" else "[false]")%string in
  let fn (b : bool) (w : unit) : outcome bool unit * unit :=
    (Fulfilled (negb b), w) in
  (memoized_call stringify fn true
     (memoized_calls stringify fn [true; false; true] (memoize ()))).1
  = Fulfilled false.
Proof.
  cbn zeta.
  apply (memoize_transparent
           (fun b : bool => @Fulfilled string unit
              (if b then "[true]" else "[false]")%string)
           (fun (b : bool) (w : unit) => (@Fulfilled bool unit (negb b), w))
           negb [true; false; true] () true).
  - done.
  - intros a. by eexists.
  - by intros [] [].
Defined.

End FunctionsSpec.


(** * Properties of [uuid] and [randomString] *)
Module StringsSpec.
Import Strings.

Lemma list_ascii_of_append s t :
  String.list_ascii_of_string (String.append s t) =
  String.list_ascii_of_string s ++ String.list_ascii_of_string t.
Proof. induction s as [|c s IH]; simpl; [done|]. by rewrite IH. Qed.

Lemma append_empty_r s : String.append s EmptyString = s.
Proof.
  induction s as [|c s IH]; [done|].
  change (String c (String.append s EmptyString) = String c s).
  by rewrite IH.
Qed.


Lemma length_list_ascii s :
  length (String.list_ascii_of_string s) = String.length s.
Proof. induction s as [|c s IH]; simpl; [done|]. by rewrite IH. Qed.


Section strings.
Variable random : nat -> Q.
Hypothesis random_unit : forall k, (0 <= random k)%Q /\ (random k < 1)%Q.

(** [Math.floor(Math.random() * n)] is from 0 to [n - 1]. *)
Lemma random_floor k (n : Z) :
  0 < n -> 0 <= Qfloor (random k * inject_Z n) < n.
Proof.
  intros Hn. destruct (random_unit k) as [H0 H1].
  set (q := (random k * inject_Z n)%Q).
  assert (0 <= q)%Q as Hq0.
  { apply Qmult_le_0_compat; [done|].
    change 0%Q with (inject_Z 0). rewrite <- Zle_Qle. lia. }
  assert (q < inject_Z n)%Q as Hq1.
  { unfold q. rewrite <- (Qmult_1_l (inject_Z n)) at 2.
    apply Qmult_lt_compat_r; [|done].
    change 0%Q with (inject_Z 0). rewrite <- Zlt_Qlt. lia. }
  split.
  - change 0 with (Qfloor (inject_Z 0)) at 1. by apply Qfloor_resp_le.
  - rewrite Zlt_Qlt. eapply Qle_lt_trans; [apply Qfloor_le|done].
Qed.

Lemma random_nibble_range k : 0 <= random_nibble random k < 16.
Proof.
  unfold random_nibble, truncate.
  pose proof (random_floor k 16 ltac:(lia)) as Hf.
  change (inject_Z 16) with 16%Q in Hf.
  destruct (Qlt_le_dec (random k * 16) 0) as [Hneg|_].
  - destruct (random_unit k) as [H0 _]. exfalso.
    apply (Qlt_not_le _ _ Hneg). apply Qmult_le_0_compat; [done|]. done.
  - rewrite NumbersSpec.to_int32_small; lia.
Qed.

Lemma uuid_digit_shape c k :
  Ascii.eqb c "x"%char || Ascii.eqb c "y"%char = true ->
  exists d, uuid_digit random c k = String d EmptyString /\ uuid_shape c d.
Proof.
  intros Hc. unfold uuid_digit, uuid_shape.
  pose proof (random_nibble_range k) as Hr.
  assert (exists n : nat, (n < 16)%nat /\ random_nibble random k = Z.of_nat n)
    as (n & Hn & ->) by (exists (Z.to_nat (random_nibble random k)); lia).
  destruct (Ascii.eqb c "x"%char) eqn:Hx.
  - do 16 (destruct n as [|n];
           [eexists; split; [reflexivity|set_solver]|]). lia.
  - simpl in Hc. rewrite Hc.
    do 16 (destruct n as [|n];
           [eexists; split; [reflexivity|set_solver]|]). lia.
Qed.

Lemma replace_xy_shape template k :
  Forall2 uuid_shape (String.list_ascii_of_string template)
    (String.list_ascii_of_string (replace_xy random template k)).
Proof.
  revert k. induction template as [|c rest IH]; intros k; simpl.
  - constructor.
  - destruct (Ascii.eqb c "x"%char || Ascii.eqb c "y"%char) eqn:Hc.
    + destruct (uuid_digit_shape c k Hc) as (d & -> & Hd).
      rewrite list_ascii_of_append. simpl. by constructor.
    + simpl. constructor; [|done]. unfold uuid_shape.
      apply orb_false_iff in Hc as [-> ->]. done.
Qed.

(** X16: Whatever [Math.random] returns, in its range, [uuid] returns a
    string of the shape of its template, character for character: 36
    characters, a digit from 0 to f for each x, the hyphens and the
    version digit 4 in their places, and a variant digit among 8, 9, a
    and b for the y. *)
Theorem uuid_format :
  String.length (uuid random) = 36%nat /\
  Forall2 uuid_shape
    (String.list_ascii_of_string "xxxxxxxx-xxxx-4xxx-yxxx-xxxxxxxxxxxx")
    (String.list_ascii_of_string (uuid random)).
Proof.
  pose proof (replace_xy_shape "xxxxxxxx-xxxx-4xxx-yxxx-xxxxxxxxxxxx" 0)
    as Hshape.
  split; [|done].
  apply Forall2_length in Hshape. rewrite <- length_list_ascii.
  unfold uuid. by rewrite <- Hshape.
Qed.

End strings.

Section random_string.
Variable random : nat -> Double.double.
Hypothesis random_unit : forall k, Double.unit_interval (random k).




End random_string.

Lemma uuid_format_witness :
  uuid (fun _ => 1 # 2)%Q = "88888888-8888-4888-8888-888888888888"%string /\
  String.length (uuid (fun _ => 1 # 2)%Q) = 36%nat.
Proof.
  split; [reflexivity|].
  apply (uuid_format (fun _ => 1 # 2)%Q). intros k. by split.
Defined.


End StringsSpec.


(** * Properties of the event bus, the plugin registry and [extend] *)
Module EventsSpec.
Import JS Events.

Section events.
Context {A : Type}.
Variable returns : nat -> A -> bool.
Implicit Types (b : @bus A) (l : listener) (s : list listener).

Lemma listeners_subscribe event l b event' :
  listeners event' (subscribe event l b) =
  if decide (event' = event) then set_add l (listeners event b)
  else listeners event' b.
Proof.
  unfold listeners at 1, subscribe. simpl. case_decide as He.
  - subst. by rewrite lookup_insert_eq.
  - by rewrite lookup_insert_ne.
Qed.

Lemma listeners_unsubscribe event l b event' :
  listeners event' (unsubscribe event l b) =
  if decide (event' = event) then set_delete l (listeners event b)
  else listeners event' b.
Proof.
  unfold listeners, unsubscribe.
  destruct (_listeners b !! event) as [s|] eqn:Hs; simpl.
  - case_decide as He.
    + subst. by rewrite lookup_insert_eq.
    + by rewrite lookup_insert_ne.
  - case_decide as He; [|done]. subst. by rewrite Hs.
Qed.

Lemma called_unsubscribe event l b :
  called (unsubscribe event l b) = called b.
Proof. unfold unsubscribe. by destruct (_listeners b !! event). Qed.

Lemma filter_ext_in (P Q : listener -> Prop)
    `{!forall x, Decision (P x), !forall x, Decision (Q x)} s :
  (forall l, l ∈ s -> P l <-> Q l) -> filter P s = filter Q s.
Proof.
  induction s as [|l s IH]; intros Hs; [done|].
  rewrite !filter_cons, IH by (intros; apply Hs; by right).
  apply decide_ext, Hs. left.
Qed.

Lemma notify_spec event args b l :
  called (notify returns event args b l)
    = called b ++ [(target l, args)] /\
  errors (notify returns event args b l)
    = errors b ++ (if returns (target l) args then [] else [event]) /\
  wrappers (notify returns event args b l) = wrappers b /\
  forall event',
    listeners event' (notify returns event args b l) =
    if decide (event' = event /\ stays returns args l = false)
    then set_delete l (listeners event b)
    else listeners event' b.
Proof.
  destruct l as [f|w f]; simpl.
  - destruct (returns f args); simpl; rewrite ?app_nil_r;
      (repeat split; [done..|]); intros event';
      (rewrite decide_False; [done|by intros [_ ?]]).
  - destruct (returns f args) eqn:Hf; simpl.
    + unfold unsubscribe, log_call. simpl.
      destruct (_listeners b !! event) as [s|] eqn:Hs; simpl;
        rewrite ?app_nil_r; (repeat split; [done..|]); intros event';
        unfold listeners; simpl.
      * case_decide as He.
        -- destruct He as [-> _]. by rewrite lookup_insert_eq, Hs.
        -- rewrite lookup_insert_ne; [done|]. intros ->. by apply He.
      * case_decide as He; [|done]. destruct He as [-> _]. by rewrite Hs.
    + (repeat split; [done..|]); intros event'.
      rewrite decide_False; [done|by intros [_ ?]].
Qed.

Lemma emit_fold event args s b :
  let b' := foldl (notify returns event args) b s in
  called b' = called b ++ ((fun l => (target l, args)) <$> s) /\
  errors b' = errors b ++
    ((fun _ => event) <$>
       filter (fun l => returns (target l) args = false) s) /\
  wrappers b' = wrappers b /\
  (forall event', event' <> event ->
     listeners event' b' = listeners event' b) /\
  listeners event b' =
    filter (fun l => l ∈ s -> stays returns args l = true)
      (listeners event b).
Proof.
  simpl. revert b. induction s as [|l s IH]; intros b.
  - simpl. rewrite !app_nil_r. repeat split; try done.
    induction (listeners event b) as [|l ls IHl]; [done|].
    rewrite filter_cons, decide_True by (by intros ?%elem_of_nil).
    by rewrite <- IHl.
  - cbn [foldl].
    destruct (notify_spec event args b l) as (Hc & He & Hw & Hl).
    destruct (IH (notify returns event args b l))
      as (Hc' & He' & Hw' & Hl' & Hin').
    rewrite Hc', He', Hw', Hc, He, Hw. rewrite <- !app_assoc.
    split; [done|]. split; [|split; [done|split]].
    + f_equal. rewrite filter_cons.
      by destruct (returns (target l) args).
    + intros event' Hne. rewrite Hl' by done. rewrite Hl.
      rewrite decide_False; [done|]. by intros [? _].
    + rewrite Hin', Hl.
      destruct (decide (event = event /\ stays returns args l = false))
        as [[_ Hstay]|Hd].
      * unfold set_delete.
        rewrite list_filter_filter. apply list_filter_iff. intros l'. split.
        -- intros [Hs Hne] [->|Hin]%elem_of_cons; [done|by apply Hs].
        -- intros Hs. split.
           ++ intros ?. apply Hs. by right.
           ++ intros ->. rewrite Hs in Hstay; [done|left].
      * apply list_filter_iff. intros l'. split.
        -- intros Hs [->|Hin]%elem_of_cons; [|by apply Hs].
           destruct (stays returns args l) eqn:Hst; [done|].
           exfalso. by apply Hd.
        -- intros Hs ?. apply Hs. by right.
Qed.

Lemma emit_spec event args b :
  let b' := emit returns event args b in
  called b' = called b ++ ((fun l => (target l, args)) <$> listeners event b) /\
  errors b' = errors b ++
    ((fun _ => event) <$>
       filter (fun l => returns (target l) args = false)
         (listeners event b)) /\
  wrappers b' = wrappers b /\
  (forall event', event' <> event ->
     listeners event' b' = listeners event' b) /\
  listeners event b' =
    filter (fun l => stays returns args l = true) (listeners event b).
Proof.
  simpl. unfold emit, listeners at 1 2 4.
  destruct (_listeners b !! event) as [s|] eqn:Hs; simpl.
  - destruct (emit_fold event args s b) as (Hc & He & Hw & Hl & Hin).
    repeat split; try done.
    rewrite Hin. unfold listeners. rewrite Hs. simpl.
    apply filter_ext_in. intros l Hl'. split; [by intros H; apply H|done].
  - rewrite !app_nil_r. repeat split; try done.
    unfold listeners. by rewrite Hs.
Qed.

(** X18: [emit] calls the listeners of the event, all of them, once each, in
    the order they were subscribed in, with the arguments it was given,
    whether some of them throw or not, and reports each one that throws;
    it leaves the listeners of the event as they were, but for the
    [once] listeners that returned, and those of other events
    untouched. *)
Theorem emit_calls_all event args b :
  let b' := emit returns event args b in
  called b' = called b ++ ((fun l => (target l, args)) <$> listeners event b) /\
  errors b' = errors b ++
    ((fun _ => event) <$>
       filter (fun l => returns (target l) args = false)
         (listeners event b)) /\
  listeners event b' =
    filter (fun l => stays returns args l = true) (listeners event b) /\
  (forall event', event' <> event ->
     listeners event' b' = listeners event' b).
Proof.
  destruct (emit_spec event args b) as (Hc & He & _ & Hl & Hin). done.
Qed.

Lemma listeners_once event f b :
  listeners event b = [] ->
  listeners event (once event f b) = [Wrapper (wrappers b) f].
Proof.
  intros Hnone. unfold once. rewrite listeners_subscribe.
  rewrite decide_True by done.
  change (listeners event (Bus _ _ _ _)) with (listeners event b).
  by rewrite Hnone.
Qed.

(** X19: A listener subscribed with [once] to an event without listeners is
    called by the first [emit]; if it returns it is not called again; if
    it throws it stays subscribed and the next [emit] calls it again.
    [off] with the listener does not take it out: what is subscribed is
    the closure [once] made. *)
Theorem once_fires event f args1 args2 b :
  listeners event b = [] ->
  let b1 := emit returns event args1 (once event f b) in
  called b1 = called b ++ [(f, args1)] /\
  called (emit returns event args2 b1) =
    (if returns f args1 then called b ++ [(f, args1)]
     else called b ++ [(f, args1); (f, args2)]) /\
  called (emit returns event args1 (off event f (once event f b)))
    = called b ++ [(f, args1)].
Proof.
  intros Hnone. simpl.
  pose proof (listeners_once event f b Hnone) as Honce.
  destruct (emit_spec event args1 (once event f b)) as (Hc1 & _ & _ & _ & Hl1).
  rewrite Honce in Hc1, Hl1. simpl in Hc1.
  split; [done|]. split.
  - destruct (emit_spec event args2
                (emit returns event args1 (once event f b)))
      as (Hc2 & _).
    rewrite Hc2, Hl1, Hc1, filter_cons. simpl.
    destruct (returns f args1); simpl.
    + by rewrite app_nil_r.
    + by rewrite <- app_assoc.
  - destruct (emit_spec event args1 (off event f (once event f b)))
      as (Hc3 & _).
    rewrite Hc3. unfold off. rewrite listeners_unsubscribe, called_unsubscribe.
    rewrite decide_True by done. rewrite Honce. done.
Qed.

(** X20: The listeners of an event are a set: a function subscribed twice
    with [on] is called once by [emit], and one [off] takes it out. *)
Theorem on_twice event f args b :
  listeners event b = [] ->
  on event f (on event f b) = on event f b /\
  called (emit returns event args (on event f (on event f b)))
    = called b ++ [(f, args)] /\
  called (emit returns event args (off event f (on event f (on event f b))))
    = called b.
Proof.
  intros Hnone.
  assert (listeners event (on event f b) = [Fn f]) as Hon.
  { unfold on. rewrite listeners_subscribe, decide_True by done.
    by rewrite Hnone. }
  assert (on event f (on event f b) = on event f b) as Htwice.
  { unfold on at 1. unfold subscribe. rewrite Hon.
    unfold set_add. rewrite decide_True by left.
    unfold on, subscribe. simpl. by rewrite insert_insert_eq, Hnone. }
  split; [done|]. rewrite Htwice. split.
  - destruct (emit_spec event args (on event f b)) as (Hc & _).
    rewrite Hc, Hon. done.
  - destruct (emit_spec event args (off event f (on event f b))) as (Hc & _).
    rewrite Hc. unfold off. rewrite listeners_unsubscribe, called_unsubscribe.
    rewrite decide_True by done. rewrite Hon. unfold set_delete.
    rewrite filter_cons, decide_False by (by intros ?). simpl.
    by rewrite app_nil_r.
Qed.

End events.

Lemma once_fires_witness :
  called (emit (fun _ _ => false) "tick" 2
            (emit (fun _ _ => false) "tick" 1 (once "tick" 7%nat empty)))
  = [(7%nat, 1); (7%nat, 2)].
Proof.
  destruct (once_fires (fun _ (_ : Z) => false) "tick" 7%nat 1 2 empty)
    as (_ & Hagain & _); [done|].
  exact Hagain.
Defined.

Lemma on_twice_witness :
  called (emit (fun _ _ => true) "tick" 1
            (on "tick" 7%nat (on "tick" 7%nat empty)))
  = [(7%nat, 1)].
Proof.
  destruct (on_twice (fun _ (_ : Z) => true) "tick" 7%nat 1 empty)
    as (_ & Hcalled & _); [done|].
  exact Hcalled.
Defined.

End EventsSpec.


Module PluginsSpec.
Import JS Events Plugins.

Lemma map_get_set key v m key' :
  map_get key' (map_set key v m) =
  if decide (key' = key) then Some v else map_get key' m.
Proof.
  induction m as [|[k v'] m IH]; simpl.
  - destruct (decide (key = key')) as [->|]; case_decide; by simplify_eq.
  - destruct (decide (k = key)) as [->|Hk]; simpl.
    + destruct (decide (key = key')) as [->|]; case_decide; by simplify_eq.
    + destruct (decide (k = key')) as [->|]; [|done].
      by rewrite decide_False.
Qed.

Section plugins.
Variable returns : nat -> list value -> bool.
Variable has_init : value -> bool.
Variable init_returns : value -> bool.
Implicit Types (st : system) (entries : list (string * value)).

(** X21: A plugin that has been registered is what [get] returns for its
    name, unless it is a value that counts as false, for which [get]
    returns [null] as for a name that was never registered; the plugins
    of other names stay; and the listeners of [plugin:registered] are
    called with the name and the plugin, in their order. *)
Theorem register_get name plugin st :
  let st' := register returns name plugin st in
  get name st' = (if truthy plugin then plugin else Null) /\
  (forall name', name' <> name -> get name' st' = get name' st) /\
  (map_get name (_registry st) = None -> get name st = Null) /\
  called (events st') =
    called (events st) ++
    ((fun l => (target l, [Str name; plugin])) <$>
       listeners "plugin:registered" (events st)).
Proof.
  simpl. unfold get, register. simpl. split; [|split; [|split]].
  - by rewrite map_get_set, decide_True.
  - intros name' Hne. by rewrite map_get_set, decide_False.
  - by intros ->.
  - by destruct (EventsSpec.emit_spec returns "plugin:registered"
                   [Str name; plugin] (events st)) as (-> & _).
Qed.

Lemma init1_logs name plugin st :
  let st' := init1 returns has_init init_returns name plugin st in
  _registry st' = _registry st /\
  inits st' = inits st ++ (if has_init plugin then [name] else []) /\
  init_errors st' =
    init_errors st ++
    (if has_init plugin && negb (init_returns plugin) then [name] else []).
Proof.
  simpl. unfold init1.
  destruct (has_init plugin), (init_returns plugin); simpl;
    by rewrite ?app_nil_r.
Qed.

Lemma init_each_logs entries st :
  let r := init_each returns has_init init_returns entries st in
  r.1 = existsb (fun e => nullish e.2) entries /\
  _registry r.2 = _registry st /\
  inits r.2 =
    inits st ++ (filter (fun e => has_init e.2 = true) (reached entries)).*1 /\
  init_errors r.2 =
    init_errors st ++
    (filter (fun e => has_init e.2 && negb (init_returns e.2) = true)
       (reached entries)).*1.
Proof.
  simpl. revert st. induction entries as [|[name plugin] entries IH];
    intros st; simpl.
  - by rewrite !app_nil_r.
  - destruct (nullish plugin) eqn:Hnull; simpl.
    + by rewrite !app_nil_r.
    + destruct (IH (init1 returns has_init init_returns name plugin st))
        as (Hthrew & Hreg & Hinits & Herrs).
      destruct (init1_logs name plugin st) as (Hreg1 & Hinits1 & Herrs1).
      simpl in Hreg1, Hinits1, Herrs1.
      rewrite Hthrew, Hreg, Hinits, Herrs, Hreg1, Hinits1, Herrs1.
      rewrite !filter_cons. simpl. split; [done|split; [done|split]].
      * destruct (has_init plugin); simpl; by rewrite <- ?app_assoc.
      * destruct (has_init plugin), (init_returns plugin); simpl;
          by rewrite <- ?app_assoc.
Qed.

(** X28: [initAll] goes through the plugins in the order their names
    were first registered in and calls [init] for each one that has it;
    an [init] that throws is reported and does not keep the plugins
    after it from being initialised.  A plugin that is [null] or
    [undefined] does: reading its [init] throws out of [initAll], and the
    plugins registered after it are not initialised.  The registry is
    left as it was. *)
Theorem initAll_order st :
  let r := initAll returns has_init init_returns st in
  r.1 = existsb (fun e => nullish e.2) (_registry st) /\
  _registry r.2 = _registry st /\
  inits r.2 =
    inits st ++
    (filter (fun e => has_init e.2 = true) (reached (_registry st))).*1 /\
  init_errors r.2 =
    init_errors st ++
    (filter (fun e => has_init e.2 && negb (init_returns e.2) = true)
       (reached (_registry st))).*1 /\
  (Forall (fun e => nullish e.2 = false) (_registry st) ->
     reached (_registry st) = _registry st).
Proof.
  simpl. unfold initAll.
  destruct (init_each_logs (_registry st) st) as (Hthrew & Hreg & Hi & He).
  simpl in *. split; [done|split; [done|split; [done|split; [done|]]]].
  clear. induction (_registry st) as [|[name plugin] entries IH];
    intros Hall; [done|].
  apply Forall_cons in Hall as [Hnull Hall]. simpl in *.
  rewrite Hnull. f_equal. by apply IH.
Qed.

End plugins.
End PluginsSpec.

Module ExtendSpec.
Import JS Extend.

Lemma inherited_extend extension this :
  inherited (extend extension this) = inherited this.
Proof.
  revert this. induction extension as [|[k v] ext IH]; intros this; [done|].
  unfold extend. cbn [foldl]. fold (extend ext (extend1 this (k, v))).
  rewrite IH. unfold extend1. by destruct (truthy _).
Qed.

Lemma member_extend1 this k v key :
  member key (extend1 this (k, v)) =
  if decide (key = k /\ truthy (member k this) = false) then v
  else member key this.
Proof.
  unfold extend1. simpl. destruct (truthy (member k this)) eqn:Ht.
  - rewrite decide_False; [done|]. by intros [_ ?].
  - unfold member. simpl. case_decide as Hk.
    + destruct Hk as [-> _]. by rewrite lookup_insert_eq.
    + rewrite lookup_insert_ne; [done|]. intros <-. by apply Hk.
Qed.

(** A member that counts as true, the library's own or inherited, is
    never replaced. *)
Lemma member_extend_kept extension this key :
  truthy (member key this) = true ->
  member key (extend extension this) = member key this.
Proof.
  revert this. induction extension as [|[k v] ext IH]; intros this Ht; [done|].
  unfold extend. cbn [foldl]. fold (extend ext (extend1 this (k, v))).
  assert (member key (extend1 this (k, v)) = member key this) as Heq.
  { rewrite member_extend1. rewrite decide_False; [done|].
    intros [-> Hf]. congruence. }
  rewrite IH; [done|]. by rewrite Heq.
Qed.

Lemma member_extend_other extension this key :
  key ∉ extension.*1 ->
  member key (extend extension this) = member key this.
Proof.
  revert this. induction extension as [|[k v] ext IH]; intros this Hk; [done|].
  unfold extend. cbn [foldl]. fold (extend ext (extend1 this (k, v))).
  rewrite IH by set_solver. rewrite member_extend1.
  rewrite decide_False; [done|]. intros [-> _]. set_solver.
Qed.

Lemma warnings_extend extension this :
  NoDup extension.*1 ->
  warnings (extend extension this) =
  warnings this ++
  filter (fun k => truthy (member k this) = true) extension.*1.
Proof.
  revert this. induction extension as [|[k v] ext IH]; intros this Hnd.
  - simpl. by rewrite app_nil_r.
  - unfold extend. cbn [foldl]. fold (extend ext (extend1 this (k, v))).
    apply NoDup_cons in Hnd as [Hk Hnd]. rewrite IH by done.
    cbn [fmap list_fmap fst]. rewrite filter_cons.
    assert (filter (fun k0 => truthy (member k0 (extend1 this (k, v))) = true)
              ext.*1
            = filter (fun k0 => truthy (member k0 this) = true) ext.*1) as ->.
    { clear IH Hnd. induction ext as [|[k' v'] ext IH]; [done|].
      cbn [fmap list_fmap fst] in *. rewrite !filter_cons.
      rewrite IH by set_solver.
      assert (member k' (extend1 this (k, v)) = member k' this) as ->; [|done].
      rewrite member_extend1. case_decide as Hd; [|done].
      destruct Hd as [-> _]. set_solver. }
    unfold extend1. simpl. destruct (truthy (member k this)) eqn:Ht; simpl.
    + by rewrite <- app_assoc.
    + done.
Qed.

(** X22: [extend] never replaces a member of the library that counts as true,
    its own or one it inherits, and warns instead; it leaves the names
    alone that the extension does not have; it sets the others, those
    without a member and those whose member counts as false, to the value
    of the extension. *)
Theorem extend_members extension this key :
  NoDup extension.*1 ->
  inherited (extend extension this) = inherited this /\
  (truthy (member key this) = true ->
     member key (extend extension this) = member key this) /\
  (key ∉ extension.*1 ->
     member key (extend extension this) = member key this) /\
  (forall v, (key, v) ∈ extension -> truthy (member key this) = false ->
     member key (extend extension this) = v) /\
  warnings (extend extension this) =
    warnings this ++
    filter (fun k => truthy (member k this) = true) extension.*1.
Proof.
  intros Hnd. split; [apply inherited_extend|].
  split; [apply member_extend_kept|]. split; [apply member_extend_other|].
  split; [|by apply warnings_extend].
  intros v Hin Hf. revert this Hf.
  induction extension as [|[k v'] ext IH]; intros this Hf;
    [by apply elem_of_nil in Hin|].
  cbn [fmap list_fmap fst] in Hnd. apply NoDup_cons in Hnd as [Hk Hnd].
  unfold extend. cbn [foldl]. fold (extend ext (extend1 this (k, v'))).
  apply elem_of_cons in Hin as [[= <- <-]|Hin].
  - rewrite member_extend_other by done. rewrite member_extend1.
    by rewrite decide_True.
  - apply IH; [done..|]. rewrite member_extend1.
    rewrite decide_False; [done|]. intros [-> _].
    apply Hk. apply list_elem_of_fmap. by exists (k, v).
Qed.

(** In a browser [isNode] is [false]: an extension replaces it; it does
    not replace [VERSION], nor [toString], which the library inherits. *)
Lemma extend_members_witness :
  let this :=
    Library {[ "VERSION"%string := Str "4.2.0"; "isNode"%string := Bool false ]}
            {[ "toString"%string := Function 0 ]} [] in
  let this' :=
    extend [("isNode"%string, Bool true); ("VERSION"%string, Str "5");
            ("toString"%string, Function 1)] this in
  member "isNode" this' = Bool true /\
  member "VERSION" this' = Str "4.2.0" /\
  member "toString" this' = Function 0.
Proof.
  cbn zeta.
  set (this := Library _ _ _).
  set (extension := [(_, Bool true); _; _]).
  assert (NoDup extension.*1) as Hnd.
  { simpl. repeat (constructor; [set_solver|]). constructor. }
  split; [|split].
  - destruct (extend_members extension this "isNode" Hnd)
      as (_ & _ & _ & Hset & _).
    apply Hset; [set_solver|done].
  - destruct (extend_members extension this "VERSION" Hnd)
      as (_ & Hkept & _).
    by rewrite Hkept.
  - destruct (extend_members extension this "toString" Hnd)
      as (_ & Hkept & _).
    by rewrite Hkept.
Defined.

End ExtendSpec.


(** * Properties of [setLocal] and [getLocal] *)
Module StorageSpec.
Import Storage.

Section storage.
Context {T : Type}.
Variable stringify : json -> T.
Variable parse : T -> option json.
Variable blank : T -> bool.
Variable to_number : json -> option Z.
Hypothesis parse_stringify : forall j, parse (stringify j) = Some j.
Hypothesis stringify_not_blank : forall j, blank (stringify j) = false.
Implicit Types (st : gmap string T).

(** X23: What [setLocal] has stored under a key comes back from [getLocal]
    as long as it has not expired: for ever with a [ttl] of 0, and up to
    and including the millisecond [ttl] seconds after with another; one
    millisecond later [getLocal] returns [null] and removes the key, so
    that it is [null] from then on.  Other keys are not touched. *)
Theorem getLocal_setLocal key value (ttl t0 now : Z) st :
  let st1 := setLocal stringify key value ttl t0 st in
  let expires := if decide (ttl = 0) then 0 else t0 + ttl * 1000 in
  (expires = 0 \/ now <= expires ->
     getLocal parse blank to_number key now st1 = (Some value, st1)) /\
  (expires <> 0 -> expires < now ->
     getLocal parse blank to_number key now st1
       = (Some JNull, delete key st) /\
     forall now',
       getLocal parse blank to_number key now' (delete key st)
       = (Some JNull, delete key st)) /\
  (forall key' now', key' <> key ->
     (getLocal parse blank to_number key' now' st1).1
     = (getLocal parse blank to_number key' now' st).1).
Proof.
  simpl. split; [|split].
  - intros Hlive. unfold getLocal, setLocal.
    rewrite lookup_insert_eq, stringify_not_blank, parse_stringify. simpl.
    destruct (decide (ttl = 0)) as [->|Hne]; simpl; [done|].
    destruct (Z.eqb_spec (t0 + ttl * 1000) 0) as [->|Hnz]; simpl; [done|].
    destruct Hlive as [?|Hle]; [done|].
    destruct (Z.ltb_spec (t0 + ttl * 1000) now); [lia|done].
  - intros Hnz Hnow. split.
    + unfold getLocal, setLocal.
      rewrite lookup_insert_eq, stringify_not_blank, parse_stringify. simpl.
      destruct (Z.eqb_spec (if decide (ttl = 0) then 0 else t0 + ttl * 1000)
                  0) as [?|_]; [done|]. simpl.
      destruct (Z.ltb_spec (if decide (ttl = 0) then 0 else t0 + ttl * 1000)
                  now); [|lia].
      by rewrite delete_insert_eq.
    + intros now'. unfold getLocal. by rewrite lookup_delete_eq.
  - intros key' now' Hne. unfold getLocal, setLocal.
    rewrite lookup_insert_ne by done.
    destruct (st !! key') as [data|]; [|done].
    destruct (blank data); [done|].
    destruct (parse data) as [parsed|]; [|done].
    destruct (field "expires" parsed) as [expires|]; [|done].
    destruct (field "value" parsed) as [v|]; [|done].
    by destruct (match expires with
                 | Some e => json_truthy e && later to_number now' e
                 | None => false
                 end).
Qed.

End storage.

Lemma getLocal_setLocal_witness :
  let getLocal := getLocal Some (fun _ => false) (fun _ => None) in
  let st1 := setLocal id "token" (JStr "abc") 60 1000 ∅ in
  getLocal "token" 61000 st1 = (Some (JStr "abc"), st1) /\
  getLocal "token" 61001 st1 = (Some JNull, delete "token" ∅).
Proof.
  cbn zeta.
  destruct (getLocal_setLocal id Some (fun _ => false) (fun _ => None)
              ltac:(done) ltac:(done) "token" (JStr "abc") 60 1000 61000 ∅)
    as (Hlive & _).
  destruct (getLocal_setLocal id Some (fun _ => false) (fun _ => None)
              ltac:(done) ltac:(done) "token" (JStr "abc") 60 1000 61001 ∅)
    as (_ & Hdead & _).
  split.
  - apply Hlive. right. simpl. lia.
  - apply Hdead; simpl; lia.
Defined.

End StorageSpec.


(** * More about [retry] and [parallel] *)
Module RetryRun.
Import Retry.
Section retry_run.
Context {V E St : Type}.
Variable fn : St -> outcome V E * St.



End retry_run.
End RetryRun.

Module ParallelOrder.
Import Parallel ParallelSpec.
Section order.
Context {V E : Type}.
Variable tasks : list (@task V E).
Variable concurrency : Z.
Implicit Types (st : @state V E) (q : list (@job V E)) (j : @job V E).
Local Open Scope nat_scope.

(** The jobs [subscribe_all] adds start no task. *)
Lemma invokes_notified r l st : invokes (notified r l st) = [].
Proof.
  destruct (invokes (notified r l st)) as [|i is_] eqn:Hi; [done|].
  assert (i ∈ invokes (notified r l st)) as Hin by (rewrite Hi; left).
  apply elem_of_invokes, elem_of_notified in Hin as (? & ? & ? & _). done.
Qed.

Lemma started_subscribe_all r l st :
  started (subscribe_all r l st) = started st /\
  length (results (subscribe_all r l st)) = length (results st).
Proof.
  unfold started.
  destruct (subscribe_all_fields r l st)
    as (_ & _ & _ & _ & _ & -> & _ & ->).
  by rewrite subscribe_all_queue, invokes_app, invokes_notified, app_nil_r.
Qed.

Lemma started_race st :
  started (race st) = started st /\
  length (results (race st)) = length (results st).
Proof.
  unfold race.
  by destruct (started_subscribe_all (RRace (length (races st)))
                 (executing st) (set_races (races st ++ [false]) st))
    as [-> ->].
Qed.

Lemma started_finish st :
  started (finish st) = started st /\
  length (results (finish st)) = length (results st).
Proof.
  unfold finish. destruct (length (results st)) eqn:Hn.
  - unfold started. simpl. by rewrite invokes_app, app_nil_r.
  - destruct (started_subscribe_all RAll (seq 0 (S n))
                (set_all (Some (AllState (replicate (S n) None) (S n) false))
                   st)) as [-> ->]. done.
Qed.

Lemma started_spawn st :
  started (spawn st) = started st ++ [length (results st)] /\
  length (results (spawn st)) = S (length (results st)).
Proof.
  unfold started, spawn. simpl.
  rewrite invokes_app, length_app, app_assoc. simpl. split; [done|lia].
Qed.

Lemma in_order_loop rest st :
  in_order st -> in_order (loop concurrency rest st).
Proof.
  unfold in_order. revert st.
  induction rest as [|t rest IH]; intros st Hst; cbn [loop].
  - destruct (started_finish st) as [-> ->]. done.
  - assert (started (spawn st) = seq 0 (length (results (spawn st))))
      as Hsp.
    { destruct (started_spawn st) as [-> ->].
      by rewrite seq_S, Hst. }
    case_decide; [|by apply IH].
    destruct (started_race (spawn st)) as [-> ->]. done.
Qed.

Lemma started_settle i o st :
  started (settle i o st) = started st /\
  length (results (settle i o st)) = length (results st).
Proof.
  split; [|apply length_results_settle].
  unfold started, settle. destruct (results st !! i) as [[rs|o']|]; [|done..].
  simpl. by rewrite invokes_app, invokes_reacts, app_nil_r.
Qed.

Lemma started_all_react i o st :
  started (all_react i o st) = started st /\
  length (results (all_react i o st)) = length (results st).
Proof.
  split; [|apply length_results_all_react].
  unfold started, all_react. destruct (all st) as [a|]; [|done].
  destruct o; [case_decide|]; destruct (all_settled a); simpl;
    by rewrite ?invokes_app, ?app_nil_r.
Qed.

Lemma in_order_run_job st j q :
  wf tasks st -> queue st = j :: q -> in_order st ->
  in_order (run_job tasks concurrency j (set_queue q st)).
Proof.
  intros Hwf Hq. unfold in_order at 1, started. rewrite Hq. intros Hst.
  destruct j as [i|i o|i r o|i|r o|o]; simpl in Hst |- *.
  - assert (is_Some (tasks !! i)) as [t Ht].
    { destruct (wf_invoke _ _ Hwf i) as [[rs Hrs] _]; [rewrite Hq; left|].
      apply lookup_lt_is_Some_2.
      apply lookup_lt_Some in Hrs. pose proof (wf_length _ _ Hwf). lia. }
    rewrite Ht. destruct t as [o|o]; unfold in_order.
    + destruct (started_settle i o (record_call i (set_queue q st)))
        as [-> ->].
      unfold started. simpl. by rewrite <- app_assoc.
    + unfold started. simpl. by rewrite <- app_assoc.
  - unfold in_order.
    by destruct (started_settle i o (set_queue q st)) as [-> ->].
  - destruct r as [|r|].
    + destruct o; unfold in_order, started; simpl;
        by rewrite ?invokes_app, ?app_nil_r.
    + destruct (races st !! r) as [[|]|]; unfold in_order, started; simpl;
        by rewrite ?invokes_app, ?app_nil_r.
    + unfold in_order.
      by destruct (started_all_react i o (set_queue q st)) as [-> ->].
  - done.
  - destruct o; [|done]. by apply in_order_loop.
  - done.
Qed.

Lemma in_order_reachable st :
  reachable tasks concurrency st -> in_order st.
Proof.
  induction 1 as [|ev st st' Hst IH Hstep].
  - by apply in_order_loop.
  - pose proof (reachable_wf _ _ _ Hst) as Hwf.
    destruct ev as [|i]; simpl in Hstep.
    + destruct (queue st) as [|j q] eqn:Hq; [done|].
      injection Hstep as <-. by apply in_order_run_job.
    + case_decide; [|done].
      destruct (tasks !! i) as [[o|o]|]; try done.
      injection Hstep as <-. unfold in_order, started in *. simpl.
      by rewrite invokes_app, app_nil_r.
Qed.

(** X25: The tasks are started in the order of the batch, none left out:
    in every state of a run the tasks that have been invoked are the
    first ones of the batch, in order, and those that follow are in the
    queue in order. *)
Theorem parallel_starts_in_order st :
  reachable tasks concurrency st ->
  invoked st = seq 0 (length (invoked st)) /\
  invoked st ++ invokes (queue st) = seq 0 (length (results st)) /\
  length (results st) <= length tasks.
Proof.
  intros Hst. pose proof (in_order_reachable st Hst) as Hord.
  split; [|split; [done|by apply (wf_length tasks), (reachable_wf _ _ _ Hst)]].
  unfold in_order, started in Hord.
  pose proof (f_equal (take (length (invoked st))) Hord) as Htake.
  rewrite take_app_length, take_seq in Htake.
  rewrite Htake at 1. f_equal.
  pose proof (f_equal length Hord) as Hlen.
  rewrite length_app, length_seq in Hlen. lia.
Qed.

(** From where the limit is not below the size of the batch, the loop
    starts every task before its first [await]. *)
Lemma loop_wide rest st :
  (Z.of_nat (length tasks) <= concurrency)%Z ->
  wf tasks st ->
  length (results st) + length rest = length tasks ->
  length (results (loop concurrency rest st)) = length tasks.
Proof.
  intros Hwide. revert st.
  induction rest as [|t rest IH]; intros st Hwf Hlen; cbn [loop].
  - rewrite length_results_finish. simpl in Hlen. lia.
  - simpl in Hlen.
    assert (wf tasks (spawn st)) as Hwf1 by (apply wf_spawn; [lia|done]).
    pose proof (length_results_spawn st) as Hsp.
    case_decide as Hfull.
    + rewrite length_results_race, Hsp.
      pose proof (length_executing _ _ Hwf1). lia.
    + apply IH; [done|lia].
Qed.

Lemma length_results_step ev st st' :
  step tasks concurrency ev st = Some st' ->
  length (results st) <= length (results st').
Proof.
  destruct ev as [|i]; simpl.
  - destruct (queue st) as [|j q]; [done|]. intros [= <-].
    destruct j as [i|i o|i r o|i|r o|o]; simpl.
    + destruct (tasks !! i) as [[o|o]|]; simpl;
        by rewrite ?length_results_settle.
    + by rewrite length_results_settle.
    + destruct r as [|r|].
      * by destruct o.
      * by destruct (races st !! r) as [[|]|].
      * by rewrite length_results_all_react.
    + done.
    + destruct o; [|done]. unfold resume.
      etrans; [|apply length_results_loop]. done.
    + done.
  - case_decide; [|done]. destruct (tasks !! i) as [[o|o]|]; try done.
    by intros [= <-].
Qed.

Lemma length_results_wide st :
  (Z.of_nat (length tasks) <= concurrency)%Z ->
  reachable tasks concurrency st ->
  length (results st) = length tasks.
Proof.
  intros Hwide. induction 1 as [|ev st st' Hst IH Hstep].
  - apply loop_wide; [done|apply wf_empty|done].
  - pose proof (length_results_step _ _ _ Hstep).
    assert (reachable tasks concurrency st') as Hst' by (by econstructor).
    pose proof (wf_length tasks _ (reachable_wf _ _ _ Hst')). lia.
Qed.

(** X26: With a limit that is not below the size of the batch, every task is
    invoked and runs to its end, also when some fail: at the end of every
    run all the tasks have been invoked, in order, and each promise has
    settled as its task did. *)
Theorem parallel_wide_runs_all st :
  (Z.of_nat (length tasks) <= concurrency)%Z ->
  reachable tasks concurrency st -> quiescent st ->
  invoked st = seq 0 (length tasks) /\
  forall i t, tasks !! i = Some t ->
    results st !! i = Some (Settled (task_outcome t)).
Proof.
  intros Hwide Hst Hq.
  pose proof (length_results_wide st Hwide Hst) as Hall.
  pose proof (in_order_reachable st Hst) as Hord.
  unfold in_order, started in Hord.
  destruct Hq as [Hqueue Hactive].
  rewrite Hqueue, Hall in Hord. simpl in Hord. rewrite app_nil_r in Hord.
  split; [done|]. intros i t Hi.
  destruct (invoked_settled tasks concurrency st i Hst) as (t' & Ht' & Hres).
  - by split.
  - rewrite Hord. apply elem_of_seq. apply lookup_lt_Some in Hi. lia.
  - by simplify_eq.
Qed.

End order.

Lemma parallel_starts_in_order_witness :
  exists st,
    exec three_timers 2 [Tick; Tick; Complete 1%nat]
      (init three_timers 2) = Some st /\
    invoked st = [0; 1]%nat /\
    invoked st ++ invokes (queue st) = [0; 1]%nat.
Proof.
  eexists. split; [vm_compute; reflexivity|]. split; [reflexivity|].
  eapply (parallel_starts_in_order three_timers 2).
  apply (reachable_exec three_timers 2 [Tick; Tick; Complete 1%nat]
           (init three_timers 2)); [apply reachable_init|].
  vm_compute. reflexivity.
Defined.

(** The batch of the counterexample of C2, with room for both tasks. *)
Lemma parallel_wide_runs_all_witness :
  let st := run fail_then_ok 2 30 (init fail_then_ok 2) in
  invoked st = [0; 1]%nat /\
  result st = Some (Rejected 7%nat) /\
  results st !! 1%nat = Some (Settled (Fulfilled 11%nat)).
Proof.
  cbn zeta.
  destruct (parallel_wide_runs_all fail_then_ok 2
              (run fail_then_ok 2 30 (init fail_then_ok 2)))
    as [Hinv Hres].
  - simpl. lia.
  - apply run_reachable, reachable_init.
  - by vm_compute.
  - split; [exact Hinv|]. split; [by vm_compute|].
    by apply (Hres 1%nat (Sync (Fulfilled 11%nat))).
Defined.

End ParallelOrder.


(** * Properties of [isEmail] *)
Module ValidationSpec.
Import Validation.

Lemma nullable_matches r : nullable r = true <-> matches r [].
Proof.
  split.
  - induction r as [| |p|r1 IH1 r2 IH2|r1 IH1 r2 IH2|r IH]; simpl; try done.
    + constructor.
    + intros [H1 H2]%andb_true_iff.
      change (@nil Z) with (@nil Z ++ []). constructor; auto.
    + intros [H|H]%orb_true_iff; [apply matches_alt_l|apply matches_alt_r];
        auto.
    + constructor.
  - intros Hm. remember [] as s eqn:Hs.
    induction Hm as [|p c Hp|r1 r2 s1 s2 _ IH1 _ IH2|r1 r2 s _ IH|r1 r2 s _ IH
                    |r|r s1 s2 _ _ _ _]; simpl; try done.
    + apply app_eq_nil in Hs as [-> ->]. by rewrite IH1, IH2.
    + by rewrite IH.
    + rewrite IH by done. apply orb_true_r.
Qed.

Lemma matches_cat r1 r2 s :
  matches (Cat r1 r2) s <->
  exists s1 s2, s = s1 ++ s2 /\ matches r1 s1 /\ matches r2 s2.
Proof.
  split.
  - inversion 1; subst. by eexists _, _.
  - intros (s1 & s2 & -> & H1 & H2). by constructor.
Qed.

Lemma derive_matches c r s : matches (derive c r) s <-> matches r (c :: s).
Proof.
  revert s. induction r as [| |p|r1 IH1 r2 IH2|r1 IH1 r2 IH2|r IH];
    intros s; simpl.
  - split; inversion 1.
  - split; inversion 1.
  - destruct (p c) eqn:Hp; split.
    + inversion 1. by constructor.
    + inversion 1. constructor.
    + inversion 1.
    + inversion 1. congruence.
  - assert (matches (Cat (derive c r1) r2) s ->
            matches (Cat r1 r2) (c :: s)) as Hfront.
    { intros (s1 & s2 & -> & H1 & H2)%matches_cat.
      change (c :: s1 ++ s2) with ((c :: s1) ++ s2).
      constructor; [by apply IH1|done]. }
    assert (matches (Cat r1 r2) (c :: s) ->
            matches (Cat (derive c r1) r2) s \/
            (nullable r1 = true /\ matches (derive c r2) s)) as Hback.
    { intros (s1 & s2 & Heq & H1 & H2)%matches_cat.
      destruct s1 as [|c' s1]; simpl in Heq.
      - right. split; [by apply nullable_matches|]. apply IH2. by rewrite Heq.
      - injection Heq as -> ->. left. constructor; [by apply IH1|done]. }
    destruct (nullable r1) eqn:Hn; split.
    + inversion 1; subst; [by apply Hfront|].
      change (c :: s) with ([] ++ c :: s).
      constructor; [by apply nullable_matches|by apply IH2].
    + intros [H|[_ H]]%Hback; [by apply matches_alt_l|by apply matches_alt_r].
    + apply Hfront.
    + intros [H|[? _]]%Hback; [done|congruence].
  - split.
    + inversion 1; subst; [apply matches_alt_l|apply matches_alt_r];
        by (apply IH1 || apply IH2).
    + inversion 1; subst; [apply matches_alt_l|apply matches_alt_r];
        by (apply IH1 || apply IH2).
  - split.
    + intros (s1 & s2 & -> & H1 & H2)%matches_cat.
      change (c :: s1 ++ s2) with ((c :: s1) ++ s2).
      constructor; [by apply IH|done].
    + intros Hm. remember (Star r) as r' eqn:Hr.
      remember (c :: s) as s' eqn:Hs. revert s Hs.
      induction Hm as [| | |? ? u|? ? u| |r0 s1 s2 H1 _ H2 IH2'];
        intros s0 Hs0; try done.
      injection Hr as ->. destruct s1 as [|c' s1]; simpl in Hs0.
      * by apply IH2'.
      * injection Hs0 as -> <-. constructor; [by apply IH|done].
Qed.

Lemma test_matches r s : test r s = true <-> matches r s.
Proof.
  revert r. induction s as [|c s IH]; intros r; simpl.
  - apply nullable_matches.
  - rewrite IH. apply derive_matches.
Qed.

Lemma matches_char c s : matches (Char c) s <-> s = [c].
Proof.
  unfold Char. split.
  - inversion 1 as [|? ? Hc| | | | |]; subst. by apply Z.eqb_eq in Hc as ->.
  - intros ->. constructor. apply Z.eqb_refl.
Qed.

Lemma matches_star_class p s :
  matches (Star (Class p)) s <-> Forall (fun c => p c = true) s.
Proof.
  split.
  - intros Hm. remember (Star (Class p)) as r eqn:Hr.
    induction Hm as [| | | | | |r0 s1 s2 H1 _ H2 IH2]; try done.
    injection Hr as ->. inversion H1; subst. constructor; [done|by apply IH2].
  - induction 1 as [|c s Hc _ IH]; [constructor|].
    change (c :: s) with ([c] ++ s). constructor; [by constructor|done].
Qed.

Lemma matches_plus_class p s :
  matches (Plus (Class p)) s <-> s <> [] /\ Forall (fun c => p c = true) s.
Proof.
  unfold Plus. split.
  - intros (s1 & s2 & -> & H1 & H2)%matches_cat.
    inversion H1; subst. split; [done|].
    constructor; [done|by apply matches_star_class].
  - intros [Hne Hall]. destruct Hall as [|c s Hc Hall]; [done|].
    change (c :: s) with ([c] ++ s).
    constructor; [by constructor|by apply matches_star_class].
Qed.

Lemma isEmail_parts email :
  isEmail email = true <->
  exists local domain tld,
    email = local ++ [64] ++ domain ++ [46] ++ tld /\
    local <> [] /\ domain <> [] /\ tld <> [] /\
    Forall (fun c => plain c = true) (local ++ domain ++ tld).
Proof.
  unfold isEmail, email_regex. rewrite test_matches. split.
  - intros (l & s1 & -> & [Hl Hla]%matches_plus_class & Hm)%matches_cat.
    apply matches_cat in Hm as (a & s2 & -> & ->%matches_char & Hm).
    apply matches_cat in Hm
      as (d & s3 & -> & [Hd Hda]%matches_plus_class & Hm).
    apply matches_cat in Hm
      as (dot & t & -> & ->%matches_char & [Ht Hta]%matches_plus_class).
    exists l, d, t. repeat split; try done.
    rewrite !Forall_app. done.
  - intros (l & d & t & -> & Hl & Hd & Ht & Hall).
    rewrite !Forall_app in Hall. destruct Hall as (Hla & Hda & Hta).
    apply matches_cat. exists l, ([64] ++ d ++ [46] ++ t).
    split; [done|]. split; [by apply matches_plus_class|].
    apply matches_cat. exists [64], (d ++ [46] ++ t).
    split; [done|]. split; [by apply matches_char|].
    apply matches_cat. exists d, ([46] ++ t).
    split; [done|]. split; [by apply matches_plus_class|].
    apply matches_cat. exists [46], t.
    split; [done|]. split; [by apply matches_char|].
    by apply matches_plus_class.
Qed.

(** X27: [isEmail] accepts the strings made of a local part, an [@], a domain,
    a dot and an end, where none of the three parts is empty or has white
    space or an [@] in it, and no other string: the parts may have dots,
    the last one also at its end.  A string it accepts has one [@] and no
    white space; a string without a dot after its [@] is refused. *)
Theorem isEmail_shape email :
  (isEmail email = true <->
     exists local domain tld,
       email = local ++ [64] ++ domain ++ [46] ++ tld /\
       local <> [] /\ domain <> [] /\ tld <> [] /\
       Forall (fun c => plain c = true) (local ++ domain ++ tld)) /\
  (isEmail email = true ->
     length (filter (fun c => c = 64) email) = 1%nat /\
     Forall (fun c => is_space c = false) email) /\
  (forall local domain,
     Forall (fun c => plain c = true) local -> 46 ∉ domain ->
     isEmail (local ++ [64] ++ domain) = false).
Proof.
  split; [apply isEmail_parts|]. split.
  - intros (l & d & t & -> & Hl & Hd & Ht & Hall)%isEmail_parts.
    rewrite !Forall_app in Hall. destruct Hall as (Hla & Hda & Hta).
    assert (forall s, Forall (fun c => plain c = true) s ->
              filter (fun c => c = 64) s = [] /\
              Forall (fun c => is_space c = false) s) as Hplain.
    { intros s Hs. induction Hs as [|c s Hc _ (IH1 & IH2)]; [done|].
      unfold plain in Hc.
      apply negb_true_iff, orb_false_iff in Hc as [Hsp Hat].
      apply Z.eqb_neq in Hat.
      rewrite filter_cons, decide_False by done.
      split; [done|]. by constructor. }
    destruct (Hplain l Hla) as (Hl1 & Hl2).
    destruct (Hplain d Hda) as (Hd1 & Hd2).
    destruct (Hplain t Hta) as (Ht1 & Ht2).
    split.
    + rewrite !filter_app, Hl1, Hd1, Ht1. done.
    + rewrite !Forall_app. repeat split; try done; by repeat constructor.
  - intros l d Hla Hdot.
    destruct (isEmail (l ++ [64] ++ d)) eqn:Hmail; [exfalso|done].
    apply isEmail_parts in Hmail
      as (l' & d' & t' & Heq & Hl' & Hd' & Ht' & Hall').
    rewrite !Forall_app in Hall'. destruct Hall' as (Hla' & Hda' & Hta').
    assert (forall s1 s2 s1' s2' : list Z,
              Forall (fun c => plain c = true) s1 ->
              Forall (fun c => plain c = true) s1' ->
              s1 ++ 64 :: s2 = s1' ++ 64 :: s2' -> s2 = s2') as Hsplit.
    { intros s1. induction s1 as [|c s1 IH]; intros s2 s1' s2' H1 H1' Hs.
      - destruct s1' as [|c' s1']; [by injection Hs|].
        injection Hs as <- _. by inversion H1'.
      - destruct s1' as [|c' s1'].
        + injection Hs as -> _. by inversion H1.
        + injection Hs as _ Hs. inversion H1; inversion H1'; subst.
          by eapply IH. }
    apply (Hsplit l d l' (d' ++ [46] ++ t') Hla Hla') in Heq as ->.
    apply Hdot. set_solver.
Qed.

End ValidationSpec.


(** * Properties of [formatDate] *)
Module DatesSpec.
Import Dates.

Lemma padStart2_two_digits n :
  0 <= n <= 99 -> padStart2 (to_string n) = two_digits n.
Proof.
  intros Hn.
  assert (exists k : nat, (k < 100)%nat /\ n = Z.of_nat k) as (k & Hk & ->)
    by (exists (Z.to_nat n); lia).
  clear Hn. do 100 (destruct k as [|k]; [reflexivity|]). lia.
Qed.

Lemma replace_all_literal toks s :
  (forall t, t ∈ toks -> exists c rest, t.1 = String c rest /\
                                       token_letter c = true) ->
  Forall (fun c => token_letter c = false) (String.list_ascii_of_string s) ->
  replace_all toks 0 s = s.
Proof.
  intros Htoks. induction s as [|c s IH]; intros Hs; [done|].
  simpl in Hs. apply Forall_cons in Hs as [Hc Hs].
  cbn [replace_all].
  assert (match_token toks (String c s) = None) as ->.
  { unfold match_token. clear IH Hs.
    induction toks as [|t toks IHt]; [done|]. simpl.
    destruct (Htoks t) as (c' & rest & Ht & Hc'); [left|].
    rewrite Ht. simpl. destruct (ascii_dec c' c) as [->|Hne]; [congruence|].
    apply IHt. intros t' Ht'. apply Htoks. by right. }
  by rewrite IH.
Qed.

(** X29: With the format [YYYY-MM-DD HH:mm:ss] and a date whose fields are
    in their ranges, [formatDate] gives the year as it is, the month
    counted from 1, and month, day, hours, minutes and seconds with two
    digits each, the separators in their places; a format without any of
    the letters Y, M, D, H, m and s comes back as it is. *)
Theorem formatDate_default d :
  0 <= getMonth d <= 11 -> 1 <= getDate d <= 31 ->
  0 <= getHours d <= 23 -> 0 <= getMinutes d <= 59 ->
  0 <= getSeconds d <= 59 ->
  formatDate d "YYYY-MM-DD HH:mm:ss" =
    String.append (to_string (getFullYear d))
      (String "-" (String.append (two_digits (getMonth d + 1))
      (String "-" (String.append (two_digits (getDate d))
      (String " " (String.append (two_digits (getHours d))
      (String ":" (String.append (two_digits (getMinutes d))
      (String ":" (two_digits (getSeconds d))))))))))) /\
  forall format,
    Forall (fun c => token_letter c = false)
      (String.list_ascii_of_string format) ->
    formatDate d format = format.
Proof.
  intros Hmonth Hday Hhours Hminutes Hseconds. split.
  - unfold formatDate, tokens. rewrite !padStart2_two_digits by lia.
    generalize (to_string (getFullYear d)) (two_digits (getMonth d + 1))
      (two_digits (getDate d)) (two_digits (getHours d))
      (two_digits (getMinutes d)) (two_digits (getSeconds d)).
    intros year month day hours minutes seconds.
    cbv [replace_all match_token find String.prefix fst snd String.length
         Nat.sub Ascii.ascii_dec ascii_rec ascii_rect Bool.bool_dec bool_rec
         bool_rect sumbool_rec sumbool_rect].
    by rewrite StringsSpec.append_empty_r.
  - intros format Hformat. apply replace_all_literal; [|done].
    intros t Ht. unfold tokens in Ht.
    repeat (apply elem_of_cons in Ht as [->|Ht]; [by eexists _, _|]).
    by apply elem_of_nil in Ht.
Qed.

Lemma formatDate_default_witness :
  formatDate (Date 2025 6 6 9 5 0) "YYYY-MM-DD HH:mm:ss"
  = "2025-07-06 09:05:00"%string.
Proof.
  destruct (formatDate_default (Date 2025 6 6 9 5 0)) as [Hdefault _];
    simpl; try lia.
  rewrite Hdefault. reflexivity.
Defined.

End DatesSpec.
